(** * ImageCompressor: a shallow embedding of [withSource/main.py] and
    [withLinks/main.py]

    The two scripts are embedded as functional programs over an explicit file
    store. Library calls ([os.path], [shutil], [PIL], [re], [requests]) are
    modelled by small definitions that follow the documented behaviour of the
    library function the script calls; the scripts' own functions keep their
    names and are transcribed statement by statement. *)

From Stdlib Require Import ZArith QArith Lia Strings.Byte Ascii String.
From stdpp Require Import gmap strings list fin_maps.

Local Open Scope string_scope.
Local Open Scope list_scope.

(** ** Python strings of file names

    File names are byte strings. [str.lower] and [str.upper] are modelled on
    the ASCII letters; the scripts only compare the results with ASCII
    constants, and no non-ASCII code point lower-cases to one of the letters
    that occur in these constants. *)
Module PyStr.

Definition lower_ascii (c : ascii) : ascii :=
  let n := nat_of_ascii c in
  if (65 <=? n)%nat && (n <=? 90)%nat then ascii_of_nat (n + 32) else c.

Definition upper_ascii (c : ascii) : ascii :=
  let n := nat_of_ascii c in
  if (97 <=? n)%nat && (n <=? 122)%nat then ascii_of_nat (n - 32) else c.

Fixpoint lower (s : string) : string :=
  match s with
  | EmptyString => EmptyString
  | String c s' => String (lower_ascii c) (lower s')
  end.

Fixpoint upper (s : string) : string :=
  match s with
  | EmptyString => EmptyString
  | String c s' => String (upper_ascii c) (upper s')
  end.

End PyStr.

(** ** [os.path] on paths split into components

    A path is the list of its components: ["sourceImages/a/b.png"] is
    [["sourceImages"; "a"; "b.png"]], and the empty list is the current
    directory ["."]. *)
Module OsPath.

Definition path := list string.

(** [os.path.join(a, b)] for a relative [b]. *)
Definition join (a b : path) : path := a ++ b.

(** [os.path.dirname]. *)
Definition dirname (p : path) : path := removelast p.

(** [os.path.basename]. *)
Definition basename (p : path) : string := List.last p EmptyString.

(** Length of the longest common prefix, as [os.path.commonprefix] on the
    component lists. *)
Fixpoint commonprefix_len (a b : path) : nat :=
  match a, b with
  | x :: a', y :: b' => if decide (x = y) then S (commonprefix_len a' b') else 0
  | _, _ => 0
  end.

(** [os.path.relpath(p, start)]:
    [rel_list = [pardir] * (len(start_list) - i) + path_list[i:]]. *)
Definition relpath (p start : path) : path :=
  let i := commonprefix_len start p in
  replicate (length start - i) ".." ++ drop i p.

(** Splits a name at its last dot: [Some (before, "." ++ after)]. *)
Fixpoint split_last_dot (s : string) : option (string * string) :=
  match s with
  | EmptyString => None
  | String c s' =>
      match split_last_dot s' with
      | Some (b, e) => Some (String c b, e)
      | None => if decide (c = "."%char) then Some (EmptyString, s) else None
      end
  end.

Fixpoint all_dots (s : string) : bool :=
  match s with
  | EmptyString => true
  | String c s' => bool_decide (c = "."%char) && all_dots s'
  end.

(** [os.path.splitext] on a name without separator
    ([genericpath._splitext]): the name is split at its last dot unless only
    dots precede it. *)
Definition splitext (name : string) : string * string :=
  match split_last_dot name with
  | Some (b, e) => if all_dots b then (name, EmptyString) else (b, e)
  | None => (name, EmptyString)
  end.

(** [path + suffix]: string concatenation reaches the last component. *)
Definition add_suffix (p : path) (suffix : string) : path :=
  match p with
  | [] => [suffix]
  | _ => removelast p ++ [List.last p EmptyString +:+ suffix]
  end.

(** [p] lies strictly below the directory [root]. *)
Definition under (root p : path) : Prop := root `prefix_of` p ∧ p ≠ root.

#[global] Instance under_dec root p : Decision (under root p).
Proof. unfold under. apply _. Defined.

End OsPath.

Import OsPath.

(** ** The file store

    The store holds the regular files, by path, with their bytes and
    modification time, and the set of the directories; the current
    directory, the empty path, always exists. Each operation fails where the
    operating system makes it fail on such a store: a missing file, a file
    where a directory is needed, a directory where a file is needed, a missing
    parent directory. Permissions, links and a full disk are not part of the
    store. A computation passes through a sequence of stores, one for each
    change that another process could observe, and then returns or
    raises. *)
Module Fs.

Record file := File { data : list byte; mtime : Z }.

Record store := Store { files : gmap path file; dirs : gset path }.

(** [s !! p] is the regular file at [p]. *)
#[global] Instance store_lookup : Lookup path file store :=
  λ p s, files s !! p.
#[global] Instance store_empty : Empty store := Store ∅ ∅.
#[global] Instance store_insert : Insert path file store :=
  λ p f s, Store (<[p := f]> (files s)) (dirs s).
#[global] Instance store_delete : Delete path store :=
  λ p s, Store (delete p (files s)) (dirs s).

Definition mkdir (d : path) (s : store) : store :=
  Store (files s) ({[ d ]} ∪ dirs s).

(** [os.path.isdir] *)
Definition is_dir (s : store) (p : path) : bool :=
  bool_decide (p = [] ∨ p ∈ dirs s).

(** [os.path.exists] *)
Definition exists_at (s : store) (p : path) : bool :=
  bool_decide (is_Some (s !! p)) || is_dir s p.

Inductive exn :=
| FileNotFoundError
| FileExistsError
| NotADirectoryError
| IsADirectoryError
| SameFileError
| ValueError (msg : string)
| ImageError
| RequestException.

Inductive result (A : Type) :=
| Ok (a : A)
| Raise (e : exn).
Arguments Ok {A} a.
Arguments Raise {A} e.

Definition M (A : Type) : Type := store → list store * result A.

(** The store a computation is in after the stores [tr], started from [s]. *)
Definition final (s : store) (tr : list store) : store := List.last tr s.

Definition ret {A} (a : A) : M A := λ s, ([], Ok a).

Definition raise {A} (e : exn) : M A := λ s, ([], Raise e).

Definition bind {A B} (m : M A) (f : A → M B) : M B := λ s,
  match m s with
  | (tr, Ok a) => let '(tr', r) := f a (final s tr) in (tr ++ tr', r)
  | (tr, Raise e) => (tr, Raise e)
  end.

(** [try: m except Exception as e: h e]. *)
Definition try_except {A} (m : M A) (h : exn → M A) : M A := λ s,
  match m s with
  | (tr, Ok a) => (tr, Ok a)
  | (tr, Raise e) => let '(tr', r) := h e (final s tr) in (tr ++ tr', r)
  end.

Definition get : M store := λ s, ([], Ok s).

(** A step that does not touch the store. *)
Definition lift {A} (r : result A) : M A := λ s, ([], r).

(** One indivisible change of the store. *)
Definition step (f : store → store) : M unit := λ s, ([f s], Ok tt).

(** A change made in several observable stages. *)
Definition stages (f : store → list store) : M unit := λ s, (f s, Ok tt).

#[global] Instance M_ret : MRet M := @ret.
#[global] Instance M_bind : MBind M := λ A B f m, bind m f.

(** [for x in xs: body x]. *)
Fixpoint for_each {A} (xs : list A) (body : A → M unit) : M unit :=
  match xs with
  | [] => ret tt
  | x :: xs' => bind (body x) (λ _, for_each xs' body)
  end.

(** The store after [m], and what [m] returned. *)
Definition exec {A} (m : M A) (s : store) : store := final s (m s).1.
Definition outcome_of {A} (m : M A) (s : store) : result A := (m s).2.

(** Writing [bs] to [p] through [open(p, "wb")]: the file is created or
    truncated, then grows to [bs]. *)
Definition write_stages (p : path) (bs : list byte) (t : Z) (s : store)
  : list store :=
  (λ n, <[p := File (take n bs) t]> s) <$> seq 0 (S (length bs)).

(** What [open(p, "wb")] raises on the store, if anything: [p] is a
    directory, or the directory it is to stand in is a file or does not
    exist. *)
Definition open_error (s : store) (p : path) : option exn :=
  if is_dir s p then Some IsADirectoryError
  else if bool_decide (is_Some (s !! dirname p)) then Some NotADirectoryError
  else if is_dir s (dirname p) then None
  else Some FileNotFoundError.

(** [os.path.getsize(p)]; [dir_size] is what the system reports for a
    directory. *)
Definition os_path_getsize (dir_size : Z) (p : path) : M Z :=
  s ← get;
  match s !! p with
  | Some f => ret (Z.of_nat (length (data f)))
  | None => if is_dir s p then ret dir_size else raise FileNotFoundError
  end.

(** The paths [os.makedirs(d)] goes through: [d] and the directories above
    it, the outermost first. *)
Definition ancestors (d : path) : list path :=
  (λ n, take n d) <$> seq 1 (length d).

(** The [mkdir] calls of [os.makedirs(name, exist_ok=True)] along [ds]. A
    regular file on the way ends them: with [FileExistsError] when it stands
    at [name] itself, with [NotADirectoryError] when it stands above it, or
    at [name] when the string of [name] ends with a dot component. *)
Fixpoint mkdirs (ds : list path) (name : path) (dot : bool) : M unit :=
  match ds with
  | [] => ret tt
  | d :: ds' =>
      s ← get;
      match s !! d with
      | Some _ =>
          raise (if bool_decide (d = name) && negb dot then FileExistsError
                 else NotADirectoryError)
      | None =>
          _ ← (if is_dir s d then ret tt else step (mkdir d));
          mkdirs ds' name dot
      end
  end.

(** [os.makedirs(name, exist_ok=True)] for the path [d]; [dot] tells that
    the string is [d] followed by a separator and a dot, as [os.path.join]
    makes it from the relative path of a directory to itself. The empty
    string has no directory to make. *)
Definition os_makedirs (d : path) (dot : bool) : M unit :=
  if decide (d = []) then raise FileNotFoundError
  else mkdirs (ancestors d) d dot.

(** [os.replace(a, b)] for a regular file [a]: one rename. *)
Definition os_replace (a b : path) : M unit :=
  s ← get;
  match s !! a with
  | Some f =>
      match open_error s b with
      | Some e => raise e
      | None => step (λ s, <[b := f]> (delete a s))
      end
  | None => raise FileNotFoundError
  end.

Definition os_remove (a : path) : M unit :=
  s ← get;
  match s !! a with
  | Some _ => step (delete a)
  | None => raise (if is_dir s a then IsADirectoryError else FileNotFoundError)
  end.

(** [shutil.copy2(a, b)]: a directory [b] stands for the path of the same
    name as [a] in it; [copyfile] refuses to copy a file onto itself, opens
    the source and the target and writes the bytes, then [copystat] carries
    the timestamps over. [now] is the time new files are stamped with. *)
Definition shutil_copy2 (now : Z) (a b : path) : M unit :=
  s ← get;
  let target := if is_dir s b then b ++ [basename a] else b in
  match s !! a with
  | None => raise (if is_dir s a then IsADirectoryError else FileNotFoundError)
  | Some f =>
      if decide (a = target) then raise SameFileError
      else
        match open_error s target with
        | Some e => raise e
        | None =>
            stages (λ s, write_stages target (data f) now s
                         ++ [<[target := f]> s])
        end
  end.

(** The regular files and the directories that stand in the directory
    [top], in the order of the store. *)
Definition filenames (top : path) (s : store) : list path :=
  filter (λ p, p ≠ [] ∧ dirname p = top) (map_to_list (files s)).*1.

Definition dirnames (top : path) (s : store) : list path :=
  filter (λ p, p ≠ [] ∧ dirname p = top) (elements (dirs s)).

(** [os.walk(top)], top down: the files of a directory come before those
    of the directories in it. [fuel] bounds the depth. *)
Fixpoint walk (fuel : nat) (top : path) (s : store) : list path :=
  match fuel with
  | O => []
  | S n => filenames top s ++ concat ((λ d, walk n d s) <$> dirnames top s)
  end.

(** No directory of the store lies deeper than this. *)
Definition depth (s : store) : nat :=
  S (max_list (length <$> elements (dirs s))).

(** The files [os.walk(root)] reaches; none when [root] is no directory. *)
Definition walk_files (root : path) (s : store) : list path :=
  if is_dir s root then walk (depth s) root s else [].

Definition os_path_isdir (root : path) : M bool :=
  s ← get; ret (is_dir s root).

End Fs.

Import Fs.

(** ** PIL

    [Image.open] and [Image.save] are parameters. Decoding may fail.
    [encode] tells how a call of [img.save] ends: it returns with the bytes of
    the new file written, or it raises, either before the file is opened (an
    unknown format, a path that cannot be opened) or after the encoder has
    written a part of it. *)
Module Pil.

Record save_kwargs := SaveKwargs { quality : option Z; optimize : option bool }.

Definition no_kwargs : save_kwargs := SaveKwargs None None.

Inductive encode_result :=
| Encoded (bs : list byte)
| EncodeError (left : option (list byte)).

Class Codec := {
  image : Type;
  decode : list byte → option image;
  encode : image → string → save_kwargs → encode_result;
  (** time stamp of the files created during the run *)
  now : Z;
  (** size the system reports for a directory *)
  dir_size : Z;
}.

Section WithCodec.
Context `{Codec}.

(** [Image.open(p)] *)
Definition Image_open (p : path) : M image :=
  s ← get;
  match s !! p with
  | None => raise (if is_dir s p then IsADirectoryError else FileNotFoundError)
  | Some f =>
      match decode (data f) with
      | Some img => ret img
      | None => raise ImageError
      end
  end.

(** [Image.open(BytesIO(bs))] *)
Definition Image_open_bytes (bs : list byte) : M image :=
  match decode bs with
  | Some img => ret img
  | None => raise ImageError
  end.

(** [img.save(p, fmt, **kw)]. The codec tells how the call ends.
    [Encoded bs]: the call returns, having opened the file and written
    [bs]. [EncodeError None]: it raises before the file is opened (an
    unknown format, a path that cannot be opened). [EncodeError (Some part)]:
    the encoder raises after the file has been opened and [part] written;
    [Image.save] then removes the file if the call has created it
    ([created = not os.path.exists(filename)]) and leaves it, cut to what the
    encoder had written, if it was there before. *)
Definition Image_save (img : image) (p : path) (fmt : string)
    (kw : save_kwargs) : M unit :=
  match encode img fmt kw with
  | Encoded bs => stages (write_stages p bs now)
  | EncodeError None => raise ImageError
  | EncodeError (Some part) =>
      s ← get;
      _ ← stages (write_stages p part now);
      _ ← (if exists_at s p then ret tt else step (delete p));
      raise ImageError
  end.

End WithCodec.
End Pil.

Import Pil.

(** ** withSource/main.py *)
Module WithSource.

(** The module-level settings. [THRESHOLD] is a Python float and is kept as
    the rational it denotes. *)
Record Config := {
  TARGET_FORMAT : option string;
  QUALITY : Z;
  THRESHOLD : Q;
  AGGRESSIVE_DROP : Z;
}.

(** The double nearest to [1.2] is [5404319552844595 / 2^52]; multiplying by
    [1024 * 1024] is exact. *)
Definition source_config : Config := {|
  TARGET_FORMAT := None;
  QUALITY := 85;
  THRESHOLD := (5404319552844595 # 4294967296)%Q;
  AGGRESSIVE_DROP := 20;
|}.

Definition SOURCE_DIR : path := ["sourceImages"].
Definition OUTPUT_DIR : path := ["compressedImages"].

Definition IMAGE_EXTENSIONS : gset string :=
  list_to_set [".jpg"; ".jpeg"; ".png"; ".bmp"; ".gif"; ".tiff"; ".webp"].

Definition EXT_TO_FORMAT : gmap string string :=
  list_to_map [
    (".jpg", "JPEG");
    (".jpeg", "JPEG");
    (".png", "PNG");
    (".bmp", "BMP");
    (".gif", "GIF");
    (".tiff", "TIFF");
    (".webp", "WEBP")
  ].

(** The log record a call of [compress_image_file] ends with. *)
Inductive outcome :=
| Compressed (orig_size comp_size : Z)
| KeptOriginal (orig_size comp_size : Z)
| Failed (e : exn).

Section Program.
Context `{Codec} (cfg : Config).

(** [if TARGET_FORMAT:] holds for a non-empty string. *)
Definition target : option string :=
  match TARGET_FORMAT cfg with
  | Some t => if decide (t = EmptyString) then None else Some t
  | None => None
  end.

(** Lines 52-59: the save format and the extension. *)
Definition resolve_format (input_path : path) : result (string * string) :=
  match target with
  | Some t => Ok (PyStr.upper t, "." +:+ PyStr.lower t)
  | None =>
      let out_ext := PyStr.lower (splitext (basename input_path)).2 in
      match EXT_TO_FORMAT !! out_ext with
      | Some fmt => Ok (fmt, out_ext)
      | None => Raise (ValueError "Unsupported output format")
      end
  end.

(** Lines 62-76: the save parameters. *)
Definition save_params (fmt : string) (orig_size : Z) : save_kwargs :=
  if bool_decide (fmt ∈ ["WEBP"; "JPEG"]) then
    let q :=
      if negb (Qle_bool (inject_Z orig_size) (THRESHOLD cfg))
      then Z.max 1 (QUALITY cfg - AGGRESSIVE_DROP cfg)
      else QUALITY cfg in
    SaveKwargs (Some q) None
  else if bool_decide (fmt = "PNG") then SaveKwargs None (Some true)
  else no_kwargs.

(** Lines 48-94: the body of the [try] block. [os.path.splitext] is applied
    to the whole path there; the dot it looks for follows the last separator,
    so the extension is that of the last component. Line 49 makes the
    directory of the output, and fails for an output without directory part.
    The directory is taken as its components give it; [main] writes it with
    a dot component for the files that stand in the source root, which
    matters only for the error a file at that place raises, and [main] has
    met that error at line 125 before. *)
Definition compress_try (input_path output_path : path) : M outcome :=
  img ← Image_open input_path;
  _ ← os_makedirs (dirname output_path) false;
  '(fmt, out_ext) ← lift (resolve_format input_path);
  orig_size ← os_path_getsize dir_size input_path;
  let save_kwargs := save_params fmt orig_size in
  let temp_path := add_suffix output_path ".tmp" in
  _ ← Image_save img temp_path fmt save_kwargs;
  comp_size ← os_path_getsize dir_size temp_path;
  if (comp_size <? orig_size)%Z then
    _ ← os_replace temp_path output_path;
    ret (Compressed orig_size comp_size)
  else
    _ ← shutil_copy2 now input_path output_path;
    _ ← os_remove temp_path;
    ret (KeptOriginal orig_size comp_size).

Definition compress_image_file (input_path output_path : path) : M outcome :=
  try_except (compress_try input_path output_path) (λ e, ret (Failed e)).

Definition gather_all_files (root_dir : path) : M (list path) :=
  s ← get; ret (walk_files root_dir s).

(** Lines 123-139: the body of the loop of [main]. No [try] surrounds it:
    what [os.makedirs] of line 125 or [shutil.copy2] of line 138 raises ends
    [main]. For a file that stands in the source root [rel_dir] is the dot,
    and the directory made is the output root followed by it. *)
Definition process_file (src : path) : M unit :=
  let rel_dir := relpath (dirname src) SOURCE_DIR in
  let dest_dir := join OUTPUT_DIR rel_dir in
  _ ← os_makedirs dest_dir (bool_decide (rel_dir = []));
  let '(base, ext) := splitext (basename src) in
  let ext_lower := PyStr.lower ext in
  if bool_decide (ext_lower ∈ IMAGE_EXTENSIONS) then
    let out_ext :=
      match target with
      | Some t => "." +:+ PyStr.lower t
      | None => ext_lower
      end in
    let dest_path := join dest_dir [base +:+ out_ext] in
    _ ← compress_image_file src dest_path; ret tt
  else
    let dest_path := join dest_dir [base +:+ ext] in
    shutil_copy2 now src dest_path.

(** Line 129: the walker's test for an image. *)
Definition is_image (src : path) : bool :=
  bool_decide (PyStr.lower (splitext (basename src)).2 ∈ IMAGE_EXTENSIONS).

(** The value of [dest_path] in the loop body for the file [src]. *)
Definition dest_path (src : path) : path :=
  let rel_dir := relpath (dirname src) SOURCE_DIR in
  let dest_dir := join OUTPUT_DIR rel_dir in
  let '(base, ext) := splitext (basename src) in
  let ext_lower := PyStr.lower ext in
  if bool_decide (ext_lower ∈ IMAGE_EXTENSIONS) then
    let out_ext :=
      match target with
      | Some t => "." +:+ PyStr.lower t
      | None => ext_lower
      end in
    join dest_dir [base +:+ out_ext]
  else join dest_dir [base +:+ ext].

Definition main : M unit :=
  isdir ← os_path_isdir SOURCE_DIR;
  if negb isdir then ret tt
  else
    images ← gather_all_files SOURCE_DIR;
    if bool_decide (images = []) then ret tt
    else for_each images process_file.

End Program.
End WithSource.

(** ** Python's [re] on the two patterns of withLinks/main.py

    Text is a sequence of code points. The matcher is the usual backtracking
    one: alternatives are tried in the order of priority of [re] (a greedy
    repetition first tries to take one more character, a lazy one first tries
    to stop), and the first complete match wins. Repetition is only needed
    over single-character classes. *)
Module Re.

Abbreviation text := (list N).

Definition text_of (s : string) : text := N_of_ascii <$> list_ascii_of_string s.

Definition in_range (lo hi c : N) : bool := (lo <=? c)%N && (c <=? hi)%N.

(** [\s] and [str.isspace] on [str]: the code points with
    [Py_UNICODE_ISSPACE]. *)
Definition is_space (c : N) : bool :=
  in_range 9 13 c || in_range 28 32 c || (c =? 133)%N || (c =? 160)%N
  || (c =? 5760)%N || in_range 8192 8202 c || (c =? 8232)%N || (c =? 8233)%N
  || (c =? 8239)%N || (c =? 8287)%N || (c =? 12288)%N.

(** [\w] on the ASCII range. The only [\b] of the scripts stands between a
    quote character and the letter [h]. *)
Definition is_word (c : N) : bool :=
  in_range 48 57 c || in_range 65 90 c || in_range 97 122 c || (c =? 95)%N.

Inductive regex :=
| Cls (p : N → bool)                (* one character of a class *)
| Cat (r1 r2 : regex)               (* r1 r2 *)
| Opt (r : regex)                   (* r? *)
| Star (greedy : bool) (p : N → bool) (* [p]* and [p]*? *)
| Bol                               (* ^ under MULTILINE *)
| WordB                             (* \b *)
| Grp (r : regex).                  (* ( r ) *)

(** Where the matcher stands: the character before the position, the text
    from the position on, and the groups closed so far. *)
Record mstate := MState { prev : option N; rest : text; groups : list text }.

Section Matcher.
Context {A : Type}.

Fixpoint star_greedy (p : N → bool) (k : mstate → option A)
    (pv : option N) (s : text) (gs : list text) : option A :=
  match s with
  | c :: s' =>
      if p c then
        match star_greedy p k (Some c) s' gs with
        | Some a => Some a
        | None => k (MState pv s gs)
        end
      else k (MState pv s gs)
  | [] => k (MState pv [] gs)
  end.

Fixpoint star_lazy (p : N → bool) (k : mstate → option A)
    (pv : option N) (s : text) (gs : list text) : option A :=
  match k (MState pv s gs) with
  | Some a => Some a
  | None =>
      match s with
      | c :: s' => if p c then star_lazy p k (Some c) s' gs else None
      | [] => None
      end
  end.

Definition word_at (o : option N) : bool :=
  match o with Some c => is_word c | None => false end.

(** [run r k st]: the first way, in priority order, to match [r] from [st]
    and then succeed in [k]. *)
Fixpoint run (r : regex) (k : mstate → option A) (st : mstate) : option A :=
  match r with
  | Cls p =>
      match rest st with
      | c :: s' => if p c then k (MState (Some c) s' (groups st)) else None
      | [] => None
      end
  | Cat r1 r2 => run r1 (run r2 k) st
  | Opt r1 =>
      match run r1 k st with
      | Some a => Some a
      | None => k st
      end
  | Star true p => star_greedy p k (prev st) (rest st) (groups st)
  | Star false p => star_lazy p k (prev st) (rest st) (groups st)
  | Bol =>
      match prev st with
      | None => k st
      | Some c => if (c =? 10)%N then k st else None
      end
  | WordB =>
      if xorb (word_at (prev st)) (word_at (head (rest st))) then k st
      else None
  | Grp r1 =>
      run r1
        (λ st', k (MState (prev st') (rest st')
                     (groups st'
                      ++ [take (length (rest st) - length (rest st')) (rest st)])))
        st
  end.

End Matcher.

(** [pattern.match] at a position: the state after the match. *)
Definition match_at (r : regex) (pv : option N) (s : text) : option mstate :=
  run r Some (MState pv s []).

(** [finditer]/[findall]: the matches from left to right, not overlapping;
    each match is given by its groups. [skip] counts the characters of the
    last match that are still to be passed. *)
Fixpoint scan (r : regex) (pv : option N) (s : text) (skip : nat)
  : list (list text) :=
  match skip with
  | S n =>
      match s with
      | [] => []
      | c :: s' => scan r (Some c) s' n
      end
  | O =>
      match match_at r pv s with
      | Some st =>
          groups st ::
          match s with
          | [] => []
          | c :: s' => scan r (Some c) s' (length s - length (rest st) - 1)
          end
      | None =>
          match s with
          | [] => []
          | c :: s' => scan r (Some c) s' 0
          end
      end
  end.

Definition finditer (r : regex) (s : text) : list (list text) :=
  scan r None s 0.

(** [re.findall] for a pattern with one group. *)
Definition findall (r : regex) (s : text) : list text :=
  (λ gs, default [] (head gs)) <$> scan r None s 0.

Definition chr (c : N) : regex := Cls (N.eqb c).

Fixpoint lit (s : text) (k : regex) : regex :=
  match s with
  | [] => k
  | c :: s' => Cat (chr c) (lit s' k)
  end.

(** [str.strip()] *)
Fixpoint lstrip (s : text) : text :=
  match s with
  | c :: s' => if is_space c then lstrip s' else s
  | [] => []
  end.

Definition strip (s : text) : text := reverse (lstrip (reverse (lstrip s))).

(** [sep.join(l)] *)
Fixpoint str_join (sep : text) (l : list text) : text :=
  match l with
  | [] => []
  | [x] => x
  | x :: l' => x ++ sep ++ str_join sep l'
  end.

End Re.

(** ** withLinks/main.py *)
Module WithLinks.
Import Re.


Definition NL : N := 10.
Definition DQUOTE : N := 34.      (* straight double quote *)
Definition LDQUOTE : N := 8220.   (* left curly double quote *)
Definition RDQUOTE : N := 8221.   (* right curly double quote *)
Definition LBRACKET : N := 91.
Definition RBRACKET : N := 93.

Definition not_newline (c : N) : bool := negb (c =? NL)%N.
Definition any_char (_ : N) : bool := true.
Definition open_quote (c : N) : bool := (c =? LDQUOTE)%N || (c =? DQUOTE)%N.
Definition close_quote (c : N) : bool := (c =? RDQUOTE)%N || (c =? DQUOTE)%N.
Definition url_char (c : N) : bool := negb ((c =? DQUOTE)%N || (c =? RDQUOTE)%N).

(** Line 35, with DOTALL and MULTILINE: at the start of a line, the group
    category (one or more characters other than a newline, greedy), blanks,
    a newline, blanks, and the group array (an opening bracket, any
    characters, lazy, and a closing bracket). *)
Definition pattern : regex :=
  Cat Bol
  (Cat (Grp (Cat (Cls not_newline) (Star true not_newline)))
  (Cat (Star true is_space)
  (Cat (chr NL)
  (Cat (Star true is_space)
       (Grp (Cat (chr LBRACKET) (Cat (Star false any_char) (chr RBRACKET)))))))).

(** Line 43, the pattern of [re.findall]: a left curly or straight quote,
    the group (a word boundary, http, an optional s, a colon and two
    slashes, then one or more characters other than a straight or right
    curly quote, greedy), and a right curly or straight quote. *)
Definition url_pattern : regex :=
  Cat (Cls open_quote)
  (Cat (Grp (Cat WordB
            (lit (text_of "http")
            (Cat (Opt (chr 115))
            (lit (text_of "://")
            (Cat (Cls url_char) (Star true url_char)))))))
       (Cls close_quote)).

(** The pairs of category and URLs the loop of [read_docx_data] goes
    through, in the order of the document. *)
Definition category_blocks (full_text : text) : list (text * list text) :=
  (λ m, (strip (nth 0 m []), findall url_pattern (nth 1 m [])))
  <$> finditer pattern full_text.

(** [read_docx_data], from the texts of the paragraphs of the document. *)
Definition read_docx_data (paragraphs : list text) : gmap text (list text) :=
  let full_text := str_join [NL] paragraphs in
  foldl
    (λ data m,
       let category := strip (nth 0 m []) in
       let array_text := nth 1 m [] in
       let urls := findall url_pattern array_text in
       match urls with
       | [] => data
       | _ => <[category := urls]> data
       end)
    ∅ (finditer pattern full_text).

(** Lines 63-70: every non-empty chunk is written to the buffer. *)
Definition gather_chunks (chunks : list (list byte)) : list byte :=
  foldl (λ buffer chunk,
           match chunk with [] => buffer | _ => buffer ++ chunk end)
        [] chunks.

(** The log record a call of [download_and_compress_image] ends with. *)
Inductive outcome :=
| Saved
| Failed (e : exn).

Section Program.
Context `{Codec}.
(** [requests.get(url, stream=True)] followed by [raise_for_status]: the
    chunks of the body, or a failure. *)
Variable http_get : string → option (list (list byte)).
Variable TARGET_FORMAT : string.

(** Lines 59-71: the chunks are gathered in a buffer. *)
Definition fetch (url : string) : M (list byte) :=
  match http_get url with
  | None => raise RequestException
  | Some chunks => ret (gather_chunks chunks)
  end.

Definition download_and_compress_image (url : string) (save_path : path)
  : M outcome :=
  try_except
    (buffer ← fetch url;
     img ← Image_open_bytes buffer;
     _ ← (if bool_decide (PyStr.lower TARGET_FORMAT = "webp") then
            Image_save img save_path "WEBP" (SaveKwargs (Some 95%Z) None)
          else if bool_decide (PyStr.lower TARGET_FORMAT = "png") then
            Image_save img save_path "PNG" (SaveKwargs None (Some true))
          else raise (ValueError "Unsupported TARGET_FORMAT"));
     ret Saved)
    (λ e, ret (Failed e)).

End Program.
End WithLinks.

(** ** Conditions on a run *)
Section Conditions.
Import WithSource.
Context `{Codec} (cfg : Config).

(** [Image.open] and [img.save] accept the file [f] found at [src]. *)
Definition converts (src : path) (f : file) : Prop :=
  ∃ img, decode (data f) = Some img
         ∧ ∀ fmt ext, resolve_format cfg src = Ok (fmt, ext) →
             ∃ bs, encode img fmt
                     (save_params cfg fmt (Z.of_nat (length (data f))))
                   = Encoded bs.

(** No regular file stands at the directory [d] or above it: what
    [os.makedirs(d, exist_ok=True)] needs to make [d]. *)
Definition dir_makeable (s : store) (d : path) : Prop :=
  d ≠ [] ∧ ∀ q, q ∈ ancestors d → s !! q = None.

(** Below [root] the store has neither a file nor a directory. *)
Definition nothing_below (s : store) (root : path) : Prop :=
  ∀ p, under root p → s !! p = None ∧ p ∉ dirs s.

Variable s : store.

(** What holds between two turns of the loop of [main], [done] being the
    files processed so far: the source tree is as at the start; the files at
    and below the output root are the destinations of [done]; the
    directories are those of the start and those leading to the
    destinations of [done]; each destination is no larger than its source,
    and is its source when that is not an image. *)
Definition loop_inv (st : store) (done : list path) : Prop :=
  (∀ p, under SOURCE_DIR p → st !! p = s !! p)
  ∧ (∀ p : path, OUTPUT_DIR `prefix_of` p →
       (is_Some (st !! p) ↔ p ∈ dest_path cfg <$> done))
  ∧ (∀ d, d ∈ dirs st ↔
       d ∈ dirs s
       ∨ ∃ src, src ∈ done ∧ d ∈ ancestors (dirname (dest_path cfg src)))
  ∧ (∀ src f, src ∈ done → s !! src = Some f →
       ∃ g, st !! dest_path cfg src = Some g
            ∧ (length (data g) ≤ length (data f))%nat
            ∧ (is_image src = false → g = f)).

End Conditions.

(** ** Sample codecs and stores

    Small instances of the parameters, on which the programs can be run. *)
Module Samples.
Import WithSource.

(** Files that start with the byte [x89] decode; the image is the list of
    bytes. *)
Definition magic_decode (bs : list byte) : option (list byte) :=
  match bs with
  | x89 :: _ => Some bs
  | _ => None
  end.

(** Re-encoding halves the file. *)
Definition halving_codec : Codec := {|
  image := list byte;
  decode := magic_decode;
  encode img _ _ := Encoded (take (length img / 2) img);
  now := 1000;
  dir_size := 4096;
|}.

(** Re-encoding adds a byte. *)
Definition padding_codec : Codec := {|
  image := list byte;
  decode := magic_decode;
  encode img _ _ := Encoded (img ++ [x00]);
  now := 1000;
  dir_size := 4096;
|}.

(** Encoding fails after the target file has been created. *)
Definition failing_codec : Codec := {|
  image := list byte;
  decode := magic_decode;
  encode _ _ _ := EncodeError (Some []);
  now := 1000;
  dir_size := 4096;
|}.

Definition png4 : file := File [x89; x50; x4e; x47] 10.
Definition text1 : file := File [x68; x69] 20.

Definition src_png : path := ["sourceImages"; "a"; "pic.png"].
Definition out_png : path := ["compressedImages"; "a"; "pic.png"].
Definition tmp_png : path := ["compressedImages"; "a"; "pic.png.tmp"].

(** A store from the list of its files and the list of its directories. *)
Definition tree (fs : list (path * file)) (ds : list path) : store :=
  Store (list_to_map fs) (list_to_set ds).

Definition one_png : store :=
  tree [(src_png, png4)] [["sourceImages"]; ["sourceImages"; "a"]].

(** A text file that carries the name of an image. *)
Definition fake_png : store :=
  tree [(["sourceImages"; "notes.png"], text1)] [["sourceImages"]].

Definition mixed_tree : store :=
  tree [(src_png, png4);
        (["sourceImages"; "readme.txt"], text1);
        (["sourceImages"; "b"; "IMG.JPG"], png4)]
       [["sourceImages"]; ["sourceImages"; "a"]; ["sourceImages"; "b"]].

(** Two images whose names differ in the case of the extension only. *)
Definition case_clash : store :=
  tree [(["sourceImages"; "a.JPG"], png4);
        (["sourceImages"; "a.jpg"], File [x89; x00; x00; x00; x00; x00] 30)]
       [["sourceImages"]].

(** An image and a file that has the name of its temporary file. *)
Definition temp_clash : store :=
  tree [(["sourceImages"; "a.png"], png4);
        (["sourceImages"; "a.png.tmp"], text1)]
       [["sourceImages"]].

(** An image whose destination name is the name of a directory beside
    it. *)
Definition blocked_tree : store :=
  tree [(["sourceImages"; "x.PNG"], png4);
        (["sourceImages"; "x.png"; "y.txt"], text1)]
       [["sourceImages"]; ["sourceImages"; "x.png"]].

(** The image of [one_png], and an empty directory where its destination
    is. *)
Definition dir_at_dest : store :=
  tree [(src_png, png4)]
       [["sourceImages"]; ["sourceImages"; "a"];
        ["compressedImages"]; ["compressedImages"; "a"]; out_png].

(** A text file, and an empty directory where its destination is. *)
Definition dir_at_copy : store :=
  tree [(["sourceImages"; "readme.txt"], text1)]
       [["sourceImages"]; ["compressedImages"];
        ["compressedImages"; "readme.txt"]].

(** A target format that holds a dot; the script takes any string. *)
Definition dotted_config : Config := {|
  TARGET_FORMAT := Some "x.jpg";
  QUALITY := 85;
  THRESHOLD := THRESHOLD source_config;
  AGGRESSIVE_DROP := 20;
|}.

(** An image, a directory beside it that has the name of the image's
    destination under [dotted_config] and holds a text file named as an
    image, and a directory of that name in the output tree. *)
Definition nested_names : store :=
  tree [(["sourceImages"; "a.x.jpg"], png4);
        (["sourceImages"; "a.x.x.jpg"; "a.png"], text1)]
       [["sourceImages"]; ["sourceImages"; "a.x.x.jpg"];
        ["compressedImages"]; ["compressedImages"; "a.x.x.jpg"]].

(** The image of [one_png], and a file that was at its destination
    before. *)
Definition old_output : store :=
  tree [(src_png, png4); (out_png, text1)]
       [["sourceImages"]; ["sourceImages"; "a"];
        ["compressedImages"]; ["compressedImages"; "a"]].

End Samples.

Module LinkSamples.

(** One address answers with three chunks, the second of them empty. *)
Definition sample_get (url : string) : option (list (list byte)) :=
  if decide (url = "https://a/1.jpg") then Some [[x89]; []; [x50]] else None.

Definition save_path : path := ["images4"; "Cats"; "image_1.webp"].

(** The folders that [main] has made when the first image of Cats is
    saved. *)
Definition cats_folder : store :=
  Store ∅ (list_to_set [["images4"]; ["images4"; "Cats"]]).

End LinkSamples.

(** ** Documents made of category blocks *)
Module DocShape.
Import Re WithLinks.

(** A quoted URL of an array: the two quote characters, the scheme, and what
    follows the scheme. *)
Record quoted_url := QuotedUrl {
  q_open : N;
  q_https : bool;
  q_rest : text;
  q_close : N;
}.

Definition scheme (u : quoted_url) : text :=
  if q_https u then text_of "https://" else text_of "http://".

Definition url_of (u : quoted_url) : text := scheme u ++ q_rest u.

Definition render_item (u : quoted_url) : text :=
  q_open u :: url_of u ++ [q_close u].

(** A category line and its array: the text after the opening bracket, and
    the quoted URLs, each with the text that follows it. *)
Record block := Block {
  b_name : text;
  b_lead : text;
  b_items : list (quoted_url * text);
}.

Definition render_items (items : list (quoted_url * text)) : text :=
  concat ((λ it, render_item it.1 ++ it.2) <$> items).

Definition array_body (b : block) : text := b_lead b ++ render_items (b_items b).

Definition array_text (b : block) : text :=
  LBRACKET :: array_body b ++ [RBRACKET].

Definition urls_of (b : block) : list text := url_of <$> (b_items b).*1.

(** The paragraphs of a document of blocks: each category line is followed by
    its array. *)
Definition paragraphs_of (bs : list block) : list text :=
  concat ((λ b, [b_name b; array_text b]) <$> bs).

Definition no_open_quote (s : text) : Prop := Forall (λ c, open_quote c = false) s.

(** The URL is quoted with straight or curly quotes and holds no quote that
    would close it. *)
Definition wf_url (u : quoted_url) : Prop :=
  open_quote (q_open u) = true
  ∧ close_quote (q_close u) = true
  ∧ q_rest u ≠ []
  ∧ Forall (λ c, url_char c = true) (q_rest u).

(** A block as the docstring of [read_docx_data] expects it: a category line
    and an array of quoted URLs with nothing quoted between them. *)
Definition wf_block_spec (b : block) : Prop :=
  b_name b ≠ []
  ∧ Forall (λ c, not_newline c = true) (b_name b)
  ∧ no_open_quote (b_lead b)
  ∧ Forall (λ it, wf_url it.1 ∧ no_open_quote it.2) (b_items b).

(** Moreover no closing bracket stands inside the array. *)
Definition wf_block (b : block) : Prop :=
  wf_block_spec b ∧ RBRACKET ∉ array_body b.

Definition quote (s : string) : text := DQUOTE :: text_of s ++ [DQUOTE].

(** The scenario of the specification: Cats with two URLs, Dogs with an
    empty array. *)
Definition scenario : list text :=
  [ text_of "Cats";
    [LBRACKET] ++ quote "https://a/1.jpg" ++ text_of ", "
      ++ quote "https://a/2.jpg" ++ [RBRACKET];
    text_of "Dogs";
    [LBRACKET; RBRACKET] ].

(** A block whose one URL has an IPv6 host. *)
Definition ipv6_block : block :=
  Block (text_of "Cats") []
    [(QuotedUrl DQUOTE false (text_of "[::1]/a.jpg") DQUOTE, [])].

(** Cats, with a curly-quoted and a straight-quoted URL, and Dogs. *)
Definition two_blocks : list block :=
  [ Block (text_of "Cats ") [32%N]
      [(QuotedUrl LDQUOTE true (text_of "a/1.jpg") RDQUOTE, text_of ", ");
       (QuotedUrl DQUOTE false (text_of "b/2.png") DQUOTE, [32%N])];
    Block (text_of "Dogs") []
      [(QuotedUrl DQUOTE true (text_of "c/3.gif") DQUOTE, [])] ].

(** Cats twice: with one URL, and then with none. *)
Definition emptied_category : list text :=
  [ text_of "Cats"; [LBRACKET] ++ quote "https://a/1.jpg" ++ [RBRACKET];
    text_of "Cats"; [LBRACKET; RBRACKET] ].

(** Cats three times: with one URL, with another, and with none. *)
Definition repeated_category : list text :=
  [ text_of "Cats"; [LBRACKET] ++ quote "https://a/1.jpg" ++ [RBRACKET];
    text_of "Cats"; [LBRACKET] ++ quote "https://a/2.jpg" ++ [RBRACKET];
    text_of "Cats"; [LBRACKET; RBRACKET] ].

End DocShape.

(** ** The blocks that reach the mapping *)
Section Kept.
Import Re.

(** The block names the category [c] and has at least one URL. *)
Definition kept_for (c : text) (b : text * list text) : Prop :=
  b.1 = c ∧ b.2 ≠ [].

#[global] Instance kept_for_dec c b : Decision (kept_for c b).
Proof. unfold kept_for. apply _. Defined.

(** One turn of the loop of [read_docx_data] on a pair of category and
    URLs. *)
Definition add_block (data : gmap text (list text)) (b : text * list text)
  : gmap text (list text) :=
  match b.2 with
  | [] => data
  | _ => <[b.1 := b.2]> data
  end.

(** The character before the position once [w] has been passed. *)
Definition prev_after (pv : option N) (w : text) : option N :=
  match last w with
  | Some c => Some c
  | None => pv
  end.

End Kept.

From stdpp Require pretty.

(** ** What a computation may change *)
Section Frame.

(** From [s] to [st] the files outside [P] are as they were, no directory
    has gone, and the new directories are among [D]. *)
Definition reaches (P D : path → Prop) (s st : store) : Prop :=
  (∀ p, ¬ P p → st !! p = s !! p)
  ∧ dirs s ⊆ dirs st
  ∧ ∀ d, d ∈ dirs st → d ∈ dirs s ∨ D d.

(** Every store [m] passes through is reached in this way from the store it
    started in. *)
Definition touches (P D : path → Prop) {A} (m : M A) : Prop :=
  ∀ (s st : store), st ∈ (m s).1 → reaches P D s st.

End Frame.

(** ** withLinks/main.py, the loop over the URLs of a category

    Lines 107-111 of [main], for the folder of one category: the URLs are
    numbered from 1, and the image of the URL with number [idx] is saved in
    the folder under the name made of [image_], the number in decimal, a dot
    and the lower-cased target format. The name is one component of the path
    as long as the target format has no separator; the two formats that are
    saved have none. *)
Module LinksLoop.
Import WithLinks.

Section Program.
Context `{Codec}.
Variable http_get : string → option (list (list byte)).
Variable TARGET_FORMAT : string.

(** Line 109. *)
Definition filename (idx : nat) : string :=
  "image_" +:+ pretty.pretty idx +:+ "." +:+ PyStr.lower TARGET_FORMAT.

(** Lines 107-111: [for idx, url in enumerate(urls, start)]. *)
Fixpoint download_urls (category_folder : path) (start : nat)
    (urls : list string) : M unit :=
  match urls with
  | [] => ret tt
  | url :: urls' =>
      _ ← download_and_compress_image http_get TARGET_FORMAT url
            (join category_folder [filename start]);
      download_urls category_folder (S start) urls'
  end.

End Program.
End LinksLoop.
(** * Properties *)

(** ** Paths and names *)
Example splitext_upper : splitext "photo.JPG" = ("photo", ".JPG").
Proof. reflexivity. Qed.

Example splitext_hidden : splitext ".bashrc" = (".bashrc", EmptyString).
Proof. reflexivity. Qed.

Example splitext_last_dot : splitext "a.tar.gz" = ("a.tar", ".gz").
Proof. reflexivity. Qed.

Example splitext_leading_dots : splitext "..x.png" = ("..x", ".png").
Proof. reflexivity. Qed.

Example relpath_below :
  relpath ["sourceImages"; "a"; "b"] ["sourceImages"] = ["a"; "b"].
Proof. reflexivity. Qed.

Example relpath_root : relpath ["sourceImages"] ["sourceImages"] = [].
Proof. reflexivity. Qed.

Example lower_mixed : PyStr.lower ".JPeG" = ".jpeg".
Proof. reflexivity. Qed.

Example temp_path_example :
  add_suffix ["compressedImages"; "a"; "pic.png"] ".tmp"
  = ["compressedImages"; "a"; "pic.png.tmp"].
Proof. reflexivity. Qed.

Section PathFacts.

Lemma app_cons (c : ascii) (a b : string) :
  String c a +:+ b = String c (a +:+ b).
Proof. reflexivity. Qed.

Lemma app_empty_l (s : string) : EmptyString +:+ s = s.
Proof. reflexivity. Qed.

Lemma app_empty_r (s : string) : s +:+ EmptyString = s.
Proof. induction s as [|c s IH]; [done|]. by rewrite app_cons, IH. Qed.

Lemma split_last_dot_app s b e :
  split_last_dot s = Some (b, e) → b +:+ e = s.
Proof.
  revert b e. induction s as [|c s IH]; intros b e; simpl; [done|].
  destruct (split_last_dot s) as [[b' e']|].
  - intros [= <- <-]. rewrite app_cons. f_equal. by apply IH.
  - case_decide; [|done]. by intros [= <- <-].
Qed.

(** The two parts [os.path.splitext] returns make up the name. *)
Lemma splitext_app name : (splitext name).1 +:+ (splitext name).2 = name.
Proof.
  unfold splitext.
  destruct (split_last_dot name) as [[b e]|] eqn:E; simpl.
  - destruct (all_dots b); simpl; [apply app_empty_r|].
    by apply split_last_dot_app.
  - apply app_empty_r.
Qed.

Lemma string_app_length (a b : string) :
  String.length (a +:+ b) = String.length a + String.length b.
Proof.
  induction a as [|c a IH]; [done|]. rewrite app_cons. simpl. by rewrite IH.
Qed.

Lemma removelast_last_app (p : path) (x : string) : removelast (p ++ [x]) = p.
Proof. apply removelast_last. Qed.

Lemma removelast_last (p : path) : p ≠ [] → removelast p ++ [List.last p EmptyString] = p.
Proof. intros. symmetry. by apply app_removelast_last. Qed.

(** The temporary path differs from the path it is derived from. *)
Lemma add_suffix_ne (p : path) (suffix : string) :
  suffix ≠ EmptyString → add_suffix p suffix ≠ p.
Proof.
  intros Hs. unfold add_suffix. destruct p as [|x p]; [done|].
  intros E. rewrite <- (removelast_last (x :: p)) in E at 3 by done.
  apply app_inv_head in E. injection E as E.
  apply (f_equal String.length) in E. rewrite string_app_length in E.
  destruct suffix; [done|]. simpl in E. lia.
Qed.

Lemma add_suffix_cons (x : string) (p : path) (suffix : string) :
  p ≠ [] → add_suffix (x :: p) suffix = x :: add_suffix p suffix.
Proof. destruct p; [done|]. intros _. reflexivity. Qed.

Lemma add_suffix_snoc (p : path) (name suffix : string) :
  add_suffix (p ++ [name]) suffix = p ++ [name +:+ suffix].
Proof.
  unfold add_suffix. destruct (p ++ [name]) eqn:E.
  - by destruct p.
  - rewrite <- E. by rewrite removelast_last_app, last_last.
Qed.

End PathFacts.

(** ** Computations on the store *)
Section StoreFacts.

Lemma store_eq (s1 s2 : store) :
  files s1 = files s2 → dirs s1 = dirs s2 → s1 = s2.
Proof. destruct s1, s2. cbn. by intros -> ->. Qed.

Lemma store_insert_eq (s : store) (p : path) (f : file) :
  (<[p := f]> s) !! p = Some f.
Proof. apply (lookup_insert_eq (files s)). Qed.

Lemma store_insert_ne (s : store) (p q : path) (f : file) :
  p ≠ q → (<[p := f]> s) !! q = s !! q.
Proof. apply (lookup_insert_ne (files s)). Qed.

Lemma store_delete_eq (s : store) (p : path) : delete p s !! p = None.
Proof. apply (lookup_delete_eq (files s)). Qed.

Lemma store_delete_ne (s : store) (p q : path) :
  p ≠ q → delete p s !! q = s !! q.
Proof. apply (lookup_delete_ne (files s)). Qed.

Lemma store_delete_insert (s : store) (p : path) (f : file) :
  s !! p = None → delete p (<[p := f]> s) = s.
Proof.
  intros Hp. apply store_eq; [|done]. by apply (delete_insert_id (files s)).
Qed.

Lemma is_dir_true (s : store) (p : path) :
  is_dir s p = true ↔ p = [] ∨ p ∈ dirs s.
Proof. unfold is_dir. apply bool_decide_eq_true. Qed.

Lemma is_dir_false (s : store) (p : path) :
  is_dir s p = false ↔ p ≠ [] ∧ p ∉ dirs s.
Proof.
  unfold is_dir. rewrite bool_decide_eq_false. split.
  - intros Hn. split; intros ?; apply Hn; auto.
  - intros [H1 H2] [?|?]; auto.
Qed.

Lemma is_dir_dirs (s st : store) (p : path) :
  dirs st = dirs s → is_dir st p = is_dir s p.
Proof. unfold is_dir. by intros ->. Qed.

Lemma is_dir_mkdir (s : store) (d q : path) :
  is_dir (mkdir d s) q = bool_decide (q = d) || is_dir s q.
Proof.
  unfold is_dir, mkdir. cbn [dirs].
  apply eq_true_iff_eq. rewrite orb_true_iff, !bool_decide_eq_true.
  rewrite elem_of_union, elem_of_singleton. tauto.
Qed.

Lemma final_app (s : store) (tr tr' : list store) :
  final s (tr ++ tr') = final (final s tr) tr'.
Proof.
  unfold final. destruct tr' as [|x tr'] using rev_ind.
  - by rewrite app_nil_r.
  - by rewrite app_assoc, !last_last.
Qed.

Lemma final_cons (s x : store) (tr : list store) :
  final s (x :: tr) = final x tr.
Proof. change (x :: tr) with ([x] ++ tr). by rewrite final_app. Qed.

Lemma final_snoc (s x : store) (tr : list store) : final s (tr ++ [x]) = x.
Proof. unfold final. apply last_last. Qed.

Lemma final_elem (s : store) (tr : list store) :
  final s tr = s ∨ final s tr ∈ tr.
Proof.
  destruct tr as [|x tr _] using rev_ind; [by left|]. right.
  rewrite final_snoc. apply elem_of_app. right. left.
Qed.

Lemma final_write_stages (p : path) (bs : list byte) (t : Z) (s : store) :
  final s (write_stages p bs t s) = <[p := File bs t]> s.
Proof.
  unfold final, write_stages. rewrite seq_S, fmap_app. simpl.
  rewrite last_last. by rewrite firstn_all.
Qed.

(** While a file is being written, only its own path changes. *)
Lemma write_stages_other (p q : path) (bs : list byte) (t : Z) (s st : store) :
  st ∈ write_stages p bs t s → p ≠ q → st !! q = s !! q.
Proof.
  unfold write_stages. intros [n [-> _]]%list_elem_of_fmap Hne.
  by apply store_insert_ne.
Qed.

Lemma write_stages_dirs (p : path) (bs : list byte) (t : Z) (s st : store) :
  st ∈ write_stages p bs t s → dirs st = dirs s.
Proof. unfold write_stages. by intros [n [-> _]]%list_elem_of_fmap. Qed.

Lemma exec_bind {A B} (m : M A) (f : A → M B) (s : store) :
  exec (bind m f) s =
    match outcome_of m s with
    | Ok a => exec (f a) (exec m s)
    | Raise _ => exec m s
    end.
Proof.
  unfold exec, outcome_of, bind. destruct (m s) as [tr [a|e]]; [|done].
  cbn [fst snd].
  destruct (f a (final s tr)) as [tr' r]. cbn [fst snd].
  apply final_app.
Qed.

Lemma outcome_bind {A B} (m : M A) (f : A → M B) (s : store) :
  outcome_of (bind m f) s =
    match outcome_of m s with
    | Ok a => outcome_of (f a) (exec m s)
    | Raise e => Raise e
    end.
Proof.
  unfold exec, outcome_of, bind. destruct (m s) as [tr [a|e]]; [|done].
  cbn [fst snd]. by destruct (f a (final s tr)) as [tr' r].
Qed.

End StoreFacts.

(** ** Which files and directories a computation changes *)
Section FrameFacts.
Context `{Codec}.
Implicit Types (P D : path → Prop).

Lemma reaches_refl P D (s : store) : reaches P D s s.
Proof. split; [done|]. split; [done|]. by left. Qed.

Lemma reaches_trans P D (s1 s2 s3 : store) :
  reaches P D s1 s2 → reaches P D s2 s3 → reaches P D s1 s3.
Proof.
  intros (F1 & S1 & N1) (F2 & S2 & N2). split; [|split].
  - intros p Hp. by rewrite F2, F1.
  - set_solver.
  - intros d Hd. destruct (N2 d Hd) as [?|?]; [by apply N1|by right].
Qed.

Lemma reaches_mono P Q D E (s st : store) :
  (∀ p, P p → Q p) → (∀ d, D d → E d) → reaches P D s st → reaches Q E s st.
Proof.
  intros HPQ HDE (F & S & N). split; [|split; [done|]].
  - intros p Hp. apply F. auto.
  - intros d Hd. destruct (N d Hd); auto.
Qed.

Lemma reaches_final P D (s : store) (tr : list store) :
  (∀ st, st ∈ tr → reaches P D s st) → reaches P D s (final s tr).
Proof.
  intros Htr. destruct (final_elem s tr) as [->|Hin]; [apply reaches_refl|].
  by apply Htr.
Qed.

Lemma reaches_insert P D (s : store) (p : path) (f : file) :
  P p → reaches P D s (<[p := f]> s).
Proof.
  intros Hp. split; [|split; [done|by left]].
  intros q Hq. apply store_insert_ne. by intros ->.
Qed.

Lemma reaches_delete P D (s : store) (p : path) :
  P p → reaches P D s (delete p s).
Proof.
  intros Hp. split; [|split; [done|by left]].
  intros q Hq. apply store_delete_ne. by intros ->.
Qed.

Lemma reaches_mkdir P D (s : store) (d : path) :
  D d → reaches P D s (mkdir d s).
Proof.
  intros Hd. split; [done|]. unfold mkdir. cbn [dirs]. split; [set_solver|].
  intros q [->%elem_of_singleton|?]%elem_of_union; auto.
Qed.

Lemma touches_mono P Q D E {A} (m : M A) :
  (∀ p, P p → Q p) → (∀ d, D d → E d) → touches P D m → touches Q E m.
Proof. intros HPQ HDE Hm s st Hst. eapply reaches_mono; eauto. Qed.

Lemma touches_lift P D {A} (r : result A) : touches P D (lift r).
Proof. by intros s st ?%elem_of_nil. Qed.

Lemma touches_ret P D {A} (a : A) : touches P D (ret a).
Proof. by intros s st ?%elem_of_nil. Qed.

Lemma touches_raise P D {A} (e : exn) : touches P D (raise (A := A) e).
Proof. by intros s st ?%elem_of_nil. Qed.

Lemma touches_get P D : touches P D get.
Proof. by intros s st ?%elem_of_nil. Qed.

Lemma touches_step P D (f : store → store) :
  (∀ s, reaches P D s (f s)) → touches P D (step f).
Proof. intros Hf s st ->%list_elem_of_singleton. apply Hf. Qed.

Lemma touches_bind P D {A B} (m : M A) (f : A → M B) :
  touches P D m → (∀ a, touches P D (f a)) → touches P D (bind m f).
Proof.
  intros Hm Hf s st Hst. unfold bind in Hst.
  pose proof (Hm s) as Hms. destruct (m s) as [tr [a|e]]; cbn [fst] in *.
  - pose proof (Hf a (final s tr)) as Hfa.
    destruct (f a (final s tr)) as [tr' r]. cbn [fst] in *.
    apply elem_of_app in Hst as [Hst|Hst]; [by apply Hms|].
    eapply reaches_trans; [by apply reaches_final|by apply Hfa].
  - by apply Hms.
Qed.

Lemma touches_try P D {A} (m : M A) (h : exn → M A) :
  touches P D m → (∀ e, touches P D (h e)) → touches P D (try_except m h).
Proof.
  intros Hm Hh s st Hst. unfold try_except in Hst.
  pose proof (Hm s) as Hms. destruct (m s) as [tr [a|e]]; cbn [fst] in *.
  - by apply Hms.
  - pose proof (Hh e (final s tr)) as Hhe.
    destruct (h e (final s tr)) as [tr' r]. cbn [fst] in *.
    apply elem_of_app in Hst as [Hst|Hst]; [by apply Hms|].
    eapply reaches_trans; [by apply reaches_final|by apply Hhe].
Qed.

Lemma touches_for_each P D {A} (xs : list A) (body : A → M unit) :
  (∀ x, x ∈ xs → touches P D (body x)) → touches P D (for_each xs body).
Proof.
  induction xs as [|x xs IH]; intros Hbody; [apply touches_ret|].
  cbn [for_each]. apply touches_bind.
  - apply Hbody. left.
  - intros _. apply IH. intros y Hy. apply Hbody. by right.
Qed.

(** What holds of every store of the run holds of the last one. *)
Lemma touches_exec P D {A} (m : M A) (s : store) :
  touches P D m → reaches P D s (exec m s).
Proof. intros Hm. apply reaches_final. intros st Hst. by apply Hm. Qed.

Lemma touches_stages P D (q : path) (bs : list byte) (t : Z) :
  P q → touches P D (stages (write_stages q bs t)).
Proof.
  intros Hq s st Hst. unfold stages in Hst. cbn [fst] in Hst.
  apply list_elem_of_fmap in Hst as [n [-> _]]. by apply reaches_insert.
Qed.

Lemma touches_getsize P D (z : Z) (q : path) : touches P D (os_path_getsize z q).
Proof.
  apply touches_bind; [apply touches_get|].
  intros s. destruct (s !! q); [apply touches_ret|].
  destruct (is_dir s q); [apply touches_ret|apply touches_raise].
Qed.

Lemma touches_mkdirs P D (ds : list path) (name : path) (dot : bool) :
  (∀ d, d ∈ ds → D d) → touches P D (mkdirs ds name dot).
Proof.
  induction ds as [|d ds IH]; intros HD; [apply touches_ret|].
  cbn [mkdirs]. apply touches_bind; [apply touches_get|].
  intros s. destruct (s !! d); [apply touches_raise|].
  apply touches_bind.
  - destruct (is_dir s d); [apply touches_ret|].
    apply touches_step. intros s0. apply reaches_mkdir, HD. left.
  - intros _. apply IH. intros q Hq. apply HD. by right.
Qed.

Lemma touches_makedirs P D (d : path) (dot : bool) :
  (∀ q, q ∈ ancestors d → D q) → touches P D (os_makedirs d dot).
Proof.
  intros HD. unfold os_makedirs. case_decide; [apply touches_raise|].
  by apply touches_mkdirs.
Qed.

Lemma touches_replace P D (a b : path) :
  P a → P b → touches P D (os_replace a b).
Proof.
  intros Ha Hb. apply touches_bind; [apply touches_get|].
  intros s. destruct (s !! a); [|apply touches_raise].
  destruct (open_error s b); [apply touches_raise|].
  apply touches_step. intros s0.
  apply (reaches_trans _ _ _ (delete a s0));
    [by apply reaches_delete|by apply reaches_insert].
Qed.

Lemma touches_remove P D (a : path) : P a → touches P D (os_remove a).
Proof.
  intros Ha. apply touches_bind; [apply touches_get|].
  intros s. destruct (s !! a); [|apply touches_raise].
  apply touches_step. intros s0. by apply reaches_delete.
Qed.

Lemma touches_copy2 P D (t : Z) (a b : path) :
  P b → P (b ++ [basename a]) → touches P D (shutil_copy2 t a b).
Proof.
  intros Hb Hin. apply touches_bind; [apply touches_get|].
  intros s. cbv zeta.
  assert (P (if is_dir s b then b ++ [basename a] else b)) as Ht
    by (by destruct (is_dir s b)).
  destruct (s !! a) as [f|]; [|apply touches_raise].
  case_decide; [apply touches_raise|].
  destruct (open_error s _); [apply touches_raise|].
  intros s0 st Hst. unfold stages in Hst. cbn [fst] in Hst.
  apply elem_of_app in Hst as [Hst|Hst%list_elem_of_singleton].
  - apply list_elem_of_fmap in Hst as [n [-> _]]. by apply reaches_insert.
  - subst st. by apply reaches_insert.
Qed.

Lemma touches_Image_open P D (q : path) : touches P D (Image_open q).
Proof.
  apply touches_bind; [apply touches_get|].
  intros s. destruct (s !! q) as [f|]; [|apply touches_raise].
  destruct (decode (data f)); [apply touches_ret|apply touches_raise].
Qed.

Lemma touches_Image_save P D (img : image) (q : path) (fmt : string)
    (kw : save_kwargs) :
  P q → touches P D (Image_save img q fmt kw).
Proof.
  intros Hq. unfold Image_save.
  destruct (encode img fmt kw) as [bs|[part|]].
  - by apply touches_stages.
  - apply touches_bind; [apply touches_get|]. intros s.
    apply touches_bind; [by apply touches_stages|]. intros _.
    apply touches_bind; [|intros _; apply touches_raise].
    destruct (exists_at s q); [apply touches_ret|].
    apply touches_step. intros s0. by apply reaches_delete.
  - apply touches_raise.
Qed.

End FrameFacts.

(** ** The primitives, run *)
Section Primitives.
Context `{Codec}.

Lemma bind_ok {A B} (m : M A) (f : A → M B) (s : store)
    (tr : list store) (a : A) (tr' : list store) (r : result B) :
  m s = (tr, Ok a) → f a (final s tr) = (tr', r) →
  bind m f s = (tr ++ tr', r).
Proof. unfold bind. by intros -> ->. Qed.

Lemma bind_run {A B} (m : M A) (f : A → M B) (s : store)
    (tr : list store) (a : A) :
  m s = (tr, Ok a) →
  bind m f s = (tr ++ (f a (final s tr)).1, (f a (final s tr)).2).
Proof. unfold bind. intros ->. by destruct (f a (final s tr)). Qed.

Lemma bind_raise {A B} (m : M A) (f : A → M B) (s : store)
    (tr : list store) (e : exn) :
  m s = (tr, Raise e) → bind m f s = (tr, Raise e).
Proof. unfold bind. by intros ->. Qed.

Lemma bind_get {B} (k : store → M B) (s : store) : bind get k s = k s s.
Proof. unfold bind, get. cbn [final List.last]. by destruct (k s s). Qed.

Lemma bind_ret {A B} (a : A) (k : A → M B) (s : store) :
  bind (ret a) k s = k a s.
Proof. unfold bind, ret. cbn [final List.last]. by destruct (k a s). Qed.

Lemma bind_step {B} (f : store → store) (k : unit → M B) (s : store) :
  bind (step f) k s = ((f s :: (k tt (f s)).1), (k tt (f s)).2).
Proof. unfold bind, step. cbn [final List.last]. by destruct (k tt (f s)). Qed.

Lemma reaches_files (D : path → Prop) (s st : store) :
  reaches (λ _, False) D s st → files st = files s.
Proof. intros [F _]. apply map_eq. intros p. exact (F p (λ x, x)). Qed.

Lemma reaches_is_dir (P D : path → Prop) (s st : store) (d : path) :
  reaches P D s st → is_dir s d = true → is_dir st d = true.
Proof.
  intros (_ & S & _). rewrite !is_dir_true. intros [?|?]; [by left|right].
  by apply S.
Qed.

Lemma reaches_not_dir (P D : path → Prop) (s st : store) (d : path) :
  reaches P D s st → ¬ D d → is_dir st d = is_dir s d.
Proof.
  intros (_ & S & N) Hd. apply eq_true_iff_eq. rewrite !is_dir_true.
  split; intros [?|Hin]; auto. destruct (N d Hin); [auto|done].
Qed.

Lemma elem_of_ancestors (d q : path) :
  q ∈ ancestors d ↔ q ≠ [] ∧ q `prefix_of` d.
Proof.
  unfold ancestors. rewrite list_elem_of_fmap. split.
  - intros (n & -> & Hn%elem_of_seq). split.
    + destruct d; [simpl in Hn; lia|]. destruct n; [lia|done].
    + apply prefix_take.
  - intros [Hq [k ->]]. exists (length q). split.
    + by rewrite take_app_length.
    + apply elem_of_seq. rewrite length_app.
      destruct q; [done|]. simpl. lia.
Qed.

Lemma ancestors_self (d : path) : d ≠ [] → d ∈ ancestors d.
Proof. intros. by apply elem_of_ancestors. Qed.

Lemma ancestors_length (d q : path) :
  q ∈ ancestors d → (length q ≤ length d)%nat.
Proof. intros [_ Hp]%elem_of_ancestors. by apply prefix_length. Qed.

(** The [mkdir] calls go through when no regular file is on the way, and
    stop at the first one otherwise. *)
Lemma mkdirs_run (ds : list path) (name : path) (dot : bool) :
  ∀ s : store,
    (Forall (λ d, s !! d = None) ds
     ∧ ∃ tr, mkdirs ds name dot s = (tr, Ok tt)
             ∧ ∀ d, d ∈ ds → is_dir (final s tr) d = true)
    ∨ (Exists (λ d, is_Some (s !! d)) ds
       ∧ ∃ tr e, mkdirs ds name dot s = (tr, Raise e)
                 ∧ (e = FileExistsError ∨ e = NotADirectoryError)).
Proof.
  induction ds as [|d ds IH]; intros s.
  { left. split; [done|]. exists []. split; [done|]. by intros d ?%elem_of_nil. }
  cbn [mkdirs]. unfold mbind, M_bind. rewrite bind_get.
  destruct (s !! d) as [f|] eqn:Hd.
  { right. split; [apply Exists_cons_hd; by rewrite Hd|].
    eexists [], _. split; [reflexivity|].
    destruct (bool_decide (d = name) && negb dot); auto. }
  set (s' := if is_dir s d then s else mkdir d s).
  assert (files s' = files s) as Hfiles by (subst s'; by destruct (is_dir s d)).
  assert (is_dir s' d = true) as Hdir.
  { subst s'. destruct (is_dir s d) eqn:E; [done|].
    by rewrite is_dir_mkdir, bool_decide_eq_true_2. }
  assert (∀ (tr : list store) (r : result unit),
            mkdirs ds name dot s' = (tr, r) →
            ∃ tr0, bind (if is_dir s d then ret tt else step (mkdir d))
                     (λ _, mkdirs ds name dot) s = (tr0, r)
                   ∧ final s tr0 = final s' tr) as Hrun.
  { intros tr r Hr. subst s'. destruct (is_dir s d).
    - rewrite bind_ret, Hr. by exists tr.
    - rewrite bind_step, Hr. cbn [fst snd]. exists (mkdir d s :: tr).
      split; [done|]. apply final_cons. }
  assert (∀ q, s' !! q = s !! q) as Hlook
    by (intros q; unfold lookup, store_lookup; by rewrite Hfiles).
  destruct (IH s') as [[Hall (tr & Hr & Hdirs)]|[Hex (tr & e & Hr & He)]].
  - left. split.
    { constructor; [done|]. eapply Forall_impl; [exact Hall|].
      intros q Hq. by rewrite <- Hlook. }
    destruct (Hrun _ _ Hr) as (tr0 & Hr0 & Hfin). exists tr0.
    split; [done|]. rewrite Hfin. intros q [->|Hq]%elem_of_cons; [|by apply Hdirs].
    eapply (reaches_is_dir (λ _, False) (λ _, True)); [|exact Hdir].
    apply reaches_final. intros st Hst.
    eapply (touches_mkdirs _ _ ds name dot); [done|]. by rewrite Hr.
  - right. split.
    { apply Exists_cons_tl. eapply Exists_impl; [exact Hex|].
      intros q Hq. by rewrite <- Hlook. }
    destruct (Hrun _ _ Hr) as (tr0 & Hr0 & _). by exists tr0, e.
Qed.

Lemma dir_makeable_dec (s : store) (d : path) :
  dir_makeable s d ∨ d = []
  ∨ (d ≠ [] ∧ Exists (λ q, is_Some (s !! q)) (ancestors d)).
Proof.
  destruct (decide (d = [])) as [->|Hd]; [auto|].
  destruct (decide (Exists (λ q, is_Some (s !! q)) (ancestors d)))
    as [Hex|Hno]; [auto|].
  left. split; [done|]. intros q Hq.
  destruct (s !! q) eqn:E; [|done]. destruct Hno.
  apply Exists_exists. exists q. by rewrite E.
Qed.

(** [os.makedirs] on a path that can be made: it returns, the files are as
    before and the directory exists. *)
Lemma makedirs_ok (s : store) (d : path) (dot : bool) :
  dir_makeable s d →
  ∃ tr, os_makedirs d dot s = (tr, Ok tt)
        ∧ is_dir (final s tr) d = true
        ∧ files (final s tr) = files s.
Proof.
  intros [Hd Hfree]. unfold os_makedirs. rewrite decide_False by done.
  destruct (mkdirs_run (ancestors d) d dot s)
    as [[_ (tr & Hr & Hdirs)]|[Hex _]].
  - exists tr. split; [done|]. split; [by apply Hdirs, ancestors_self|].
    apply (reaches_files (λ _, True)), reaches_final. intros st Hst.
    eapply (touches_mkdirs _ _ (ancestors d) d dot); [done|]. by rewrite Hr.
  - apply Exists_exists in Hex as (q & Hq & [f Hf]).
    by rewrite (Hfree q Hq) in Hf.
Qed.


Lemma touches_makedirs_files (d : path) (dot : bool) (s st : store) :
  st ∈ (os_makedirs d dot s).1 → files st = files s.
Proof.
  intros Hst. apply (reaches_files (λ _, True)).
  by eapply (touches_makedirs _ _ d dot).
Qed.

Lemma getsize_run (z : Z) (p : path) (s : store) (f : file) :
  s !! p = Some f →
  os_path_getsize z p s = ([], Ok (Z.of_nat (length (data f)))).
Proof.
  intros Hp. unfold os_path_getsize, mbind, M_bind. rewrite bind_get.
  by rewrite Hp.
Qed.

Lemma Image_open_run (p : path) (s : store) (f : file) (img : image) :
  s !! p = Some f → decode (data f) = Some img →
  Image_open p s = ([], Ok img).
Proof.
  intros Hp Hd. unfold Image_open, mbind, M_bind. rewrite bind_get.
  by rewrite Hp, Hd.
Qed.


Lemma Image_open_bad (p : path) (s : store) (f : file) :
  s !! p = Some f → decode (data f) = None →
  Image_open p s = ([], Raise ImageError).
Proof.
  intros Hp Hd. unfold Image_open, mbind, M_bind. rewrite bind_get.
  by rewrite Hp, Hd.
Qed.

Lemma Image_save_run (img : image) (p : path) (fmt : string)
    (kw : save_kwargs) (s : store) (bs : list byte) :
  encode img fmt kw = Encoded bs →
  Image_save img p fmt kw s = (write_stages p bs now s, Ok tt).
Proof. intros He. unfold Image_save. by rewrite He. Qed.

(** What a failed [img.save] leaves: nothing when it fails before the file
    is opened; otherwise the part written, which is removed again when the
    call had created the file. *)
Lemma Image_save_fail (img : image) (p : path) (fmt : string)
    (kw : save_kwargs) (s : store) (left : option (list byte)) :
  encode img fmt kw = EncodeError left →
  Image_save img p fmt kw s =
    (match left with
     | Some part =>
         write_stages p part now s
         ++ (if exists_at s p then []
             else [delete p (<[p := File part now]> s)])
     | None => []
     end,
     Raise ImageError).
Proof.
  intros He. unfold Image_save. rewrite He. destruct left as [part|]; [|done].
  unfold mbind, M_bind. rewrite bind_get. unfold bind at 1, stages at 1.
  rewrite final_write_stages.
  destruct (exists_at s p).
  - rewrite bind_ret. unfold raise. by rewrite app_nil_r.
  - rewrite bind_step. unfold raise. done.
Qed.

Lemma os_replace_run (a b : path) (s : store) (f : file) :
  s !! a = Some f → open_error s b = None →
  os_replace a b s = ([<[b := f]> (delete a s)], Ok tt).
Proof.
  intros Ha Hb. unfold os_replace, mbind, M_bind. rewrite bind_get.
  by rewrite Ha, Hb.
Qed.

Lemma os_replace_fail (a b : path) (s : store) (f : file) (e : exn) :
  s !! a = Some f → open_error s b = Some e →
  os_replace a b s = ([], Raise e).
Proof.
  intros Ha Hb. unfold os_replace, mbind, M_bind. rewrite bind_get.
  by rewrite Ha, Hb.
Qed.

Lemma os_remove_run (a : path) (s : store) (f : file) :
  s !! a = Some f → os_remove a s = ([delete a s], Ok tt).
Proof.
  intros Ha. unfold os_remove, mbind, M_bind. rewrite bind_get.
  by rewrite Ha.
Qed.

(** [shutil.copy2] onto a path that is no directory. *)
Lemma copy2_run (t : Z) (a b : path) (s : store) (f : file) :
  s !! a = Some f → is_dir s b = false → a ≠ b → open_error s b = None →
  shutil_copy2 t a b s =
    (write_stages b (data f) t s ++ [<[b := f]> s], Ok tt).
Proof.
  intros Ha Hb Hne Ho. unfold shutil_copy2, mbind, M_bind. rewrite bind_get.
  cbv zeta. rewrite Hb, Ha, decide_False by done. by rewrite Ho.
Qed.

(** [shutil.copy2] onto a directory: the copy goes into it. *)
Lemma copy2_into (t : Z) (a b : path) (s : store) (f : file) :
  s !! a = Some f → is_dir s b = true → a ≠ b ++ [basename a] →
  open_error s (b ++ [basename a]) = None →
  shutil_copy2 t a b s =
    (write_stages (b ++ [basename a]) (data f) t s
       ++ [<[b ++ [basename a] := f]> s], Ok tt).
Proof.
  intros Ha Hb Hne Ho. unfold shutil_copy2, mbind, M_bind. rewrite bind_get.
  cbv zeta. rewrite Hb, Ha, decide_False by done. by rewrite Ho.
Qed.


Lemma final_copy2 (t : Z) (b : path) (s : store) (f : file) :
  final s (write_stages b (data f) t s ++ [<[b := f]> s]) = <[b := f]> s.
Proof. unfold final. by rewrite last_last. Qed.

End Primitives.


Ltac run_bind tac :=
  erewrite bind_run by (solve [tac]);
  cbn [fst snd final List.last app];
  rewrite ?final_write_stages, ?final_copy2, ?final_snoc.

Ltac run_done :=
  unfold ret; cbn [fst snd app]; rewrite ?app_nil_r; reflexivity.

Ltac run_raise tac :=
  erewrite bind_raise by (solve [tac]);
  cbn [fst snd final List.last app].

(** ** The runs of the encoder *)
Section PathLengths.

Lemma dirname_length (p : path) : length (dirname p) = pred (length p).
Proof.
  unfold dirname. rewrite removelast_firstn_len, length_take. lia.
Qed.

Lemma add_suffix_length (p : path) (x : string) :
  p ≠ [] → length (add_suffix p x) = length p.
Proof.
  intros Hp. unfold add_suffix. destruct p as [|y p]; [done|].
  pose proof (dirname_length (y :: p)) as E. unfold dirname in E.
  rewrite length_app, E. simpl. lia.
Qed.

Lemma dirname_snoc (p : path) (x : string) : dirname (p ++ [x]) = p.
Proof. apply removelast_last_app. Qed.

Lemma dirname_add_suffix (p : path) (x : string) :
  p ≠ [] → dirname (add_suffix p x) = dirname p.
Proof.
  intros Hp. unfold add_suffix. destruct p as [|y p]; [done|].
  apply dirname_snoc.
Qed.

Lemma longer_not_ancestor (d q : path) :
  (length d < length q)%nat → q ∉ ancestors d.
Proof. intros Hlt Hq%ancestors_length. lia. Qed.

Lemma prefix_take_removelast {A} (k : nat) (l : list A) :
  (k < length l)%nat → take k l `prefix_of` removelast l.
Proof.
  intros Hk. rewrite removelast_firstn_len.
  exists (drop k (take (pred (length l)) l)).
  rewrite <- (take_drop k (take (pred (length l)) l)) at 1.
  f_equal. rewrite take_take. f_equal. lia.
Qed.

Lemma dirname_nonempty (p : path) : dirname p ≠ [] → p ≠ [].
Proof. by intros Hd ->. Qed.

End PathLengths.

Section CompressRuns.
Import WithSource.
Context `{Codec} (cfg : Config).
Variables (input output : path) (s : store).

Lemma try_except_ok {A} (m : M A) (h : exn → M A) (st : store)
    (tr : list store) (a : A) :
  m st = (tr, Ok a) → try_except m h st = (tr, Ok a).
Proof. unfold try_except. by intros ->. Qed.

Lemma try_except_raise {A} (m : M A) (h : exn → M A) (st : store)
    (tr tr' : list store) (e : exn) (r : result A) :
  m st = (tr, Raise e) → h e (final st tr) = (tr', r) →
  try_except m h st = (tr ++ tr', r).
Proof. unfold try_except. by intros -> ->. Qed.

(** The handler only logs. *)
Lemma compress_failed (tr : list store) (e : exn) :
  compress_try cfg input output s = (tr, Raise e) →
  compress_image_file cfg input output s = (tr, Ok (Failed e)).
Proof.
  intros Ht. unfold compress_image_file.
  erewrite try_except_raise; [|exact Ht|reflexivity]. by rewrite app_nil_r.
Qed.

Lemma compress_returned (tr : list store) (o : outcome) :
  compress_try cfg input output s = (tr, Ok o) →
  compress_image_file cfg input output s = (tr, Ok o).
Proof. apply try_except_ok. Qed.


Variable f : file.
Hypothesis Hin : s !! input = Some f.

Lemma try_undecodable :
  decode (data f) = None →
  compress_try cfg input output s = ([], Raise ImageError).
Proof.
  intros Hdec. unfold compress_try, mbind, M_bind.
  erewrite bind_raise; [done|]. by eapply Image_open_bad.
Qed.

Variable img : image.
Hypothesis Hdec : decode (data f) = Some img.


Hypothesis Hmake : dir_makeable s (dirname output).

(** The stores of [os.makedirs] in line 49, and the store after it. *)
Let trm : list store := (os_makedirs (dirname output) false s).1.
Let s0 : store := final s trm.

Lemma makedirs_line49 :
  os_makedirs (dirname output) false s = (trm, Ok tt).
Proof.
  destruct (makedirs_ok s _ false Hmake) as (tr & Hr & _). subst trm.
  by rewrite Hr.
Qed.

Lemma s0_files : files s0 = files s.
Proof.
  destruct (makedirs_ok s _ false Hmake) as (tr & Hr & _ & Hf).
  subst s0 trm. by rewrite Hr.
Qed.

Lemma s0_lookup (p : path) : s0 !! p = s !! p.
Proof. unfold lookup, store_lookup. by rewrite s0_files. Qed.

Lemma s0_parent : is_dir s0 (dirname output) = true.
Proof.
  destruct (makedirs_ok s _ false Hmake) as (tr & Hr & Hd & _).
  subst s0 trm. by rewrite Hr.
Qed.

Lemma s0_reaches :
  reaches (λ _, False) (λ q, q ∈ ancestors (dirname output)) s s0.
Proof.
  subst s0 trm. apply reaches_final. intros st Hst.
  by eapply (touches_makedirs _ _ (dirname output) false).
Qed.

(** A path as long as the output is not made a directory. *)
Lemma s0_is_dir (q : path) :
  (length output ≤ length q)%nat → is_dir s0 q = is_dir s q.
Proof.
  intros Hlen. eapply reaches_not_dir; [apply s0_reaches|].
  apply longer_not_ancestor. rewrite dirname_length.
  destruct Hmake as [Hd _]. apply dirname_nonempty in Hd.
  destruct output; [done|]. simpl in *. lia.
Qed.

Lemma output_nonempty : output ≠ [].
Proof. destruct Hmake as [Hd _]. by apply dirname_nonempty. Qed.

Lemma parent_free : s !! dirname output = None.
Proof. destruct Hmake as [Hd Hfree]. by apply Hfree, ancestors_self. Qed.


Variables fmt ext : string.
Hypothesis Hfmt : resolve_format cfg input = Ok (fmt, ext).

Let temp : path := add_suffix output ".tmp".
Let kw : save_kwargs := save_params cfg fmt (Z.of_nat (length (data f))).


Variable bs : list byte.
Hypothesis Henc : encode img fmt kw = Encoded bs.
Hypothesis Htmp : input ≠ temp.

(** The store once the temporary file is complete. *)
Let s1 : store := <[temp := File bs now]> s0.

Lemma temp_not_output : temp ≠ output.
Proof. by apply add_suffix_ne. Qed.

Lemma s1_input : s1 !! input = Some f.
Proof. subst s1. rewrite store_insert_ne by done. by rewrite s0_lookup. Qed.

Lemma s1_is_dir (q : path) :
  (length output ≤ length q)%nat → is_dir s1 q = is_dir s q.
Proof. intros Hq. by rewrite <- (s0_is_dir q). Qed.

(** The output can be written when it is not a directory. *)
Lemma s1_open_output : is_dir s output = false → open_error s1 output = None.
Proof.
  intros Hd. unfold open_error. rewrite s1_is_dir, Hd by done.
  assert (s1 !! dirname output = None) as ->.
  { subst s1. rewrite store_insert_ne, s0_lookup; [apply parent_free|].
    intros E. apply (f_equal (@length string)) in E.
    rewrite dirname_length in E. subst temp.
    rewrite add_suffix_length in E by apply output_nonempty.
    pose proof output_nonempty. destruct output; [done|]. simpl in E. lia. }
  rewrite bool_decide_eq_false_2 by (by intros [? ?]).
  assert (is_dir s1 (dirname output) = true) as ->; [|done].
  change (is_dir s0 (dirname output) = true). apply s0_parent.
Qed.

Lemma s1_open_blocked :
  is_dir s output = true → open_error s1 output = Some IsADirectoryError.
Proof. intros Hd. unfold open_error. by rewrite s1_is_dir, Hd. Qed.

Lemma try_smaller :
  length bs < length (data f) → is_dir s output = false →
  compress_try cfg input output s =
    (trm ++ write_stages temp bs now s0
       ++ [<[output := File bs now]> (delete temp s1)],
     Ok (Compressed (Z.of_nat (length (data f))) (Z.of_nat (length bs)))).
Proof.
  intros Hlt Hd. unfold compress_try, mbind, M_bind.
  run_bind ltac:(by eapply Image_open_run).
  run_bind ltac:(apply makedirs_line49).
  run_bind ltac:(unfold lift; by rewrite Hfmt).
  run_bind ltac:(eapply getsize_run; rewrite s0_lookup; exact Hin).
  run_bind ltac:(by eapply Image_save_run).
  run_bind ltac:(eapply getsize_run; apply store_insert_eq).
  cbn [data]. rewrite (proj2 (Z.ltb_lt _ _)) by lia.
  run_bind ltac:(eapply os_replace_run;
                 [apply store_insert_eq|by apply s1_open_output]).
  run_done.
Qed.

(** The rename of line 85 fails on a directory; the temporary file
    stays. *)
Lemma try_rename_blocked :
  length bs < length (data f) → is_dir s output = true →
  compress_try cfg input output s =
    (trm ++ write_stages temp bs now s0, Raise IsADirectoryError).
Proof.
  intros Hlt Hd. unfold compress_try, mbind, M_bind.
  run_bind ltac:(by eapply Image_open_run).
  run_bind ltac:(apply makedirs_line49).
  run_bind ltac:(unfold lift; by rewrite Hfmt).
  run_bind ltac:(eapply getsize_run; rewrite s0_lookup; exact Hin).
  run_bind ltac:(by eapply Image_save_run).
  run_bind ltac:(eapply getsize_run; apply store_insert_eq).
  cbn [data]. rewrite (proj2 (Z.ltb_lt _ _)) by lia.
  run_raise ltac:(eapply os_replace_fail;
                  [apply store_insert_eq|by apply s1_open_blocked]).
  run_done.
Qed.

Lemma try_not_smaller :
  (length (data f) ≤ length bs)%nat → is_dir s output = false →
  input ≠ output →
  compress_try cfg input output s =
    (trm ++ write_stages temp bs now s0
       ++ (write_stages output (data f) now s1 ++ [<[output := f]> s1])
       ++ [delete temp (<[output := f]> s1)],
     Ok (KeptOriginal (Z.of_nat (length (data f))) (Z.of_nat (length bs)))).
Proof.
  intros Hge Hd Hio. unfold compress_try, mbind, M_bind.
  pose proof temp_not_output as Hto.
  run_bind ltac:(by eapply Image_open_run).
  run_bind ltac:(apply makedirs_line49).
  run_bind ltac:(unfold lift; by rewrite Hfmt).
  run_bind ltac:(eapply getsize_run; rewrite s0_lookup; exact Hin).
  run_bind ltac:(by eapply Image_save_run).
  run_bind ltac:(eapply getsize_run; apply store_insert_eq).
  cbn [data]. rewrite (proj2 (Z.ltb_ge _ _)) by lia.
  run_bind ltac:(eapply copy2_run;
                 [apply s1_input|by rewrite s1_is_dir|done
                 |by apply s1_open_output]).
  run_bind ltac:(eapply os_remove_run;
                 rewrite store_insert_ne by done; apply store_insert_eq).
  run_done.
Qed.








End CompressRuns.

Section CompressCases.
Import WithSource.
Context `{Codec} (cfg : Config).

Lemma dir_makeable_or_not (s : store) (d : path) :
  dir_makeable s d ∨ ¬ dir_makeable s d.
Proof.
  destruct (dir_makeable_dec s d) as [?|[->|[Hd Hex]]]; [by left|right..].
  - by intros [? _].
  - intros [_ Hfree]. apply Exists_exists in Hex as (q & Hq & [f Hf]).
    by rewrite (Hfree q Hq) in Hf.
Qed.


Lemma final_files (s : store) (tr : list store) :
  (∀ st, st ∈ tr → files st = files s) → files (final s tr) = files s.
Proof.
  intros Htr. destruct (final_elem s tr) as [->|Hin]; [done|by apply Htr].
Qed.


End CompressCases.

(** ** What the encoder may change *)
Section CompressFrame.
Import WithSource.
Context `{Codec} (cfg : Config).

Lemma makedirs_dirs (s : store) (d : path) (dot : bool) :
  dir_makeable s d →
  ∀ q, q ∈ dirs (exec (os_makedirs d dot) s) ↔ q ∈ dirs s ∨ q ∈ ancestors d.
Proof.
  intros [Hd Hfree] q. unfold exec, os_makedirs. rewrite decide_False by done.
  destruct (mkdirs_run (ancestors d) d dot s)
    as [[_ (tr & Hr & Hdirs)]|[Hex _]].
  - assert (reaches (λ _, False) (λ x, x ∈ ancestors d) s (final s tr))
      as (_ & Hsub & Hnew).
    { apply reaches_final. intros st Hst.
      apply (touches_mkdirs _ _ (ancestors d) d dot (λ _ Hx, Hx)).
      by rewrite Hr. }
    rewrite Hr. cbn [fst]. split; [apply Hnew|].
    intros [Hq|Hq]; [by apply Hsub|].
    pose proof (Hdirs q Hq) as [->|Hq']%is_dir_true; [|done].
    by apply elem_of_ancestors in Hq as [? _].
  - apply Exists_exists in Hex as (x & Hx & [f Hf]).
    by rewrite (Hfree x Hx) in Hf.
Qed.

Lemma makedirs_run (s : store) (d : path) (dot : bool) :
  dir_makeable s d →
  os_makedirs d dot s = ((os_makedirs d dot s).1, Ok tt).
Proof.
  intros Hm. destruct (makedirs_ok s d dot Hm) as (tr & Hr & _).
  by rewrite Hr.
Qed.

Lemma makedirs_files (s : store) (d : path) (dot : bool) (p : path) :
  exec (os_makedirs d dot) s !! p = s !! p.
Proof.
  unfold exec, lookup, store_lookup. rewrite final_files; [done|].
  intros st Hst. by eapply touches_makedirs_files.
Qed.

Lemma makeable_after (s : store) (d d' : path) (dot : bool) :
  dir_makeable s d' → dir_makeable (exec (os_makedirs d dot) s) d'.
Proof.
  intros [Hd Hfree]. split; [done|]. intros q Hq.
  rewrite makedirs_files. by apply Hfree.
Qed.

(** The encoder changes the output, its temporary file and the file of the
    input's name in the output, and makes the directories leading to the
    output. *)
Lemma compress_touches (input output : path) :
  touches (λ p, p = output ∨ p = add_suffix output ".tmp"
                ∨ p = output ++ [basename input])
          (λ d, d ∈ ancestors (dirname output))
          (compress_image_file cfg input output).
Proof.
  unfold compress_image_file.
  apply touches_try; [|intros e; apply touches_ret].
  unfold compress_try, mbind, M_bind.
  apply touches_bind; [apply touches_Image_open|intros img].
  apply touches_bind; [by apply touches_makedirs|intros _].
  apply touches_bind; [apply touches_lift|intros [fmt ext]].
  apply touches_bind; [apply touches_getsize|intros orig_size].
  apply touches_bind; [apply touches_Image_save; auto|intros _].
  apply touches_bind; [apply touches_getsize|intros comp_size].
  destruct (comp_size <? orig_size)%Z.
  - apply touches_bind; [apply touches_replace; auto|intros _].
    apply touches_ret.
  - apply touches_bind; [apply touches_copy2; auto|intros _].
    apply touches_bind; [apply touches_remove; auto|intros _].
    apply touches_ret.
Qed.

Lemma compress_returns (input output : path) (s : store) :
  ∃ o, outcome_of (compress_image_file cfg input output) s = Ok o.
Proof.
  unfold outcome_of, compress_image_file, try_except.
  destruct (compress_try cfg input output s) as [tr [o|e]]; by eexists.
Qed.

(** An image the walker finds always has a save format. *)
Lemma resolve_format_image (src : path) :
  is_image src = true → ∃ fe, resolve_format cfg src = Ok fe.
Proof.
  intros Himg%bool_decide_eq_true_1. unfold resolve_format.
  destruct (target cfg) as [t|]; [by eexists|].
  apply elem_of_list_to_set in Himg.
  repeat (apply elem_of_cons in Himg as [-> | Himg]; [by eexists|]).
  by apply elem_of_nil in Himg.
Qed.

(** What the encoder leaves when nothing fails: a destination no larger than
    the input, no temporary file, every other file as before, and the
    directories leading to the output. *)
Lemma compress_effect (input output : path) (st : store) (f : file) :
  st !! input = Some f →
  input ≠ add_suffix output ".tmp" → input ≠ output →
  is_image input = true → converts cfg input f →
  dir_makeable st (dirname output) → is_dir st output = false →
  ∃ tr o g,
    compress_image_file cfg input output st = (tr, Ok o)
    ∧ final st tr !! output = Some g
    ∧ (length (data g) ≤ length (data f))%nat
    ∧ final st tr !! add_suffix output ".tmp" = None
    ∧ (∀ p, p ≠ output → p ≠ add_suffix output ".tmp" →
         final st tr !! p = st !! p)
    ∧ dirs (final st tr) = dirs (exec (os_makedirs (dirname output) false) st).
Proof.
  intros Hin Htmp Hio Himg (img & Hdec & Henc) Hmake Hd.
  destruct (resolve_format_image _ Himg) as [[fmt ext] Hfmt].
  destruct (Henc _ _ Hfmt) as [bs Hbs].
  assert (add_suffix output ".tmp" ≠ output) as Hto by (by apply add_suffix_ne).
  pose proof (s0_lookup output st Hmake) as Hs0. unfold exec.
  destruct (decide (length bs < length (data f))%nat) as [Hlt|Hge].
  - eexists _, _, (File bs now).
    split; [by eapply compress_returned, try_smaller|].
    rewrite !app_assoc, final_snoc. split; [apply store_insert_eq|].
    split; [simpl; lia|].
    split; [by rewrite store_insert_ne, store_delete_eq|].
    split; [|done]. intros p Hpo Hpt.
    by rewrite store_insert_ne, store_delete_ne, store_insert_ne, Hs0.
  - eexists _, _, f.
    split; [eapply compress_returned, try_not_smaller; eauto; lia|].
    rewrite !app_assoc, final_snoc.
    split; [by rewrite store_delete_ne, store_insert_eq|].
    split; [done|]. split; [apply store_delete_eq|].
    split; [|done]. intros p Hpo Hpt.
    by rewrite store_delete_ne, store_insert_ne, store_insert_ne, Hs0.
Qed.

End CompressFrame.

(** ** The loop body of [main] *)
Section Walker.
Import WithSource.
Context `{Codec} (cfg : Config).

Lemma removelast_cons_app (x : string) (rel : path) :
  rel ≠ [] → removelast (x :: rel) = x :: removelast rel.
Proof. by destruct rel. Qed.

Lemma last_cons (x : string) (rel : path) :
  rel ≠ [] → List.last (x :: rel) EmptyString = List.last rel EmptyString.
Proof. by destruct rel. Qed.

Lemma relpath_source (d : path) : relpath (SOURCE_DIR ++ d) SOURCE_DIR = d.
Proof.
  unfold relpath, SOURCE_DIR. reflexivity.
Qed.

Lemma basename_source (rel : path) :
  rel ≠ [] → basename (SOURCE_DIR ++ rel) = List.last rel EmptyString.
Proof. intros. unfold basename, SOURCE_DIR. simpl (_ ++ _). by apply last_cons. Qed.

Lemma dirname_source (rel : path) :
  rel ≠ [] → dirname (SOURCE_DIR ++ rel) = SOURCE_DIR ++ removelast rel.
Proof.
  intros. unfold dirname, SOURCE_DIR. simpl (_ ++ _).
  by apply removelast_cons_app.
Qed.

(** Where a file below the source root goes: the same directories below the
    output root, the same base name, and the extension the loop chose. *)
Lemma dest_path_source (rel : path) :
  rel ≠ [] →
  dest_path cfg (SOURCE_DIR ++ rel) =
    OUTPUT_DIR ++ removelast rel ++
      [(splitext (List.last rel EmptyString)).1 +:+
       (if is_image (SOURCE_DIR ++ rel) then
          match target cfg with
          | Some t => "." +:+ PyStr.lower t
          | None => PyStr.lower (splitext (List.last rel EmptyString)).2
          end
        else (splitext (List.last rel EmptyString)).2)].
Proof.
  intros Hrel. unfold dest_path, is_image.
  rewrite dirname_source, relpath_source, basename_source by done.
  destruct (splitext (List.last rel EmptyString)) as [base ext]. cbn [fst snd].
  unfold join. by case_bool_decide.
Qed.

(** The directory that line 125 makes is the directory of the
    destination. *)
Lemma dest_dir_eq (src : path) :
  join OUTPUT_DIR (relpath (dirname src) SOURCE_DIR)
  = dirname (dest_path cfg src).
Proof.
  unfold dest_path. destruct (splitext (basename src)) as [base ext].
  unfold join. by case_bool_decide; rewrite dirname_snoc.
Qed.

Lemma dest_dir_source (rel : path) :
  rel ≠ [] →
  dirname (dest_path cfg (SOURCE_DIR ++ rel)) = OUTPUT_DIR ++ removelast rel.
Proof.
  intros Hrel. rewrite <- dest_dir_eq.
  by rewrite dirname_source, relpath_source.
Qed.

Lemma dest_path_nonempty (src : path) : dest_path cfg src ≠ [].
Proof.
  unfold dest_path. destruct (splitext (basename src)) as [base ext].
  unfold join. case_bool_decide; by intros [_ ?]%app_eq_nil.
Qed.

Lemma dest_dir_nonempty (src : path) : dirname (dest_path cfg src) ≠ [].
Proof. rewrite <- dest_dir_eq. discriminate. Qed.

(** The loop body makes the directory of the destination and hands [src]
    and [dest_path src] to the encoder or to [shutil.copy2]. *)
Lemma process_file_run (src : path) (s : store) :
  process_file cfg src s =
    bind (os_makedirs (dirname (dest_path cfg src))
            (bool_decide (relpath (dirname src) SOURCE_DIR = [])))
         (λ _, if is_image src then
                 bind (compress_image_file cfg src (dest_path cfg src))
                      (λ _, ret tt)
               else shutil_copy2 now src (dest_path cfg src)) s.
Proof.
  rewrite <- dest_dir_eq.
  unfold process_file, dest_path, is_image, mbind, M_bind.
  destruct (splitext (basename src)) as [base ext]. cbn [fst snd].
  by destruct (bool_decide (PyStr.lower ext ∈ IMAGE_EXTENSIONS)).
Qed.

Lemma dest_path_under_output (rel : path) :
  rel ≠ [] → ∃ q, q ≠ [] ∧ dest_path cfg (SOURCE_DIR ++ rel) = OUTPUT_DIR ++ q.
Proof.
  intros Hrel. rewrite dest_path_source by done.
  eexists. split; [|reflexivity]. by destruct (removelast rel).
Qed.

(** What one turn of the loop may change. *)
Lemma process_file_touches (src : path) :
  touches (λ p, p = dest_path cfg src
                ∨ p = add_suffix (dest_path cfg src) ".tmp"
                ∨ p = dest_path cfg src ++ [basename src])
          (λ d, d ∈ ancestors (dirname (dest_path cfg src)))
          (process_file cfg src).
Proof.
  intros s st. rewrite process_file_run. revert s st.
  apply touches_bind; [by apply touches_makedirs|intros _].
  destruct (is_image src).
  - apply touches_bind; [apply compress_touches|intros _; apply touches_ret].
  - apply touches_copy2; auto.
Qed.

End Walker.

(** ** The walk over a tree *)
Section Tree.
Import WithSource.
Context `{Codec} (cfg : Config).

Lemma elem_of_concat {A} (x : A) (ls : list (list A)) :
  x ∈ concat ls ↔ ∃ l, l ∈ ls ∧ x ∈ l.
Proof.
  induction ls as [|l ls IH]; cbn [concat].
  - split; [by intros ?%elem_of_nil|]. by intros (l & ?%elem_of_nil & _).
  - rewrite elem_of_app, IH. split.
    + intros [Hx|(l' & Hl' & Hx)]; [exists l|exists l']; split; try done;
        [left|by right].
    + intros (l' & [->|Hl']%elem_of_cons & Hx); [by left|right; by exists l'].
Qed.

Lemma NoDup_concat_fmap {A B} (f : A → list B) (l : list A) :
  NoDup l → (∀ x, x ∈ l → NoDup (f x)) →
  (∀ x y b, x ∈ l → y ∈ l → b ∈ f x → b ∈ f y → x = y) →
  NoDup (concat (f <$> l)).
Proof.
  induction l as [|a l IH]; intros Hnd Hf Hdisj; cbn [fmap list_fmap concat].
  { constructor. }
  apply NoDup_cons in Hnd as [Ha Hl]. apply NoDup_app.
  split; [apply Hf; left|]. split.
  - intros b Hb (lb & Hlb & Hb')%elem_of_concat.
    apply list_elem_of_fmap in Hlb as (y & -> & Hy).
    assert (a = y) as -> by (eapply Hdisj; [left|by right|done|done]).
    done.
  - apply IH; [done|intros; apply Hf; by right|].
    intros x y b Hx Hy. apply Hdisj; by right.
Qed.

Lemma elem_of_filenames (top : path) (s : store) (p : path) :
  p ∈ filenames top s ↔ p ≠ [] ∧ dirname p = top ∧ is_Some (s !! p).
Proof.
  unfold filenames. rewrite list_elem_of_filter, list_elem_of_fmap. split.
  - intros [[Hp Hd] [[q f] [-> Hq%elem_of_map_to_list]]].
    split; [done|]. split; [done|]. by exists f.
  - intros (Hp & Hd & [f Hf]). split; [done|]. exists (p, f).
    split; [done|]. by apply elem_of_map_to_list.
Qed.

Lemma elem_of_dirnames (top : path) (s : store) (d : path) :
  d ∈ dirnames top s ↔ d ≠ [] ∧ dirname d = top ∧ d ∈ dirs s.
Proof.
  unfold dirnames. rewrite list_elem_of_filter, elem_of_elements. tauto.
Qed.

Lemma child_path (top p : path) :
  p ≠ [] → dirname p = top → p = top ++ [basename p].
Proof. intros Hp <-. symmetry. by apply removelast_last. Qed.

(** The files a walk with [n] levels finds below [top]: those that lie at
    most [n] levels below it, every directory on the way being one of the
    store. *)
Lemma elem_of_walk (s : store) (n : nat) :
  ∀ top p,
    p ∈ walk n top s ↔
      ∃ rel, p = top ++ rel ∧ rel ≠ [] ∧ (length rel ≤ n)%nat
             ∧ is_Some (s !! p)
             ∧ ∀ k, (0 < k < length rel)%nat → top ++ take k rel ∈ dirs s.
Proof.
  induction n as [|n IH]; intros top p; cbn [walk].
  { split; [by intros ?%elem_of_nil|].
    intros (rel & _ & Hrel & Hlen & _). destruct rel; [done|simpl in Hlen; lia]. }
  rewrite elem_of_app, elem_of_filenames, elem_of_concat. split.
  - intros [(Hp & Hd & Hf)|(l & Hl & Hin)].
    + exists [basename p]. split; [by apply child_path|].
      split; [done|]. split; [simpl; lia|]. split; [done|].
      intros k Hk. simpl in Hk. lia.
    + apply list_elem_of_fmap in Hl as (d & -> & Hd).
      apply elem_of_dirnames in Hd as (Hd & Htop & Hdir).
      apply IH in Hin as (rel & -> & Hrel & Hlen & Hf & Hdirs).
      pose proof (child_path top d Hd Htop) as Ed.
      exists (basename d :: rel).
      split; [rewrite Ed at 1; by rewrite <- app_assoc|].
      split; [done|]. split; [simpl; lia|]. split; [done|].
      intros k Hk. destruct k as [|k]; [lia|]. cbn [take].
      destruct k as [|k].
      * rewrite take_0. by rewrite <- Ed.
      * replace (top ++ basename d :: take (S k) rel)
          with (d ++ take (S k) rel)
          by (rewrite Ed at 1; by rewrite <- app_assoc).
        apply Hdirs. simpl in Hk. lia.
  - intros (rel & -> & Hrel & Hlen & Hf & Hdirs).
    destruct rel as [|x rel]; [done|]. destruct rel as [|y rel].
    + left. split; [by intros [_ ?]%app_eq_nil|]. split; [apply dirname_snoc|done].
    + right. exists (walk n (top ++ [x]) s). split.
      * apply list_elem_of_fmap. exists (top ++ [x]). split; [done|].
        apply elem_of_dirnames. split; [by intros [? ?]%app_eq_nil|].
        split; [apply dirname_snoc|]. apply (Hdirs 1%nat). simpl. lia.
      * apply IH. exists (y :: rel).
        split; [by rewrite <- app_assoc|]. split; [done|].
        split; [simpl in *; lia|].
        split; [done|].
        intros k Hk. rewrite <- app_assoc. apply (Hdirs (S k)).
        simpl in *. lia.
Qed.

Lemma dir_length_depth (s : store) (d : path) :
  d ∈ dirs s → (length d < depth s)%nat.
Proof.
  intros Hd. unfold depth.
  assert (length d ∈ length <$> elements (dirs s)) as Hin.
  { apply list_elem_of_fmap. exists d. split; [done|]. by apply elem_of_elements. }
  apply max_list_elem_of_le in Hin. lia.
Qed.

(** [os.walk(root)] finds the files below [root] that are reached through
    directories; the bound on the levels never cuts the walk short. *)
Lemma elem_of_walk_files (root p : path) (s : store) :
  p ∈ walk_files root s ↔
    is_dir s root = true
    ∧ ∃ rel, p = root ++ rel ∧ rel ≠ [] ∧ is_Some (s !! p)
             ∧ ∀ k, (0 < k < length rel)%nat → root ++ take k rel ∈ dirs s.
Proof.
  unfold walk_files. destruct (is_dir s root).
  2:{ split; [by intros ?%elem_of_nil|]. by intros [? _]. }
  rewrite elem_of_walk. split.
  - intros (rel & ? & ? & _ & ? & ?). split; [done|]. by exists rel.
  - intros (_ & rel & -> & Hrel & Hf & Hdirs). exists rel.
    split; [done|]. split; [done|]. split; [|done].
    destruct (decide (length rel ≤ 1)%nat) as [?|Hlong].
    { unfold depth. lia. }
    pose proof (dir_length_depth s _ (Hdirs (pred (length rel)) ltac:(lia)))
      as Hlen.
    rewrite length_app, length_take in Hlen. lia.
Qed.

Lemma walk_files_under (root p : path) (s : store) :
  p ∈ walk_files root s → under root p ∧ is_Some (s !! p).
Proof.
  intros (_ & rel & -> & Hrel & Hf & _)%elem_of_walk_files.
  split; [|done]. split; [by apply prefix_app_r|].
  intros E. apply Hrel. apply (app_inv_head root). by rewrite app_nil_r.
Qed.

Lemma NoDup_walk (s : store) (n : nat) : ∀ top, NoDup (walk n top s).
Proof.
  induction n as [|n IH]; intros top; cbn [walk]; [constructor|].
  apply NoDup_app. split; [|split].
  - unfold filenames. apply NoDup_filter, NoDup_fst_map_to_list.
  - intros p (Hp & Hd & _)%elem_of_filenames (l & Hl & Hin)%elem_of_concat.
    apply list_elem_of_fmap in Hl as (d & -> & Hdn).
    apply elem_of_dirnames in Hdn as (Hdne & Htop & _).
    apply elem_of_walk in Hin as (rel & -> & Hrel & _).
    apply (f_equal (@length string)) in Hd. rewrite <- Htop in Hd.
    rewrite !dirname_length, length_app in Hd.
    destruct rel; [done|]. destruct d; [done|]. simpl in Hd. lia.
  - apply NoDup_concat_fmap.
    + unfold dirnames. apply NoDup_filter, NoDup_elements.
    + intros d _. apply IH.
    + intros x y b (Hx & Hxt & _)%elem_of_dirnames
        (Hy & Hyt & _)%elem_of_dirnames
        (r & -> & _)%elem_of_walk (r' & E & _)%elem_of_walk.
      apply app_inj_1 in E as [E _]; [done|].
      pose proof (dirname_length x) as Lx. pose proof (dirname_length y) as Ly.
      rewrite Hxt in Lx. rewrite Hyt in Ly.
      destruct x; [done|]. destruct y; [done|]. simpl in *. lia.
Qed.

Lemma NoDup_walk_files (root : path) (s : store) : NoDup (walk_files root s).
Proof.
  unfold walk_files. destruct (is_dir s root); [apply NoDup_walk|constructor].
Qed.

Lemma under_app (root q : path) : q ≠ [] → under root (root ++ q).
Proof.
  intros Hq. split; [by apply prefix_app_r|].
  intros E. apply Hq. apply (app_inv_head root). by rewrite app_nil_r.
Qed.

Lemma under_inv (root p : path) :
  under root p → ∃ rel, rel ≠ [] ∧ p = root ++ rel.
Proof.
  intros [[rel ->] Hne]. exists rel. split; [|done].
  intros ->. by rewrite app_nil_r in Hne.
Qed.

Lemma output_not_under_source (q : path) : ¬ under SOURCE_DIR (OUTPUT_DIR ++ q).
Proof. intros [[rel E] _]. discriminate E. Qed.

Lemma source_not_under_output (q : path) : ¬ under OUTPUT_DIR (SOURCE_DIR ++ q).
Proof. intros [[rel E] _]. discriminate E. Qed.

Lemma add_suffix_nonempty (q : path) (suffix : string) : add_suffix q suffix ≠ [].
Proof. unfold add_suffix. destruct q; [done|]. by destruct (removelast _). Qed.

Lemma add_suffix_output (q : path) (suffix : string) :
  q ≠ [] →
  add_suffix (OUTPUT_DIR ++ q) suffix = OUTPUT_DIR ++ add_suffix q suffix.
Proof. intros. by apply add_suffix_cons. Qed.

(** The calls of [main]: the source is neither the destination nor its
    temporary file. *)
Lemma walker_paths_apart (rel : path) :
  rel ≠ [] →
  SOURCE_DIR ++ rel ≠ dest_path cfg (SOURCE_DIR ++ rel)
  ∧ SOURCE_DIR ++ rel ≠ add_suffix (dest_path cfg (SOURCE_DIR ++ rel)) ".tmp".
Proof.
  intros Hrel.
  destruct (dest_path_under_output cfg rel Hrel) as (q & Hq & ->).
  rewrite add_suffix_output by done. split; discriminate.
Qed.

Lemma dest_not_own_ancestor (src : path) :
  dest_path cfg src ∉ ancestors (dirname (dest_path cfg src)).
Proof.
  apply longer_not_ancestor. rewrite dirname_length.
  pose proof (dest_path_nonempty cfg src). destruct (dest_path cfg src); [done|].
  simpl. lia.
Qed.

(** What one turn of the loop leaves for a file below the source root, when
    no file stands in the way of the directory of the destination and no
    directory stands at the destination. *)
Lemma process_file_effect (rel : path) (st : store) (f : file) :
  rel ≠ [] →
  st !! (SOURCE_DIR ++ rel) = Some f →
  (is_image (SOURCE_DIR ++ rel) = true → converts cfg (SOURCE_DIR ++ rel) f) →
  let src := SOURCE_DIR ++ rel in
  let dest := dest_path cfg src in
  dir_makeable st (dirname dest) → is_dir st dest = false →
  ∃ tr g,
    process_file cfg src st = (tr, Ok tt)
    ∧ final st tr !! dest = Some g
    ∧ (length (data g) ≤ length (data f))%nat
    ∧ (is_image src = false → g = f)
    ∧ (is_image src = true → final st tr !! add_suffix dest ".tmp" = None)
    ∧ (∀ p, p ≠ dest → (is_image src = true → p ≠ add_suffix dest ".tmp") →
         final st tr !! p = st !! p)
    ∧ (∀ d, d ∈ dirs (final st tr) ↔
         d ∈ dirs st ∨ d ∈ ancestors (dirname dest)).
Proof.
  intros Hrel Hin Hconv src dest Hmake Hd.
  destruct (walker_paths_apart rel Hrel) as [Hsd Hst].
  fold src dest in Hsd, Hst.
  rewrite process_file_run. fold dest.
  set (dot := bool_decide _).
  pose proof (makedirs_run st (dirname dest) dot Hmake) as Hrun0.
  pose proof (makedirs_dirs st (dirname dest) dot Hmake) as Hdirs0.
  pose proof (makedirs_files st (dirname dest) dot) as Hfiles0.
  pose proof (makeable_after st (dirname dest) (dirname dest) dot Hmake)
    as Hmake0.
  unfold exec in Hdirs0, Hfiles0, Hmake0.
  set (tr0 := (os_makedirs (dirname dest) dot st).1) in *.
  set (st0 := final st tr0) in *.
  assert (is_dir st0 dest = false) as Hd0.
  { apply is_dir_false in Hd as [Hne Hnd]. apply is_dir_false.
    split; [done|]. rewrite Hdirs0. intros [?|Ha]; [done|].
    by apply dest_not_own_ancestor in Ha. }
  destruct (is_image src) eqn:Himg.
  - destruct (compress_effect cfg src dest st0 f)
      as (tr & o & g & Hrun & Hg & Hle & Ht & Hp & Hdirs);
      [by rewrite Hfiles0|done|done|done|by apply Hconv|done|done|].
    exists (tr0 ++ tr), g. split.
    { erewrite bind_ok; [|exact Hrun0|].
      2:{ fold st0. erewrite bind_ok; [|exact Hrun|reflexivity].
          by rewrite app_nil_r. }
      done. }
    rewrite final_app. fold st0.
    split; [done|]. split; [done|]. split; [done|]. split; [done|]. split.
    + intros p ? Hpt. rewrite Hp, Hfiles0; [done|done|by apply Hpt].
    + intros d. rewrite Hdirs.
      rewrite (makedirs_dirs st0 (dirname dest) false Hmake0), Hdirs0. tauto.
  - assert (open_error st0 dest = None) as Hopen.
    { unfold open_error. rewrite Hd0.
      destruct Hmake as [Hne Hfree].
      rewrite bool_decide_eq_false_2.
      2:{ rewrite Hfiles0, (Hfree (dirname dest)) by (by apply ancestors_self).
          by intros []. }
      assert (is_dir st0 (dirname dest) = true) as ->; [|done].
      apply is_dir_true. right. apply Hdirs0. right. by apply ancestors_self. }
    exists (tr0 ++ write_stages dest (data f) now st0 ++ [<[dest := f]> st0]), f.
    split.
    { erewrite bind_ok; [|exact Hrun0|]; [done|]. fold st0.
      apply copy2_run; [by rewrite Hfiles0|done|done|done]. }
    rewrite final_app. fold st0. rewrite final_copy2.
    split; [apply store_insert_eq|]. split; [done|]. split; [done|].
    split; [done|]. split.
    + intros p ? _. by rewrite store_insert_ne, Hfiles0.
    + intros d. apply Hdirs0.
Qed.

End Tree.

(** ** The loop of [main] *)
Section Loop.
Import WithSource.
Context `{Codec} (cfg : Config).
Variables (s : store) (all : list path).

Hypothesis all_sources :
  ∀ src, src ∈ all →
    under SOURCE_DIR src
    ∧ ∃ f, s !! src = Some f ∧ (is_image src = true → converts cfg src f).
Hypothesis out_free : ∀ p : path, OUTPUT_DIR `prefix_of` p → s !! p = None.
Hypothesis out_no_dirs : ∀ p, under OUTPUT_DIR p → p ∉ dirs s.
Hypothesis dest_distinct : NoDup (dest_path cfg <$> all).
Hypothesis dest_apart :
  ∀ src src', src ∈ all → src' ∈ all →
    dest_path cfg src ∉ ancestors (dirname (dest_path cfg src')).
Hypothesis temp_free :
  ∀ src src', src ∈ all → src' ∈ all → is_image src = true →
    add_suffix (dest_path cfg src) ".tmp" ≠ dest_path cfg src'.

Lemma prefix_output (a r : path) :
  a ≠ [] → a `prefix_of` OUTPUT_DIR ++ r → OUTPUT_DIR `prefix_of` a.
Proof.
  intros Ha [k E]. destruct a as [|x a]; [done|].
  unfold OUTPUT_DIR in *. simpl in E. injection E as <- _. by exists a.
Qed.

Lemma loop_step (st : store) (done : list path) (src : path) (l : list path) :
  done ++ src :: l = all →
  loop_inv cfg s st done →
  ∃ tr, process_file cfg src st = (tr, Ok tt)
        ∧ loop_inv cfg s (final st tr) (done ++ [src]).
Proof.
  intros Hall (Hsrc & Hout & Hdirs & Hcont).
  assert (src ∈ all) as Hsa.
  { rewrite <- Hall. apply elem_of_app. right. left. }
  assert (∀ x, x ∈ done → x ∈ all) as Hda.
  { intros x Hx. rewrite <- Hall. apply elem_of_app. by left. }
  destruct (all_sources src Hsa) as [Hu (f & Hf & Hconv)].
  destruct (under_inv _ _ Hu) as (rel & Hrel & ->).
  destruct (dest_path_under_output cfg rel Hrel) as (q & Hq & Hdest).
  set (src := SOURCE_DIR ++ rel) in *.
  assert (dir_makeable st (dirname (dest_path cfg src))) as Hmake.
  { split; [apply dest_dir_nonempty|]. intros a Ha.
    destruct (st !! a) as [g|] eqn:E; [exfalso|done].
    pose proof Ha as [Hne Hpre]%elem_of_ancestors.
    unfold src in Hpre. rewrite dest_dir_source in Hpre by done.
    apply prefix_output in Hpre; [|done].
    assert (is_Some (st !! a)) as Hsome by (by exists g).
    apply Hout in Hsome as (x & -> & Hx)%list_elem_of_fmap; [|done].
    by apply (dest_apart x src (Hda x Hx) Hsa). }
  assert (is_dir st (dest_path cfg src) = false) as Hd.
  { apply is_dir_false. split; [apply dest_path_nonempty|].
    intros [Hin|(x & Hx & Ha)]%Hdirs.
    - apply (out_no_dirs (dest_path cfg src)); [|done].
      rewrite Hdest. by apply under_app.
    - by apply (dest_apart src x Hsa (Hda x Hx)). }
  destruct (process_file_effect cfg rel st f Hrel) as
    (tr & g & Hrun & Hg & Hle & Hgf & Ht & Hp & Hdirs');
    [by rewrite Hsrc|done|done|done|].
  fold src in Hrun, Hg, Hgf, Ht, Hp, Hdirs'.
  exists tr. split; [done|].
  assert (dest_path cfg src ∉ dest_path cfg <$> done) as Hfresh.
  { rewrite <- Hall, fmap_app, fmap_cons in dest_distinct.
    apply NoDup_app in dest_distinct as (_ & Hno & _).
    intros Hin. apply (Hno _ Hin). left. }
  assert (is_image src = true →
          add_suffix (dest_path cfg src) ".tmp" ∉ dest_path cfg <$> (done ++ [src]))
    as Htmpfresh.
  { intros Himg (x & E & Hx)%list_elem_of_fmap.
    apply (temp_free src x); [done| |done|done].
    apply elem_of_app in Hx as [Hx|Hx%list_elem_of_singleton]; [by apply Hda|].
    by subst. }
  split; [|split; [|split]].
  - intros p Hpu. rewrite Hp; [by apply Hsrc| |].
    + intros ->. rewrite Hdest in Hpu. by apply output_not_under_source in Hpu.
    + intros _ ->. rewrite Hdest, add_suffix_output in Hpu by done.
      by apply output_not_under_source in Hpu.
  - intros p Hpu. rewrite fmap_app, elem_of_app.
    destruct (decide (p = dest_path cfg src)) as [->|Hpd].
    { split; [intros _; right; simpl; left|by eauto]. }
    destruct (is_image src) eqn:Himg.
    + destruct (decide (p = add_suffix (dest_path cfg src) ".tmp")) as [->|Hpt].
      { rewrite Ht by done. split; [by intros []|].
        intros Hin. exfalso. apply (Htmpfresh eq_refl).
        by rewrite fmap_app, elem_of_app. }
      rewrite Hp by done. rewrite Hout by done.
      split; [by left|]. by intros [Hx|Hx%list_elem_of_singleton].
    + rewrite Hp by done. rewrite Hout by done.
      split; [by left|]. by intros [Hx|Hx%list_elem_of_singleton].
  - intros d. rewrite Hdirs', Hdirs. split.
    + intros [[?|(x & Hx & Ha)]|Ha]; [by left|right..].
      * exists x. split; [|done]. apply elem_of_app. by left.
      * exists src. split; [|done]. apply elem_of_app. right. left.
    + intros [?|(x & [Hx|Hx%list_elem_of_singleton]%elem_of_app & Ha)].
      * by left; left.
      * left. right. by exists x.
      * right. by subst x.
  - intros x fx [Hx|Hx%list_elem_of_singleton]%elem_of_app Hfx.
    2:{ subst x. rewrite Hf in Hfx. injection Hfx as <-. by exists g. }
    destruct (Hcont x fx Hx Hfx) as (gx & Hgx & Hlx & Hix).
    exists gx. split; [|done]. rewrite Hp; [done| |].
    + intros E. apply Hfresh. rewrite <- E. by apply list_elem_of_fmap_2.
    + intros Himg E. apply (Htmpfresh Himg). rewrite <- E.
      apply list_elem_of_fmap_2, elem_of_app. by left.
Qed.

Lemma loop_run (l : list path) :
  ∀ (done : list path) (st : store),
    done ++ l = all →
    loop_inv cfg s st done →
    ∃ tr, for_each l (process_file cfg) st = (tr, Ok tt)
          ∧ loop_inv cfg s (final st tr) all.
Proof.
  induction l as [|src l IH]; intros done st Hall Hinv.
  - exists []. split; [done|]. rewrite app_nil_r in Hall. by subst.
  - destruct (loop_step st done src l Hall Hinv) as (tr1 & Hrun1 & Hinv1).
    destruct (IH (done ++ [src]) (final st tr1)) as (tr2 & Hrun2 & Hinv2);
      [by rewrite <- app_assoc|done|].
    exists (tr1 ++ tr2). split.
    + simpl. by erewrite bind_ok.
    + by rewrite final_app.
Qed.

Lemma loop_start : loop_inv cfg s s [].
Proof.
  split; [done|]. split; [|split].
  - intros p Hp. rewrite out_free by done. cbn.
    split; [by intros []|by intros ?%elem_of_nil].
  - intros d. split; [by left|]. intros [?|(x & ?%elem_of_nil & _)]; done.
  - by intros src f ?%elem_of_nil.
Qed.

End Loop.

Section MainRun.
Import WithSource.
Context `{Codec} (cfg : Config).

(** [main] returns at once when the source root is not a directory or no
    file lies below it, and otherwise runs the loop over the files found. *)
Lemma main_run (s : store) :
  main cfg s =
    if bool_decide (walk_files SOURCE_DIR s = []) then ([], Ok tt)
    else for_each (walk_files SOURCE_DIR s) (process_file cfg) s.
Proof.
  assert (∀ root, os_path_isdir root s = ([], Ok (is_dir s root))) as Hisdir
    by reflexivity.
  assert (∀ root, gather_all_files root s = ([], Ok (walk_files root s)))
    as Hgather by reflexivity.
  unfold main, mbind, M_bind.
  erewrite bind_run by apply Hisdir. cbn [final List.last fst snd app].
  unfold walk_files at 1 2.
  destruct (is_dir s SOURCE_DIR) eqn:Hd; cbn [negb].
  2:{ by rewrite bool_decide_eq_true_2. }
  erewrite bind_run by apply Hgather. cbn [final List.last fst snd app].
  unfold walk_files. rewrite Hd.
  case_bool_decide; [done|]. by destruct (for_each _ _ s).
Qed.

Lemma main_touches_steps (P D : path → Prop) (s : store) :
  (∀ src, src ∈ walk_files SOURCE_DIR s → touches P D (process_file cfg src)) →
  ∀ st, st ∈ (main cfg s).1 → reaches P D s st.
Proof.
  intros Hsteps st. rewrite main_run. case_bool_decide.
  - by intros ?%elem_of_nil.
  - by apply touches_for_each.
Qed.

(** The destinations of the files of the walk are found by a walk of the
    output tree once the directories leading to them are there. *)
Lemma dest_in_output_walk (rel : path) (st : store) :
  rel ≠ [] →
  let dest := dest_path cfg (SOURCE_DIR ++ rel) in
  is_Some (st !! dest) →
  (∀ d, d ∈ ancestors (dirname dest) → d ∈ dirs st) →
  dest ∈ walk_files OUTPUT_DIR st.
Proof.
  intros Hrel dest Hf Hdirs.
  destruct (dest_path_under_output cfg rel Hrel) as (q & Hq & Hdest).
  fold dest in Hdest.
  assert (dirname dest = OUTPUT_DIR ++ removelast q) as Hdn.
  { rewrite Hdest. unfold dirname, OUTPUT_DIR. simpl (_ ++ _).
    by apply removelast_cons_app. }
  apply elem_of_walk_files. split.
  - apply is_dir_true. right. apply Hdirs, elem_of_ancestors.
    split; [done|]. rewrite Hdn. by apply prefix_app_r.
  - exists q. split; [done|]. split; [done|]. split; [done|].
    intros k Hk. apply Hdirs, elem_of_ancestors.
    split; [by intros [? _]%app_eq_nil|]. rewrite Hdn.
    apply prefix_app, prefix_take_removelast. lia.
Qed.

End MainRun.

(** ** The runs of the download *)
Section DownloadRuns.
Import WithLinks.
Context `{Codec}.
Variable http_get : string → option (list (list byte)).
Variable TARGET_FORMAT : string.

Lemma save_run_saved (img : image) (p : path) (fmt : string)
    (kw : save_kwargs) (s : store) :
  try_except (bind (Image_save img p fmt kw) (λ _, ret Saved))
             (λ e, ret (Failed e)) s
  = match encode img fmt kw with
    | Encoded bs => (write_stages p bs now s, Ok Saved)
    | EncodeError None => ([], Ok (Failed ImageError))
    | EncodeError (Some part) =>
        (write_stages p part now s
           ++ (if exists_at s p then []
               else [delete p (<[p := File part now]> s)]),
         Ok (Failed ImageError))
    end.
Proof.
  destruct (encode img fmt kw) as [bs|left] eqn:Henc.
  - apply try_except_ok. run_bind ltac:(by eapply Image_save_run). run_done.
  - pose proof (Image_save_fail img p fmt kw s left Henc) as Hfail.
    erewrite try_except_raise;
      [|erewrite bind_raise by exact Hfail; reflexivity|reflexivity].
    destruct left; by rewrite app_nil_r.
Qed.

(** The call, case by case. *)
Lemma download_run (url : string) (save_path : path) (s : store) :
  let save_run (r : encode_result) : list store * result outcome :=
    match r with
    | Encoded bs => (write_stages save_path bs now s, Ok Saved)
    | EncodeError None => ([], Ok (Failed ImageError))
    | EncodeError (Some part) =>
        (write_stages save_path part now s
           ++ (if exists_at s save_path then []
               else [delete save_path (<[save_path := File part now]> s)]),
         Ok (Failed ImageError))
    end in
  download_and_compress_image http_get TARGET_FORMAT url save_path s
  = match http_get url with
    | None => ([], Ok (Failed RequestException))
    | Some chunks =>
        match decode (gather_chunks chunks) with
        | None => ([], Ok (Failed ImageError))
        | Some img =>
            if bool_decide (PyStr.lower TARGET_FORMAT = "webp") then
              save_run (encode img "WEBP" (SaveKwargs (Some 95%Z) None))
            else if bool_decide (PyStr.lower TARGET_FORMAT = "png") then
              save_run (encode img "PNG" (SaveKwargs None (Some true)))
            else ([], Ok (Failed (ValueError "Unsupported TARGET_FORMAT")))
        end
    end.
Proof.
  intros save_run. subst save_run.
  unfold download_and_compress_image, mbind, M_bind, fetch.
  destruct (http_get url) as [chunks|]; [|done].
  unfold try_except at 1. unfold bind at 1. unfold ret at 1.
  cbn [final List.last]. unfold Image_open_bytes.
  destruct (decode (gather_chunks chunks)) as [img|]; [|done].
  unfold bind at 1. unfold ret at 1. cbn [final List.last app].
  do 2 (case_bool_decide;
        [rewrite <- save_run_saved; unfold try_except;
         by destruct (bind _ _ s) as [tr [o|e]]|]).
  done.
Qed.

Lemma download_returns (url : string) (save_path : path) (s : store) :
  ∃ o, outcome_of
         (download_and_compress_image http_get TARGET_FORMAT url save_path) s
       = Ok o.
Proof.
  unfold outcome_of, download_and_compress_image, try_except.
  match goal with
  | |- context [match ?m s with _ => _ end] => destruct (m s) as [tr [o|e]]
  end; by eexists.
Qed.

End DownloadRuns.
(** ** The matcher *)
Section MatcherFacts.
Import Re.
Context {A : Type}.
Implicit Types (k : mstate → option A) (p : N → bool) (s w : text)
  (pv : option N) (gs : list text).

Lemma prev_after_cons pv (c : N) w :
  prev_after pv (c :: w) = prev_after (Some c) w.
Proof.
  unfold prev_after. destruct w as [|d w]; [done|].
  change (last (c :: d :: w)) with (last (d :: w)).
  destruct (last (d :: w)) eqn:E; [done|]. by apply last_None in E.
Qed.

Lemma run_cat (r1 r2 : regex) k (st : mstate) :
  run (Cat r1 r2) k st = run r1 (run r2 k) st.
Proof. reflexivity. Qed.

Lemma run_cls p k pv (c : N) s gs :
  run (Cls p) k (MState pv (c :: s) gs)
  = if p c then k (MState (Some c) s gs) else None.
Proof. reflexivity. Qed.

Lemma run_cls_nil p k pv gs : run (Cls p) k (MState pv [] gs) = None.
Proof. reflexivity. Qed.

Lemma run_chr (c : N) k pv s gs :
  run (chr c) k (MState pv (c :: s) gs) = k (MState (Some c) s gs).
Proof. unfold chr. by rewrite run_cls, N.eqb_refl. Qed.

Lemma run_chr_ne (c d : N) k pv s gs :
  c ≠ d → run (chr c) k (MState pv (d :: s) gs) = None.
Proof.
  intros Hne. unfold chr. rewrite run_cls.
  by rewrite (proj2 (N.eqb_neq c d)).
Qed.

Lemma run_lit w (r : regex) k pv s gs :
  run (lit w r) k (MState pv (w ++ s) gs)
  = run r k (MState (prev_after pv w) s gs).
Proof.
  revert pv. induction w as [|c w IH]; intros pv; [done|].
  cbn [lit app]. rewrite run_cat, run_chr, IH. by rewrite prev_after_cons.
Qed.

Lemma run_opt (r : regex) k (st : mstate) :
  run (Opt r) k st
  = match run r k st with Some a => Some a | None => k st end.
Proof. reflexivity. Qed.

Lemma run_wordb k pv s gs :
  run WordB k (MState pv s gs)
  = if xorb (word_at pv) (word_at (head s)) then k (MState pv s gs) else None.
Proof. reflexivity. Qed.

Lemma run_bol k pv s gs :
  run Bol k (MState pv s gs)
  = match pv with
    | None => k (MState pv s gs)
    | Some c => if (c =? 10)%N then k (MState pv s gs) else None
    end.
Proof. reflexivity. Qed.

Lemma run_star_greedy p k (st : mstate) :
  run (Star true p) k st = star_greedy p k (prev st) (rest st) (groups st).
Proof. reflexivity. Qed.

Lemma run_star_lazy p k (st : mstate) :
  run (Star false p) k st = star_lazy p k (prev st) (rest st) (groups st).
Proof. reflexivity. Qed.

Lemma run_grp (r : regex) k (st : mstate) :
  run (Grp r) k st
  = run r (λ st', k (MState (prev st') (rest st')
                       (groups st'
                        ++ [take (length (rest st) - length (rest st'))
                              (rest st)])))
      st.
Proof. reflexivity. Qed.

(** A greedy repetition takes a whole run of the class when what follows
    can then be matched. *)
Lemma star_greedy_run p k pv (xs s : text) gs (a : A) :
  Forall (λ c, p c = true) xs →
  match s with c :: _ => p c = false | [] => True end →
  k (MState (prev_after pv xs) s gs) = Some a →
  star_greedy p k pv (xs ++ s) gs = Some a.
Proof.
  intros Hxs Hs. revert pv. induction Hxs as [|c xs Hc Hxs IH]; intros pv Hk.
  - cbn [app]. change (prev_after pv []) with pv in Hk.
    destruct s as [|c s]; [done|]. cbn [star_greedy]. by rewrite Hs.
  - cbn [app star_greedy]. rewrite Hc. rewrite prev_after_cons in Hk.
    by rewrite IH.
Qed.

(** A lazy repetition stops at the first position from which what follows
    can be matched. *)
Lemma star_lazy_run p k pv (xs s : text) gs (a : A) :
  Forall (λ c, p c = true
               ∧ ∀ pv' s', k (MState pv' (c :: s') gs) = None) xs →
  k (MState (prev_after pv xs) s gs) = Some a →
  star_lazy p k pv (xs ++ s) gs = Some a.
Proof.
  intros Hxs. revert pv. induction Hxs as [|c xs [Hc Hk] Hxs IH]; intros pv Ha.
  - cbn [app]. change (prev_after pv []) with pv in Ha.
    destruct s; cbn [star_lazy]; by rewrite Ha.
  - cbn [app star_lazy]. rewrite Hk, Hc. apply IH.
    by rewrite prev_after_cons in Ha.
Qed.

End MatcherFacts.

Section ScanFacts.
Import Re.
Implicit Types (r : regex) (s w : text) (pv : option N).

Lemma take_app_minus (a b : text) :
  take (length (a ++ b) - length b) (a ++ b) = a.
Proof.
  rewrite length_app. replace (length a + length b - length b) with (length a) by lia.
  by rewrite take_app_length.
Qed.

(** The characters of a match are passed without a new attempt. *)
Lemma scan_skip r pv w s :
  scan r pv (w ++ s) (length w) = scan r (prev_after pv w) s 0.
Proof.
  revert pv. induction w as [|c w IH]; intros pv; [done|].
  cbn [app length scan]. rewrite IH. by rewrite prev_after_cons.
Qed.

Lemma scan_no_match r pv (c : N) s :
  match_at r pv (c :: s) = None → scan r pv (c :: s) 0 = scan r (Some c) s 0.
Proof. intros Hm. cbn [scan]. by rewrite Hm. Qed.

Lemma scan_match r pv (c : N) w s (st : mstate) :
  match_at r pv ((c :: w) ++ s) = Some st → rest st = s →
  scan r pv ((c :: w) ++ s) 0
  = groups st :: scan r (prev_after pv (c :: w)) s 0.
Proof.
  intros Hm Hrest. cbn [scan app]. cbn [app] in Hm. rewrite Hm. f_equal.
  rewrite Hrest. cbn [length]. rewrite length_app.
  replace (S (length w + length s) - length s - 1) with (length w) by lia.
  rewrite scan_skip. by rewrite prev_after_cons.
Qed.

End ScanFacts.

(** ** The two patterns on well-formed blocks *)
Section Extraction.
Import Re WithLinks DocShape.

Example findall_two_urls :
  findall url_pattern
    ([LBRACKET] ++ [LDQUOTE] ++ text_of "https://a/1.jpg" ++ [RDQUOTE]
       ++ text_of ", " ++ quote "http://b" ++ text_of ", " ++ quote "ftp://c"
       ++ [RBRACKET])
  = [text_of "https://a/1.jpg"; text_of "http://b"].
Proof. vm_compute. reflexivity. Qed.

Example finditer_skips_plain_lines :
  finditer pattern
    (text_of "Title" ++ [NL; NL] ++ text_of "Cats  " ++ [NL; 32%N]
       ++ text_of "[x]" ++ text_of " rest")
  = [[text_of "Cats  "; text_of "[x]"]].
Proof. vm_compute. reflexivity. Qed.

Example strip_example : strip (text_of "  Cats ") = text_of "Cats".
Proof. vm_compute. reflexivity. Qed.

Lemma open_quote_cases (c : N) :
  open_quote c = true → c = LDQUOTE ∨ c = DQUOTE.
Proof.
  unfold open_quote. intros [E|E]%orb_true_iff; apply N.eqb_eq in E; auto.
Qed.

Lemma close_quote_not_url_char (c : N) :
  close_quote c = true → url_char c = false.
Proof.
  unfold close_quote, url_char.
  intros [E|E]%orb_true_iff; apply N.eqb_eq in E; subst; reflexivity.
Qed.

(** Where no quote opens, no URL is matched. *)
Lemma url_no_match (pv : option N) (c : N) (s : text) :
  open_quote c = false → match_at url_pattern pv (c :: s) = None.
Proof.
  intros Hc. unfold match_at, url_pattern. by rewrite run_cat, run_cls, Hc.
Qed.

Lemma url_no_match_nil (pv : option N) : match_at url_pattern pv [] = None.
Proof. reflexivity. Qed.

Lemma open_quote_not_word (c : N) : open_quote c = true → is_word c = false.
Proof. by intros [-> | ->]%open_quote_cases. Qed.

(** After the scheme: the rest of the URL up to the closing quote. *)
Lemma url_rest_match {A} (k : mstate → option A) (pv : option N) (r0 : N)
    (rst : text) (qc : N) (tail : text) (gs : list text) (a : A) :
  url_char r0 = true → Forall (λ c, url_char c = true) rst →
  close_quote qc = true →
  (∀ pv', k (MState pv' (qc :: tail) gs) = Some a) →
  run (Cat (Cls url_char) (Star true url_char)) k
    (MState pv (r0 :: rst ++ qc :: tail) gs) = Some a.
Proof.
  intros Hr0 Hall Hc Hk. rewrite run_cat, run_cls, Hr0, run_star_greedy.
  cbn [prev rest groups]. apply star_greedy_run; [done| |done].
  by apply close_quote_not_url_char.
Qed.

(** On a quoted URL the pattern matches the whole item, and its group is the
    URL. *)
Lemma url_match (pv : option N) (u : quoted_url) (tail : text) :
  wf_url u →
  match_at url_pattern pv (render_item u ++ tail)
  = Some (MState (Some (q_close u)) tail [url_of u]).
Proof.
  destruct u as [qo https rst qc]. intros (Ho & Hc & Hne & Hall).
  cbn [q_open q_close q_rest q_https] in *.
  destruct rst as [|r0 rst]; [done|]. apply Forall_cons in Hall as [Hr0 Hall].
  pose proof (open_quote_not_word _ Ho) as Hw.
  unfold match_at, url_pattern, render_item, url_of, scheme.
  cbn [q_open q_close q_rest q_https].
  change (text_of "http") with [104; 116; 116; 112]%N.
  change (text_of "://") with [58; 47; 47]%N. cbn [lit].
  destruct https.
  - change (text_of "https://") with [104; 116; 116; 112; 115; 58; 47; 47]%N.
    cbn [app]. rewrite <- ?app_assoc. cbn [app].
    rewrite run_cat, run_cls, Ho, run_cat, run_grp, run_cat.
    cbn [prev rest groups]. rewrite run_wordb.
    cbn [head word_at]. rewrite Hw.
    change (is_word 104) with true. cbn [xorb].
    do 4 (rewrite run_cat, run_chr). rewrite run_cat, run_opt, run_chr.
    do 3 (rewrite run_cat, run_chr).
    erewrite url_rest_match; [done..|].
    intros pv'. cbn [prev rest groups app].
    change (104 :: 116 :: 116 :: 112 :: 115 :: 58 :: 47 :: 47 :: r0 :: rst
              ++ qc :: tail)%N
      with (([104; 116; 116; 112; 115; 58; 47; 47]%N ++ r0 :: rst)
              ++ qc :: tail).
    by rewrite take_app_minus, run_cls, Hc.
  - change (text_of "http://") with [104; 116; 116; 112; 58; 47; 47]%N.
    cbn [app]. rewrite <- ?app_assoc. cbn [app].
    rewrite run_cat, run_cls, Ho, run_cat, run_grp, run_cat.
    cbn [prev rest groups]. rewrite run_wordb.
    cbn [head word_at]. rewrite Hw.
    change (is_word 104) with true. cbn [xorb].
    do 4 (rewrite run_cat, run_chr).
    rewrite run_cat, run_opt, run_chr_ne by done.
    do 3 (rewrite run_cat, run_chr).
    erewrite url_rest_match; [done..|].
    intros pv'. cbn [prev rest groups app].
    change (104 :: 116 :: 116 :: 112 :: 58 :: 47 :: 47 :: r0 :: rst
              ++ qc :: tail)%N
      with (([104; 116; 116; 112; 58; 47; 47]%N ++ r0 :: rst) ++ qc :: tail).
    by rewrite take_app_minus, run_cls, Hc.
Qed.

(** Text without an opening quote is passed without a match. *)
Lemma scan_no_open (pv : option N) (sep s : text) :
  no_open_quote sep →
  scan url_pattern pv (sep ++ s) 0 = scan url_pattern (prev_after pv sep) s 0.
Proof.
  intros Hsep. revert pv. induction Hsep as [|c sep Hc Hsep IH]; intros pv.
  - done.
  - cbn [app]. rewrite scan_no_match by (by apply url_no_match).
    by rewrite IH, prev_after_cons.
Qed.

(** [re.findall] over quoted URLs and the text between them. *)
Lemma scan_urls (items : list (quoted_url * text)) :
  ∀ (pv : option N) (sep tail : text),
    no_open_quote sep →
    Forall (λ it, wf_url it.1 ∧ no_open_quote it.2) items →
    no_open_quote tail →
    scan url_pattern pv (sep ++ render_items items ++ tail) 0
    = (λ it, [url_of it.1]) <$> items.
Proof.
  induction items as [|[u sep'] items IH]; intros pv sep tail Hsep Hitems Htail.
  - cbn [render_items fmap list_fmap concat app].
    rewrite <- (app_nil_r (sep ++ tail)), scan_no_open; [done|].
    by apply Forall_app.
  - apply Forall_cons in Hitems as [[Hu Hsep'] Hitems]. cbn [fst snd] in *.
    rewrite scan_no_open by done.
    change (render_items ((u, sep') :: items))
      with ((render_item u ++ sep') ++ render_items items).
    rewrite <- !app_assoc.
    unfold render_item at 1.
    erewrite scan_match; [|by apply (url_match _ u)|done].
    rewrite fmap_cons. cbn [fst]. f_equal. by apply IH.
Qed.

Lemma findall_array (b : block) :
  wf_block_spec b → findall url_pattern (array_text b) = urls_of b.
Proof.
  intros (_ & _ & Hlead & Hitems). unfold findall, array_text, array_body.
  rewrite <- app_assoc, app_comm_cons.
  rewrite scan_urls; [|by constructor|done|by repeat constructor].
  unfold urls_of. rewrite <- !list_fmap_compose. by apply list_fmap_ext.
Qed.

(** At the start of a line, the pattern matches a whole block: the groups
    are the category line and the array up to its closing bracket. *)
Lemma block_match (pv : option N) (b : block) (tail : text) :
  pv = None ∨ pv = Some NL →
  wf_block b →
  match_at pattern pv (b_name b ++ NL :: array_text b ++ tail)
  = Some (MState (Some RBRACKET) tail [b_name b; array_text b]).
Proof.
  intros Hpv [(Hne & Hname & _ & _) Hbody].
  unfold array_text. set (body := array_body b) in *. clearbody body.
  destruct (b_name b) as [|n0 name] eqn:En; [done|].
  apply Forall_cons in Hname as [Hn0 Hname].
  unfold match_at, pattern.
  rewrite run_cat, run_bol.
  assert (∀ X : option mstate,
            match pv with
            | None => X
            | Some c => if (c =? 10)%N then X else None
            end = X) as Hbol by (by destruct Hpv as [-> | ->]).
  rewrite Hbol. clear Hbol.
  rewrite run_cat, run_grp, run_cat. cbn [app].
  rewrite run_cls, Hn0, run_star_greedy. cbn [prev rest groups].
  apply star_greedy_run; [done|done|].
  cbn [prev rest groups app].
  change (n0 :: name ++ ?x) with ((n0 :: name) ++ x).
  rewrite take_app_minus.
  rewrite run_cat, run_star_greedy. cbn [prev rest groups star_greedy app].
  change (is_space NL) with true. change (is_space LBRACKET) with false.
  cbn iota.
  rewrite (run_cat (chr NL)), run_chr_ne by done.
  rewrite run_cat, run_chr, run_cat, run_star_greedy.
  cbn [prev rest groups star_greedy].
  change (is_space LBRACKET) with false. cbn iota.
  rewrite run_grp, run_cat, run_chr, run_cat, run_star_lazy.
  cbn [prev rest groups].
  rewrite <- app_assoc. cbn [app].
  apply star_lazy_run.
  - apply Forall_forall. intros c Hc. split; [done|].
    intros pv' s'. rewrite run_chr_ne; [done|]. intros <-. by apply Hbody.
  - rewrite run_chr. cbn [prev rest groups app]. do 3 f_equal.
    change (LBRACKET :: body ++ RBRACKET :: tail)
      with ((LBRACKET :: body) ++ [RBRACKET] ++ tail).
    rewrite app_assoc, take_app_minus. reflexivity.
Qed.

Lemma pattern_not_at_bracket (s : text) :
  match_at pattern (Some RBRACKET) s = None.
Proof. unfold match_at, pattern. by rewrite run_cat, run_bol. Qed.

Lemma str_join_block (b : block) (bs : list block) :
  str_join [NL] (paragraphs_of (b :: bs))
  = b_name b ++ NL :: array_text b ++
      match bs with
      | [] => []
      | _ => NL :: str_join [NL] (paragraphs_of bs)
      end.
Proof.
  unfold paragraphs_of. rewrite fmap_cons. cbn [concat app str_join].
  destruct bs as [|b' bs]; [by rewrite app_nil_r|]. reflexivity.
Qed.

(** [finditer] over a document of well-formed blocks finds the blocks. *)
Lemma scan_blocks (bs : list block) :
  ∀ pv : option N,
    pv = None ∨ pv = Some NL →
    Forall wf_block bs →
    scan pattern pv (str_join [NL] (paragraphs_of bs)) 0
    = (λ b, [b_name b; array_text b]) <$> bs.
Proof.
  induction bs as [|b bs IH]; intros pv Hpv Hbs.
  - cbn. by destruct Hpv as [-> | ->].
  - apply Forall_cons in Hbs as [Hb Hbs]. rewrite str_join_block.
    pose proof Hb as [(Hne & _) _].
    destruct (b_name b) as [|n0 name] eqn:En; [done|].
    set (tail := match bs with
                 | [] => []
                 | _ => NL :: str_join [NL] (paragraphs_of bs)
                 end).
    change (NL :: array_text b ++ tail) with ((NL :: array_text b) ++ tail).
    rewrite app_assoc.
    change ((n0 :: name) ++ NL :: array_text b)
      with (n0 :: name ++ NL :: array_text b).
    erewrite (scan_match pattern pv n0 (name ++ NL :: array_text b) tail);
      cycle 1.
    { change (n0 :: name ++ NL :: array_text b)
        with ((n0 :: name) ++ NL :: array_text b).
      rewrite <- app_assoc, <- En. by apply block_match. }
    { done. }
    rewrite fmap_cons, En. cbn [groups]. f_equal.
    assert (prev_after pv (n0 :: name ++ NL :: array_text b) = Some RBRACKET)
      as ->.
    { unfold prev_after, array_text.
      change (n0 :: name ++ NL :: LBRACKET :: array_body b ++ [RBRACKET])
        with ((n0 :: name) ++ NL :: LBRACKET :: array_body b ++ [RBRACKET]).
      rewrite !app_comm_cons, !app_assoc. by rewrite last_snoc. }
    subst tail. destruct bs as [|b' bs].
    + cbn [scan]. by rewrite pattern_not_at_bracket.
    + rewrite scan_no_match by apply pattern_not_at_bracket.
      apply IH; [by right|done].
Qed.

(** The pairs [read_docx_data] goes through on such a document. *)
Lemma category_blocks_doc (bs : list block) :
  Forall wf_block bs →
  category_blocks (str_join [NL] (paragraphs_of bs))
  = (λ b, (strip (b_name b), urls_of b)) <$> bs.
Proof.
  intros Hbs. unfold category_blocks, finditer.
  rewrite scan_blocks by (by auto). rewrite <- list_fmap_compose.
  apply Forall_fmap_ext. eapply Forall_impl; [exact Hbs|].
  intros b [Hb _]. cbn. f_equal. by apply findall_array.
Qed.

End Extraction.

(** ** The mapping built from the blocks *)
Section Mapping.
Import Re WithLinks.

(** [read_docx_data] folds the pairs of category and URLs into the
    mapping. *)
Lemma read_docx_data_blocks (paragraphs : list text) :
  read_docx_data paragraphs
  = foldl add_block ∅ (category_blocks (str_join [NL] paragraphs)).
Proof. unfold read_docx_data, category_blocks. by rewrite foldl_fmap. Qed.

(** The entry of a category is the URL list of the last block that names it
    and has a URL. *)
Lemma fold_blocks_lookup (bl : list (text * list text)) :
  ∀ (init : gmap text (list text)) (c : text),
    foldl add_block init bl !! c
    = match last (filter (kept_for c) bl) with
      | Some b => Some b.2
      | None => init !! c
      end.
Proof.
  induction bl as [|[c' us] bl IH] using rev_ind; intros init c; [done|].
  rewrite foldl_snoc, filter_app. unfold add_block at 1. cbn [fst snd].
  destruct (decide (kept_for c (c', us))) as [[Hc Hus]|Hno].
  - rewrite filter_cons_True, filter_nil by done. rewrite last_snoc.
    cbn [fst snd] in *. subst c'. destruct us as [|u us]; [done|].
    apply lookup_insert_eq.
  - rewrite filter_cons_False, filter_nil, app_nil_r by done.
    destruct us as [|u us]; [by apply IH|].
    rewrite lookup_insert_ne; [by apply IH|].
    intros ->. apply Hno. by split.
Qed.

Lemma lookup_last_kept (bl before after : list (text * list text))
    (c : text) (us : list text) :
  bl = before ++ (c, us) :: after → us ≠ [] →
  (∀ us', (c, us') ∈ after → us' = []) →
  foldl add_block ∅ bl !! c = Some us.
Proof.
  intros Hbl Hus Hafter.
  rewrite fold_blocks_lookup, Hbl, filter_app.
  rewrite filter_cons_True by done.
  assert (filter (kept_for c) after = []) as ->.
  { destruct (filter (kept_for c) after) as [|[c' us'] l] eqn:E; [done|].
    assert ((c', us') ∈ filter (kept_for c) after) as Hin
      by (rewrite E; left).
    apply list_elem_of_filter in Hin as [[Hc Hne] Hin].
    cbn [fst snd] in *. subst c'. by apply Hafter in Hin. }
  by rewrite last_snoc.
Qed.

End Mapping.
(** * The claims *)

(** ** The never-grow invariant of the encoder *)
Section NeverGrow.
Import WithSource.
Context `{Codec} (cfg : Config).


End NeverGrow.


(** The two outcomes on a four-byte image: the halved file is kept; the
    padded file is dropped and the original is copied with its time stamp. *)
Example halving_run :
  let run := WithSource.compress_image_file (H := Samples.halving_codec)
               WithSource.source_config Samples.src_png Samples.out_png
               Samples.one_png in
  ((λ st : store,
      (is_dir st ["compressedImages"; "a"],
       st !! Samples.tmp_png, st !! Samples.out_png)) <$> run.1,
   run.2)
  = ([ (false, None, None);
       (true, None, None);
       (true, Some (File [] 1000), None);
       (true, Some (File [x89] 1000), None);
       (true, Some (File [x89; x50] 1000), None);
       (true, None, Some (File [x89; x50] 1000)) ],
     Ok (WithSource.Compressed 4 2)).
Proof. vm_compute. reflexivity. Qed.

Example padding_run :
  let m := WithSource.compress_image_file (H := Samples.padding_codec)
             WithSource.source_config Samples.src_png Samples.out_png in
  exec m Samples.one_png !! Samples.out_png = Some Samples.png4
  ∧ exec m Samples.one_png !! Samples.tmp_png = None
  ∧ exec m Samples.one_png !! Samples.src_png = Some Samples.png4
  ∧ outcome_of m Samples.one_png = Ok (WithSource.KeptOriginal 4 5).
Proof. vm_compute. repeat split. Qed.

(** An output without directory part: [os.makedirs] fails on the empty
    name, and nothing is written. *)
Example bare_output_run :
  WithSource.compress_image_file (H := Samples.halving_codec)
    WithSource.source_config Samples.src_png ["pic.png"] Samples.one_png
  = ([], Ok (WithSource.Failed FileNotFoundError)).
Proof. vm_compute. reflexivity. Qed.

(** A run of [main]: the text file is copied, the two images are halved,
    and [IMG.JPG] is written as [IMG.jpg]. *)
Example main_mixed_tree :
  let s' := exec (WithSource.main (H := Samples.halving_codec)
                    WithSource.source_config) Samples.mixed_tree in
  s' !! ["compressedImages"; "readme.txt"] = Some Samples.text1
  ∧ s' !! ["compressedImages"; "b"; "IMG.jpg"] = Some (File [x89; x50] 1000)
  ∧ s' !! ["compressedImages"; "a"; "pic.png"] = Some (File [x89; x50] 1000)
  ∧ length (walk_files WithSource.OUTPUT_DIR s') = 3%nat.
Proof. vm_compute. repeat split. Qed.

(** ** The temporary file *)
Section TempFile.
Import WithSource.
Context `{Codec} (cfg : Config).

(** The successful paths. The directory of the output can be made and the
    output is not a directory. When the re-encoded file is smaller, the
    destination changes in the single step that renames the complete
    temporary file onto it: in every store before that step the destination
    is as it was before the call, after it the destination is the complete
    new file and the temporary path is free. When the re-encoded file is not
    smaller, the original is copied to the destination and the temporary
    file is removed. *)
Lemma temp_replaced_or_removed (input output : path) (s : store) (f : file)
    (img : image) (fmt ext : string) (bs : list byte) :
  s !! input = Some f →
  input ≠ add_suffix output ".tmp" →
  decode (data f) = Some img →
  resolve_format cfg input = Ok (fmt, ext) →
  encode img fmt (save_params cfg fmt (Z.of_nat (length (data f)))) = Encoded bs →
  dir_makeable s (dirname output) → is_dir s output = false →
  let temp := add_suffix output ".tmp" in
  let run := compress_image_file cfg input output s in
  ((length bs < length (data f))%nat →
     ∃ before s',
       run.1 = before ++ [s']
       ∧ Forall (λ st : store, st !! output = s !! output) before
       ∧ s' !! output = Some (File bs now)
       ∧ s' !! temp = None
       ∧ run.2 = Ok (Compressed (Z.of_nat (length (data f)))
                       (Z.of_nat (length bs))))
  ∧ ((length (data f) ≤ length bs)%nat → input ≠ output →
       final s run.1 !! temp = None
       ∧ final s run.1 !! output = Some f
       ∧ run.2 = Ok (KeptOriginal (Z.of_nat (length (data f)))
                       (Z.of_nat (length bs)))).
Proof.
  intros Hin Htmp Hdec Hfmt Henc Hmake Hd temp run. subst run.
  assert (temp ≠ output) as Hto by (by apply add_suffix_ne).
  pose proof (s0_lookup output s Hmake) as Hs0.
  split.
  - intros Hlt. erewrite compress_returned by (by eapply try_smaller).
    cbn [fst snd]. rewrite app_assoc. eexists _, _. split; [reflexivity|].
    split; [|split; [|split]];
      [| |by rewrite store_insert_ne, store_delete_eq|done].
    + apply Forall_forall. intros st [Hst|Hst]%elem_of_app.
      * unfold lookup, store_lookup.
        by rewrite (touches_makedirs_files _ _ _ _ Hst).
      * rewrite <- Hs0. by eapply write_stages_other.
    + apply store_insert_eq.
  - intros Hge Hio. erewrite compress_returned by (by eapply try_not_smaller).
    cbn [fst snd]. rewrite !app_assoc, final_snoc.
    split; [apply store_delete_eq|]. split; [|done].
    rewrite store_delete_ne by done. apply store_insert_eq.
Qed.

(** The rename fails when the output is a directory, and the temporary file
    stays: the handler only logs. *)
Lemma temp_left_when_rename_fails (input output : path) (s : store)
    (f : file) (img : image) (fmt ext : string) (bs : list byte) :
  s !! input = Some f →
  input ≠ add_suffix output ".tmp" →
  decode (data f) = Some img →
  resolve_format cfg input = Ok (fmt, ext) →
  encode img fmt (save_params cfg fmt (Z.of_nat (length (data f)))) = Encoded bs →
  dir_makeable s (dirname output) → is_dir s output = true →
  (length bs < length (data f))%nat →
  let run := compress_image_file cfg input output s in
  run.2 = Ok (Failed IsADirectoryError)
  ∧ final s run.1 !! add_suffix output ".tmp" = Some (File bs now).
Proof.
  intros Hin Htmp Hdec Hfmt Henc Hmake Hd Hlt run. subst run.
  erewrite compress_failed by (by eapply try_rename_blocked).
  cbn [fst snd]. split; [done|].
  rewrite final_app, final_write_stages. apply store_insert_eq.
Qed.

End TempFile.

(** C4. The first half holds ([temp_replaced_or_removed]); the second does
    not hold of the code. The destination [compressedImages/a/pic.png] of the
    image is a directory, left there by something else. The image is
    re-encoded into the temporary file, which is smaller; [os.replace] raises
    [IsADirectoryError]; the handler logs it, and the temporary file, which
    was not there before the call, stays beside the destination. The branch
    that keeps the original does remove its temporary file. *)
Theorem temp_left_after_failure :
  (let run := WithSource.compress_image_file (H := Samples.halving_codec)
                WithSource.source_config Samples.src_png Samples.out_png
                Samples.dir_at_dest in
   is_dir Samples.dir_at_dest Samples.out_png = true
   ∧ Samples.dir_at_dest !! Samples.tmp_png = None
   ∧ add_suffix Samples.out_png ".tmp" = Samples.tmp_png
   ∧ (λ st : store, st !! Samples.tmp_png) <$> run.1
     = [Some (File [] 1000); Some (File [x89] 1000);
        Some (File [x89; x50] 1000)]
   ∧ run.2 = Ok (WithSource.Failed IsADirectoryError)
   ∧ final Samples.dir_at_dest run.1 !! Samples.tmp_png
     = Some (File [x89; x50] 1000))
  ∧
  (let run := WithSource.compress_image_file (H := Samples.padding_codec)
                WithSource.source_config Samples.src_png Samples.out_png
                Samples.one_png in
   run.2 = Ok (WithSource.KeptOriginal 4 5)
   ∧ final Samples.one_png run.1 !! Samples.out_png = Some Samples.png4
   ∧ final Samples.one_png run.1 !! Samples.tmp_png = None).
Proof. vm_compute. repeat split. Qed.

(** ** Which pipeline compares *)
Section KeepSmaller.
Context `{Codec}.


End KeepSmaller.




(** ** The quality passed to the encoder *)
Section Quality.
Import WithSource.

Lemma Qle_bool_false (x y : Q) : Qle_bool x y = false ↔ (y < x)%Q.
Proof.
  split.
  - intros Hb. apply Qnot_le_lt. intros Hle%Qle_bool_iff. congruence.
  - intros Hlt. destruct (Qle_bool x y) eqn:Hb; [|done].
    apply Qle_bool_iff in Hb. by apply Qlt_not_le in Hlt.
Qed.


(** With the settings of the script the threshold lies between 1258291 and
    1258292 bytes. *)
Lemma source_threshold (n : Z) :
  (THRESHOLD source_config < inject_Z n)%Q ↔ (1258291 < n)%Z.
Proof. unfold Qlt. simpl. lia. Qed.

Example quality_2MB_jpeg :
  save_params source_config "JPEG" (2 * 1024 * 1024) = SaveKwargs (Some 65%Z) None.
Proof. reflexivity. Qed.

Example quality_500KB_jpeg :
  save_params source_config "JPEG" (500 * 1024) = SaveKwargs (Some 85%Z) None.
Proof. reflexivity. Qed.

Example quality_floor :
  save_params {| TARGET_FORMAT := None; QUALITY := 15; THRESHOLD := 0;
                 AGGRESSIVE_DROP := 20 |} "WEBP" 1
  = SaveKwargs (Some 1%Z) None.
Proof. reflexivity. Qed.

Example png_optimize :
  save_params source_config "PNG" (2 * 1024 * 1024) = SaveKwargs None (Some true).
Proof. reflexivity. Qed.

End Quality.

Section QualityOfCall.
Import WithSource.
Context `{Codec} (cfg : Config).

Lemma write_stages_last (p : path) (bs : list byte) (t : Z) (s : store) :
  <[p := File bs t]> s ∈ write_stages p bs t s.
Proof.
  unfold write_stages. apply list_elem_of_fmap. exists (length bs).
  split; [by rewrite firstn_all|]. apply elem_of_seq. lia.
Qed.


End QualityOfCall.



(** ** The extensions the walker recognises *)
Section Extensions.
Import WithSource.

Lemma image_extension_cases (ext : string) :
  ext ∈ IMAGE_EXTENSIONS →
  ext ∈ [".jpg"; ".jpeg"; ".png"; ".bmp"; ".gif"; ".tiff"; ".webp"].
Proof. unfold IMAGE_EXTENSIONS. by rewrite elem_of_list_to_set. Qed.

(** C10. Every extension of [IMAGE_EXTENSIONS] is a key of [EXT_TO_FORMAT];
    so, when [TARGET_FORMAT] is [None], [compress_image_file] resolves a
    format for every file the walker takes for an image, and the branch that
    raises the error of an unsupported format is not reached. *)
Theorem image_extensions_have_format :
  (∀ ext : string, ext ∈ IMAGE_EXTENSIONS → is_Some (EXT_TO_FORMAT !! ext))
  ∧ (∀ (cfg : Config) (src : path),
       TARGET_FORMAT cfg = None → is_image src = true →
       ∃ fmt, resolve_format cfg src
              = Ok (fmt, PyStr.lower (splitext (basename src)).2)
              ∧ EXT_TO_FORMAT !! PyStr.lower (splitext (basename src)).2
                = Some fmt).
Proof.
  assert (∀ ext : string,
            ext ∈ IMAGE_EXTENSIONS → is_Some (EXT_TO_FORMAT !! ext)) as Hall.
  { intros ext Hext%image_extension_cases.
    repeat (apply elem_of_cons in Hext as [-> | Hext]; [by eexists|]).
    by apply elem_of_nil in Hext. }
  split; [exact Hall|].
  intros cfg src Htf Himg. unfold is_image in Himg.
  apply bool_decide_eq_true_1 in Himg.
  destruct (Hall _ Himg) as [fmt Hfmt]. exists fmt.
  unfold resolve_format, target. by rewrite Htf, Hfmt.
Qed.

End Extensions.

Lemma image_extensions_have_format_witness :
  ∃ fmt, WithSource.resolve_format WithSource.source_config
           ["sourceImages"; "b"; "IMG.JPG"] = Ok (fmt, ".jpg")
         ∧ WithSource.EXT_TO_FORMAT !! ".jpg" = Some fmt.
Proof.
  apply (proj2 image_extensions_have_format WithSource.source_config
           ["sourceImages"; "b"; "IMG.JPG"]).
  - reflexivity.
  - reflexivity.
Defined.

(** ** The destination path *)
Section Destination.
Import WithSource.
Context `{Codec} (cfg : Config).

(** C5, as amended. For a file [SOURCE_DIR/rel], the destination is
    [OUTPUT_DIR], the directories of [rel], and the base name with an
    extension: the original one for a file that is not an image; for an image
    the lower-cased original one when no target format is configured, and
    the target format otherwise. So without a target format the extension is
    unchanged up to the case of its letters, and the whole relative path is
    unchanged when the extension is not changed. *)
Theorem dest_path_mirrors (rel : path) :
  rel ≠ [] →
  let src := SOURCE_DIR ++ rel in
  let base := (splitext (basename src)).1 in
  let ext := (splitext (basename src)).2 in
  ∃ out_ext : string,
    dest_path cfg src = OUTPUT_DIR ++ removelast rel ++ [base +:+ out_ext]
    ∧ (is_image src = false → out_ext = ext)
    ∧ (is_image src = true → target cfg = None → out_ext = PyStr.lower ext)
    ∧ (is_image src = true → ∀ t, target cfg = Some t →
         out_ext = "." +:+ PyStr.lower t)
    ∧ (out_ext = ext → dest_path cfg src = OUTPUT_DIR ++ rel).
Proof.
  intros Hrel src base ext. subst src base ext.
  rewrite dest_path_source, basename_source by done.
  eexists. split; [reflexivity|].
  destruct (is_image (SOURCE_DIR ++ rel)), (target cfg) as [t|];
    repeat split; try done; try congruence.
  all: intros E; try rewrite E; rewrite splitext_app; by rewrite removelast_last.
Qed.

End Destination.

Lemma dest_path_mirrors_witness :
  let src := WithSource.SOURCE_DIR ++ ["b"; "IMG.JPG"] in
  let base := (splitext (basename src)).1 in
  let ext := (splitext (basename src)).2 in
  ∃ out_ext : string,
    WithSource.dest_path WithSource.source_config src
    = WithSource.OUTPUT_DIR ++ removelast ["b"; "IMG.JPG"] ++ [base +:+ out_ext]
    ∧ (WithSource.is_image src = false → out_ext = ext)
    ∧ (WithSource.is_image src = true →
       WithSource.target WithSource.source_config = None →
       out_ext = PyStr.lower ext)
    ∧ (WithSource.is_image src = true →
       ∀ t, WithSource.target WithSource.source_config = Some t →
            out_ext = "." +:+ PyStr.lower t)
    ∧ (out_ext = ext →
       WithSource.dest_path WithSource.source_config src
       = WithSource.OUTPUT_DIR ++ ["b"; "IMG.JPG"]).
Proof.
  apply (dest_path_mirrors WithSource.source_config ["b"; "IMG.JPG"]).
  discriminate.
Defined.

(** C5, as stated, fails: no target format is configured, and the extension
    [.JPG] of the source becomes [.jpg], so the destination is not the
    mirrored relative path. *)
Lemma extension_lowercased :
  WithSource.TARGET_FORMAT WithSource.source_config = None
  ∧ WithSource.dest_path WithSource.source_config ["sourceImages"; "b"; "IMG.JPG"]
    = ["compressedImages"; "b"; "IMG.jpg"]
  ∧ (splitext "IMG.JPG").2 = ".JPG"
  ∧ (splitext "IMG.jpg").2 = ".jpg"
  ∧ ".jpg" ≠ ".JPG"
  ∧ ["compressedImages"; "b"; "IMG.jpg"]
    ≠ WithSource.OUTPUT_DIR ++ ["b"; "IMG.JPG"].
Proof. repeat split; try reflexivity; discriminate. Qed.

(** ** Files that are not images *)
Section OpaqueFiles.
Import WithSource.
Context `{Codec} (cfg : Config).

(** C9, as amended. Take a file below the source root whose lower-cased
    extension is not in [IMAGE_EXTENSIONS]. When no file stands where the
    directory of its destination is to be made, and the destination is not a
    directory, the loop body copies it to the same relative path below the
    output root: the name and its extension are unchanged, the destination
    holds the same bytes and the same time stamp, no other file changes, and
    the directories leading to the destination are made. *)
Theorem opaque_file_copied (rel : path) (s : store) (f : file) :
  rel ≠ [] →
  s !! (SOURCE_DIR ++ rel) = Some f →
  PyStr.lower (splitext (basename (SOURCE_DIR ++ rel))).2 ∉ IMAGE_EXTENSIONS →
  dir_makeable s (OUTPUT_DIR ++ removelast rel) →
  is_dir s (OUTPUT_DIR ++ rel) = false →
  let s' := exec (process_file cfg (SOURCE_DIR ++ rel)) s in
  dest_path cfg (SOURCE_DIR ++ rel) = OUTPUT_DIR ++ rel
  ∧ outcome_of (process_file cfg (SOURCE_DIR ++ rel)) s = Ok tt
  ∧ s' !! (OUTPUT_DIR ++ rel) = Some f
  ∧ (∀ p, p ≠ OUTPUT_DIR ++ rel → s' !! p = s !! p)
  ∧ (∀ d, d ∈ dirs s' ↔
       d ∈ dirs s ∨ d ∈ ancestors (OUTPUT_DIR ++ removelast rel)).
Proof.
  intros Hrel Hin Hext Hmake Hd s'. subst s'.
  assert (is_image (SOURCE_DIR ++ rel) = false) as Himg
    by (by apply bool_decide_eq_false_2).
  assert (dest_path cfg (SOURCE_DIR ++ rel) = OUTPUT_DIR ++ rel) as Hdest.
  { rewrite dest_path_source, Himg by done.
    by rewrite splitext_app, removelast_last. }
  split; [done|]. unfold exec, outcome_of.
  destruct (process_file_effect cfg rel s f Hrel Hin)
    as (tr & g & Hrun & Hg & _ & Hgf & _ & Hp & Hdirs).
  - by rewrite Himg.
  - by rewrite dest_dir_source.
  - by rewrite Hdest.
  - rewrite Hrun. cbn [fst snd]. rewrite Hdest in Hg, Hp.
    rewrite dest_dir_source in Hdirs by done.
    split; [done|]. split; [rewrite <- (Hgf Himg); exact Hg|].
    split; [|done]. intros p Hne. apply Hp; [done|by rewrite Himg].
Qed.

End OpaqueFiles.

Lemma opaque_file_copied_witness :
  let s' := exec (WithSource.process_file (H := Samples.halving_codec)
                    WithSource.source_config
                    (WithSource.SOURCE_DIR ++ ["readme.txt"]))
                 Samples.mixed_tree in
  WithSource.dest_path WithSource.source_config
    (WithSource.SOURCE_DIR ++ ["readme.txt"])
  = WithSource.OUTPUT_DIR ++ ["readme.txt"]
  ∧ outcome_of (WithSource.process_file (H := Samples.halving_codec)
                  WithSource.source_config
                  (WithSource.SOURCE_DIR ++ ["readme.txt"]))
               Samples.mixed_tree = Ok tt
  ∧ s' !! (WithSource.OUTPUT_DIR ++ ["readme.txt"]) = Some Samples.text1
  ∧ (∀ p, p ≠ WithSource.OUTPUT_DIR ++ ["readme.txt"] →
          s' !! p = Samples.mixed_tree !! p)
  ∧ (∀ d, d ∈ dirs s' ↔
       d ∈ dirs Samples.mixed_tree
       ∨ d ∈ ancestors (WithSource.OUTPUT_DIR ++ removelast ["readme.txt"])).
Proof.
  apply (opaque_file_copied (H := Samples.halving_codec)
           WithSource.source_config ["readme.txt"] Samples.mixed_tree
           Samples.text1).
  - discriminate.
  - reflexivity.
  - vm_compute. intros Hin. discriminate Hin.
  - split; [discriminate|]. intros q Hq.
    repeat (apply elem_of_cons in Hq as [->|Hq]; [reflexivity|]).
    by apply elem_of_nil in Hq.
  - reflexivity.
Defined.

(** C9, as stated, fails. First store: the image [x.PNG] is written to
    [x.png]; the directory [x.png] beside it holds the text file [y.txt],
    whose destination directory can then not be made: line 125 raises
    [FileExistsError], [main] ends there, and [y.txt] is not copied. Second
    store: the destination of [readme.txt] is a directory, and
    [shutil.copy2] puts the copy into it, under [readme.txt/readme.txt]. *)
Lemma opaque_file_not_copied :
  (let m := WithSource.main (H := Samples.halving_codec)
              WithSource.source_config in
   walk_files WithSource.SOURCE_DIR Samples.blocked_tree
   = [["sourceImages"; "x.PNG"]; ["sourceImages"; "x.png"; "y.txt"]]
   ∧ WithSource.is_image ["sourceImages"; "x.png"; "y.txt"] = false
   ∧ outcome_of m Samples.blocked_tree = Raise FileExistsError
   ∧ exec m Samples.blocked_tree !! ["compressedImages"; "x.png"]
     = Some (File [x89; x50] 1000)
   ∧ exec m Samples.blocked_tree !! ["compressedImages"; "x.png"; "y.txt"]
     = None)
  ∧
  (let m := WithSource.process_file (H := Samples.halving_codec)
              WithSource.source_config ["sourceImages"; "readme.txt"] in
   WithSource.is_image ["sourceImages"; "readme.txt"] = false
   ∧ outcome_of m Samples.dir_at_copy = Ok tt
   ∧ exec m Samples.dir_at_copy !! ["compressedImages"; "readme.txt"] = None
   ∧ exec m Samples.dir_at_copy
       !! ["compressedImages"; "readme.txt"; "readme.txt"]
     = Some Samples.text1).
Proof. vm_compute. repeat split. Qed.

(** ** The output tree *)
Section OutputTree.
Import WithSource.
Context `{Codec} (cfg : Config).

(** C3, as amended. Take a source tree with [K] files, and an output root
    with no file at it and nothing below it. If every image among the files
    is accepted by the decoder and the encoder, no two files have the same
    destination, no destination is a directory on the way to another
    destination, and no temporary path of an image is the destination of a
    file, then [main] runs to its end, and after it the files of the output
    tree are exactly the [K] destinations [dest_path src]: the mirrored
    relative path for a file that is not an image, and the mirrored directory
    and base name with the extension chosen for an image. Each of them is no
    larger than its source, files that are not images are unchanged copies,
    and the source tree is as before. *)
Theorem output_tree_mirrors (s : store) :
  let srcs := walk_files SOURCE_DIR s in
  (∀ p : path, OUTPUT_DIR `prefix_of` p → s !! p = None) →
  (∀ p, under OUTPUT_DIR p → p ∉ dirs s) →
  (∀ src f, src ∈ srcs → s !! src = Some f → is_image src = true →
            converts cfg src f) →
  NoDup (dest_path cfg <$> srcs) →
  (∀ src src', src ∈ srcs → src' ∈ srcs →
     ¬ dest_path cfg src `prefix_of` dirname (dest_path cfg src')) →
  (∀ src src', src ∈ srcs → src' ∈ srcs → is_image src = true →
     add_suffix (dest_path cfg src) ".tmp" ≠ dest_path cfg src') →
  let s' := exec (main cfg) s in
  outcome_of (main cfg) s = Ok tt
  ∧ (∀ p, p ∈ walk_files OUTPUT_DIR s' ↔ p ∈ dest_path cfg <$> srcs)
  ∧ length (walk_files OUTPUT_DIR s') = length srcs
  ∧ (∀ rel f, s !! (SOURCE_DIR ++ rel) = Some f → rel ≠ [] →
       SOURCE_DIR ++ rel ∈ srcs →
       is_image (SOURCE_DIR ++ rel) = false →
       s' !! (OUTPUT_DIR ++ rel) = Some f)
  ∧ (∀ src f, src ∈ srcs → s !! src = Some f →
       ∃ g, s' !! dest_path cfg src = Some g
            ∧ (length (data g) ≤ length (data f))%nat)
  ∧ (∀ p, under SOURCE_DIR p → s' !! p = s !! p).
Proof.
  intros srcs Hfree Hnodirs Hconv Hnodup Hapart Htmp s'.
  assert (∀ src src', src ∈ srcs → src' ∈ srcs →
            dest_path cfg src ∉ ancestors (dirname (dest_path cfg src')))
    as Hapart'.
  { intros src src' Hs Hs' [_ Hpre]%elem_of_ancestors.
    by apply (Hapart src src'). }
  assert (∃ tr, main cfg s = (tr, Ok tt) ∧ loop_inv cfg s (final s tr) srcs)
    as (tr & Hrun & Hsrc & Hout & Hdirs & Hcont).
  { rewrite main_run. fold srcs. case_bool_decide as Hnil.
    - exists []. split; [done|]. rewrite Hnil. by apply loop_start.
    - apply (loop_run cfg s srcs) with (done := []); try done.
      + intros src Hs. pose proof Hs as [Hu [f Hf]]%walk_files_under.
        split; [done|]. exists f. split; [done|]. by apply Hconv.
      + by apply loop_start. }
  subst s'. unfold exec, outcome_of. rewrite Hrun. cbn [fst snd].
  assert (∀ p, p ∈ walk_files OUTPUT_DIR (final s tr)
               ↔ p ∈ dest_path cfg <$> srcs) as Hfiles.
  { intros p. split.
    - intros [[Hpre _] Hp]%walk_files_under. by apply Hout.
    - intros Hp. pose proof Hp as (src & -> & Hs)%list_elem_of_fmap.
      pose proof Hs as [Hu _]%walk_files_under.
      destruct (under_inv _ _ Hu) as (rel & Hrel & ->).
      apply dest_in_output_walk; [done| |].
      + destruct (dest_path_under_output cfg rel Hrel) as (q & Hq & Hdest).
        apply Hout; [|done]. rewrite Hdest. by apply prefix_app_r.
      + intros d Hd. apply Hdirs. right. by eexists. }
  split; [done|]. split; [done|]. split; [|split; [|split; [|done]]].
  - rewrite <- (length_fmap (dest_path cfg) srcs).
    apply Permutation_length, NoDup_Permutation;
      [apply NoDup_walk_files|done|done].
  - intros rel f Hf Hrel Hs Himg.
    destruct (Hcont _ _ Hs Hf) as (g & Hg & _ & Heq).
    rewrite dest_path_source, Himg in Hg by done.
    rewrite splitext_app, removelast_last in Hg by done.
    rewrite Heq in Hg by done. exact Hg.
  - intros src f Hs Hf. destruct (Hcont _ _ Hs Hf) as (g & Hg & Hle & _).
    by exists g.
Qed.

End OutputTree.

(** C3, as stated, fails. First store: the one file is a text file named
    [notes.png]; the decoder rejects it, the handler logs the failure, and
    the output tree holds no file. Second store: [a.JPG] and [a.jpg] are both
    written to [a.jpg], so two source files leave one output file. Third
    store: [a.png.tmp] is copied first, and the encoder then uses the path
    of the copy for the temporary file of [a.png] and renames it away.
    Fourth store: the image [x.PNG] is written to [x.png], the directory for
    the file [x.png/y.txt] can then not be made, and [main] ends with the
    [FileExistsError] of line 125, one file written out of two. *)
Lemma output_tree_misses_files :
  (walk_files WithSource.SOURCE_DIR Samples.fake_png
   = [["sourceImages"; "notes.png"]]
   ∧ outcome_of (WithSource.main (H := Samples.halving_codec)
                   WithSource.source_config) Samples.fake_png = Ok tt
   ∧ walk_files WithSource.OUTPUT_DIR
       (exec (WithSource.main (H := Samples.halving_codec)
                WithSource.source_config) Samples.fake_png) = []
   ∧ exec (WithSource.main (H := Samples.halving_codec)
             WithSource.source_config) Samples.fake_png
       !! ["compressedImages"; "notes.png"] = None
   ∧ length (walk_files WithSource.OUTPUT_DIR
               (exec (WithSource.main (H := Samples.halving_codec)
                        WithSource.source_config) Samples.fake_png))
     ≠ length (walk_files WithSource.SOURCE_DIR Samples.fake_png))
  ∧ (length (walk_files WithSource.SOURCE_DIR Samples.case_clash) = 2
     ∧ walk_files WithSource.OUTPUT_DIR
         (exec (WithSource.main (H := Samples.halving_codec)
                  WithSource.source_config) Samples.case_clash)
       = [["compressedImages"; "a.jpg"]])
  ∧ (walk_files WithSource.SOURCE_DIR Samples.temp_clash
     = [["sourceImages"; "a.png.tmp"]; ["sourceImages"; "a.png"]]
     ∧ walk_files WithSource.OUTPUT_DIR
         (exec (WithSource.main (H := Samples.halving_codec)
                  WithSource.source_config) Samples.temp_clash)
       = [["compressedImages"; "a.png"]])
  ∧ (walk_files WithSource.SOURCE_DIR Samples.blocked_tree
     = [["sourceImages"; "x.PNG"]; ["sourceImages"; "x.png"; "y.txt"]]
     ∧ outcome_of (WithSource.main (H := Samples.halving_codec)
                     WithSource.source_config) Samples.blocked_tree
       = Raise FileExistsError
     ∧ walk_files WithSource.OUTPUT_DIR
         (exec (WithSource.main (H := Samples.halving_codec)
                  WithSource.source_config) Samples.blocked_tree)
       = [["compressedImages"; "x.png"]]).
Proof. vm_compute. repeat split. discriminate. Qed.

Lemma mixed_tree_files :
  walk_files WithSource.SOURCE_DIR Samples.mixed_tree
  = [["sourceImages"; "readme.txt"]; ["sourceImages"; "b"; "IMG.JPG"];
     ["sourceImages"; "a"; "pic.png"]].
Proof. vm_compute. reflexivity. Qed.

Lemma mixed_tree_output_free (p : path) :
  WithSource.OUTPUT_DIR `prefix_of` p →
  Samples.mixed_tree !! p = None ∧ p ∉ dirs Samples.mixed_tree.
Proof.
  intros [q ->]. split.
  - unfold Samples.mixed_tree, Samples.tree, lookup, store_lookup.
    cbn [files list_to_map foldr]. cbv beta.
    rewrite !lookup_insert_ne by discriminate. apply lookup_empty.
  - unfold Samples.mixed_tree, Samples.tree. cbn [dirs].
    rewrite elem_of_list_to_set. intros Hin.
    repeat (apply elem_of_cons in Hin as [Hin|Hin]; [discriminate Hin|]).
    by apply elem_of_nil in Hin.
Qed.

(** A tree of two images and a text file, with a codec that halves. *)
Lemma output_tree_mirrors_witness :
  let s := Samples.mixed_tree in
  let srcs := walk_files WithSource.SOURCE_DIR s in
  let s' := exec (WithSource.main (H := Samples.halving_codec)
                    WithSource.source_config) s in
  outcome_of (WithSource.main (H := Samples.halving_codec)
                WithSource.source_config) s = Ok tt
  ∧ (∀ p, p ∈ walk_files WithSource.OUTPUT_DIR s'
          ↔ p ∈ WithSource.dest_path WithSource.source_config <$> srcs)
  ∧ length (walk_files WithSource.OUTPUT_DIR s') = length srcs
  ∧ (∀ rel f, s !! (WithSource.SOURCE_DIR ++ rel) = Some f → rel ≠ [] →
       WithSource.SOURCE_DIR ++ rel ∈ srcs →
       WithSource.is_image (WithSource.SOURCE_DIR ++ rel) = false →
       s' !! (WithSource.OUTPUT_DIR ++ rel) = Some f)
  ∧ (∀ src f, src ∈ srcs → s !! src = Some f →
       ∃ g, s' !! WithSource.dest_path WithSource.source_config src = Some g
            ∧ (length (data g) ≤ length (data f))%nat)
  ∧ (∀ p, under WithSource.SOURCE_DIR p → s' !! p = s !! p).
Proof.
  apply (output_tree_mirrors (H := Samples.halving_codec)
           WithSource.source_config Samples.mixed_tree).
  - intros p Hp. by apply mixed_tree_output_free.
  - intros p [Hp _]. by apply mixed_tree_output_free.
  - rewrite mixed_tree_files. intros src f Hsrc Hf Himg.
    repeat (apply elem_of_cons in Hsrc as [-> | Hsrc]);
      [discriminate Himg| | |by apply elem_of_nil in Hsrc].
    + vm_compute in Hf. injection Hf as <-.
      exists [x89; x50; x4e; x47]. split; [reflexivity|]. intros. by eexists.
    + vm_compute in Hf. injection Hf as <-.
      exists [x89; x50; x4e; x47]. split; [reflexivity|]. intros. by eexists.
  - rewrite mixed_tree_files. apply (bool_decide_unpack _). vm_compute. exact I.
  - rewrite mixed_tree_files. intros src src' Hsrc Hsrc'.
    repeat (apply elem_of_cons in Hsrc as [-> | Hsrc]);
      [| | |by apply elem_of_nil in Hsrc].
    all: repeat (apply elem_of_cons in Hsrc' as [-> | Hsrc']);
      [intros [k E]; vm_compute in E; discriminate E..
      |by apply elem_of_nil in Hsrc'].
  - rewrite mixed_tree_files. intros src src' Hsrc Hsrc' Himg.
    repeat (apply elem_of_cons in Hsrc as [-> | Hsrc]);
      [discriminate Himg| | |by apply elem_of_nil in Hsrc].
    all: repeat (apply elem_of_cons in Hsrc' as [-> | Hsrc']);
      [vm_compute; discriminate..|by apply elem_of_nil in Hsrc'].
Defined.

(** ** The category mapping *)
Section CategoryMap.
Import Re WithLinks DocShape.

(** C8, as amended. Let [bl] be the pairs of category and extracted URLs of the blocks
    of the document, in order. Every entry of the mapping is the non-empty
    URL list of a block; a category is a key exactly when one of its blocks
    has a URL, so a block without URLs adds nothing; and the entry of a
    category is the URL list of its last block that has a URL, which
    overwrites those of the earlier ones. On the scenario of the
    specification the mapping has the single key Cats with its two URLs. *)
Theorem mapping_last_block_wins :
  (∀ (paragraphs : list text),
     let bl := category_blocks (str_join [NL] paragraphs) in
     let data := read_docx_data paragraphs in
     (∀ c us, data !! c = Some us → us ≠ [] ∧ (c, us) ∈ bl)
     ∧ (∀ c, is_Some (data !! c) ↔ ∃ us, (c, us) ∈ bl ∧ us ≠ [])
     ∧ (∀ c us before after,
          bl = before ++ (c, us) :: after → us ≠ [] →
          (∀ us', (c, us') ∈ after → us' = []) →
          data !! c = Some us))
  ∧ category_blocks (str_join [NL] scenario)
    = [(text_of "Cats", [text_of "https://a/1.jpg"; text_of "https://a/2.jpg"]);
       (text_of "Dogs", [])]
  ∧ read_docx_data scenario
    = {[ text_of "Cats" :=
           [text_of "https://a/1.jpg"; text_of "https://a/2.jpg"] ]}.
Proof.
  split; [|split; vm_compute; reflexivity].
  intros paragraphs bl data. subst data. rewrite read_docx_data_blocks.
  fold bl. split; [|split].
  - intros c us. rewrite fold_blocks_lookup, lookup_empty.
    destruct (last (filter (kept_for c) bl)) as [[c' us']|] eqn:Hl; [|done].
    intros [= <-]. apply last_Some_elem_of in Hl.
    apply list_elem_of_filter in Hl as [[Hc Hus] Hin]. cbn [fst snd] in *.
    by subst c'.
  - intros c. rewrite fold_blocks_lookup, lookup_empty. split.
    + destruct (last (filter (kept_for c) bl)) as [[c' us']|] eqn:Hl;
        [|by intros []].
      intros _. apply last_Some_elem_of in Hl.
      apply list_elem_of_filter in Hl as [[Hc Hus] Hin]. cbn [fst snd] in *.
      subst c'. by exists us'.
    + intros (us & Hin & Hus).
      assert ((c, us) ∈ filter (kept_for c) bl) as Hf
        by (by apply list_elem_of_filter).
      destruct (last (filter (kept_for c) bl)) as [b|] eqn:Hl; [by eexists|].
      apply last_None in Hl. rewrite Hl in Hf. by apply elem_of_nil in Hf.
  - intros c us before after Hbl Hus Hafter. by eapply lookup_last_kept.
Qed.

End CategoryMap.

(** Cats occurs three times; the second block is the last one with a URL. *)
Lemma mapping_last_block_wins_witness :
  WithLinks.read_docx_data DocShape.repeated_category !! Re.text_of "Cats"
  = Some [Re.text_of "https://a/2.jpg"].
Proof.
  apply (proj1 mapping_last_block_wins DocShape.repeated_category)
    with (before := [(Re.text_of "Cats", [Re.text_of "https://a/1.jpg"])])
         (after := [(Re.text_of "Cats", [])]).
  - vm_compute. reflexivity.
  - discriminate.
  - intros us' Hin. apply list_elem_of_singleton in Hin. congruence.
Defined.

(** C8, as stated, fails: Cats occurs twice, and its last occurrence has an
    empty array. The list of the last occurrence does not overwrite the
    earlier one: the mapping keeps the URL of the first occurrence. *)
Lemma last_occurrence_without_urls :
  WithLinks.category_blocks
    (Re.str_join [WithLinks.NL] DocShape.emptied_category)
  = [(Re.text_of "Cats", [Re.text_of "https://a/1.jpg"]);
     (Re.text_of "Cats", [])]
  ∧ last (WithLinks.category_blocks
            (Re.str_join [WithLinks.NL] DocShape.emptied_category))
    = Some (Re.text_of "Cats", [])
  ∧ WithLinks.read_docx_data DocShape.emptied_category !! Re.text_of "Cats"
    = Some [Re.text_of "https://a/1.jpg"]
  ∧ WithLinks.read_docx_data DocShape.emptied_category !! Re.text_of "Cats"
    ≠ Some [].
Proof. vm_compute. repeat split. discriminate. Qed.

(** ** The URLs of a block *)
Section BlockUrls.
Import Re WithLinks DocShape.

(** C7, as amended. Take a document made of category blocks: a category
    line, a newline, and a bracketed array whose quoted URLs begin with
    http:// or https://, are opened by a straight or left curly quote and
    closed by a straight or right curly quote, with no opening quote between
    them, and with no closing bracket inside the array, in a URL or elsewhere.
    Then the extractor finds, for each block in the order of the document,
    exactly its URLs in their order; and the mapping gives a category the
    URLs of its block, unless a later block with a URL has the same name. *)
Theorem blocks_yield_their_urls (bs : list block) :
  Forall wf_block bs →
  category_blocks (str_join [NL] (paragraphs_of bs))
  = (λ b, (strip (b_name b), urls_of b)) <$> bs
  ∧ (∀ before b after,
       bs = before ++ b :: after → urls_of b ≠ [] →
       (∀ b', b' ∈ after → strip (b_name b') = strip (b_name b) →
              urls_of b' = []) →
       read_docx_data (paragraphs_of bs) !! strip (b_name b)
       = Some (urls_of b)).
Proof.
  intros Hbs. split; [by apply category_blocks_doc|].
  intros before b after Hsplit Hurls Hafter.
  rewrite read_docx_data_blocks, category_blocks_doc by done.
  eapply lookup_last_kept; [|done|].
  - rewrite Hsplit, fmap_app, fmap_cons. reflexivity.
  - intros us' (b' & [= Hname ->] & Hin)%list_elem_of_fmap.
    by apply Hafter.
Qed.

End BlockUrls.

Lemma two_blocks_wf : Forall DocShape.wf_block DocShape.two_blocks.
Proof.
  repeat constructor; try discriminate;
    try (apply (bool_decide_unpack _); vm_compute; exact I).
Qed.

(** Two blocks: a curly-quoted and a straight-quoted URL for Cats, one URL
    for Dogs. *)
Lemma blocks_yield_their_urls_witness :
  WithLinks.category_blocks
    (Re.str_join [WithLinks.NL] (DocShape.paragraphs_of DocShape.two_blocks))
  = (λ b, (Re.strip (DocShape.b_name b), DocShape.urls_of b))
      <$> DocShape.two_blocks
  ∧ (∀ before b after,
       DocShape.two_blocks = before ++ b :: after →
       DocShape.urls_of b ≠ [] →
       (∀ b', b' ∈ after →
              Re.strip (DocShape.b_name b') = Re.strip (DocShape.b_name b) →
              DocShape.urls_of b' = []) →
       WithLinks.read_docx_data (DocShape.paragraphs_of DocShape.two_blocks)
         !! Re.strip (DocShape.b_name b)
       = Some (DocShape.urls_of b)).
Proof.
  apply (blocks_yield_their_urls DocShape.two_blocks).
  exact two_blocks_wf.
Defined.

(** C7, as stated, fails: the block is a category line and an array with
    one straight-quoted URL that begins with http://, but the URL holds a
    closing bracket (an IPv6 host). The array the pattern finds ends at that
    bracket, no URL is extracted, and the category is dropped. *)
Lemma url_with_bracket_lost :
  DocShape.wf_block_spec DocShape.ipv6_block
  ∧ DocShape.urls_of DocShape.ipv6_block = [Re.text_of "http://[::1]/a.jpg"]
  ∧ WithLinks.category_blocks
      (Re.str_join [WithLinks.NL]
         (DocShape.paragraphs_of [DocShape.ipv6_block]))
    = [(Re.text_of "Cats", [])]
  ∧ WithLinks.read_docx_data (DocShape.paragraphs_of [DocShape.ipv6_block])
      !! Re.text_of "Cats" = None
  ∧ WithLinks.category_blocks
      (Re.str_join [WithLinks.NL]
         (DocShape.paragraphs_of [DocShape.ipv6_block]))
    ≠ (λ b, (Re.strip (DocShape.b_name b), DocShape.urls_of b))
        <$> [DocShape.ipv6_block].
Proof.
  split; [|vm_compute; repeat split; discriminate].
  repeat constructor; try discriminate.
Qed.
(** * Further properties of the two scripts *)

(** ** The encoder and the walker as a whole *)
Section WholeRuns.
Import WithSource.
Context `{Codec} (cfg : Config).

Lemma touches_lookup (P D : path → Prop) {A} (m : M A) (s st : store)
    (p : path) :
  touches P D m → st ∈ (m s).1 → ¬ P p → st !! p = s !! p.
Proof. intros Hm Hst Hp. by apply (Hm s st Hst). Qed.

Lemma touches_exec_lookup (P D : path → Prop) {A} (m : M A) (s : store)
    (p : path) :
  touches P D m → ¬ P p → exec m s !! p = s !! p.
Proof. intros Hm Hp. by apply (touches_exec P D m s Hm). Qed.

(** X1. Whatever the store, the paths and the codec, a call of
    [compress_image_file] returns (every exception ends in the handler). In
    every store it passes through, all files are as before the call other
    than the destination, its temporary file, and the file of the input's
    name in the destination, where [shutil.copy2] puts the copy when the
    destination is a directory; in particular the input, when it is none of
    the three. No directory is removed, and the directories made are the
    directory of the destination and those above it. *)
Theorem compress_touches_three_paths (input output : path) (s : store) :
  (∃ o, outcome_of (compress_image_file cfg input output) s = Ok o)
  ∧ ∀ st, st ∈ (compress_image_file cfg input output s).1 →
      (∀ p, p ≠ output → p ≠ add_suffix output ".tmp" →
            p ≠ output ++ [basename input] → st !! p = s !! p)
      ∧ dirs s ⊆ dirs st
      ∧ ∀ d, d ∈ dirs st →
          d ∈ dirs s ∨ (d ≠ [] ∧ d `prefix_of` dirname output).
Proof.
  split; [apply compress_returns|].
  intros st Hst.
  destruct (compress_touches cfg input output s st Hst) as (Hf & Hsub & Hnew).
  split; [|split; [done|]].
  - intros p Hpo Hpt Hpi. apply Hf. by intros [?|[?|?]].
  - intros d Hd. destruct (Hnew d Hd) as [?|Ha]; [by left|right].
    by apply elem_of_ancestors.
Qed.

Lemma process_file_within (rel : path) :
  rel ≠ [] →
  touches (under OUTPUT_DIR) (λ d, OUTPUT_DIR `prefix_of` d)
    (process_file cfg (SOURCE_DIR ++ rel)).
Proof.
  intros Hrel. eapply touches_mono; [| |apply process_file_touches].
  - destruct (dest_path_under_output cfg rel Hrel) as (q & Hq & Hdest).
    intros p [-> | [-> | ->]]; rewrite Hdest.
    + by apply under_app.
    + rewrite add_suffix_output by done. apply under_app, add_suffix_nonempty.
    + rewrite <- app_assoc. apply under_app. by intros [? _]%app_eq_nil.
  - cbv beta. intros d [Hne Hpre]%elem_of_ancestors.
    rewrite dest_dir_source in Hpre by done. by eapply prefix_output.
Qed.

(** [os.makedirs] on a name that cannot be made and is not empty raises one
    of two errors. *)
Lemma makedirs_raises (s : store) (d : path) (dot : bool) :
  d ≠ [] → ¬ dir_makeable s d →
  ∃ tr e, os_makedirs d dot s = (tr, Raise e)
          ∧ (e = FileExistsError ∨ e = NotADirectoryError).
Proof.
  intros Hd Hno. unfold os_makedirs. rewrite decide_False by done.
  destruct (mkdirs_run (ancestors d) d dot s)
    as [[Hall _]|[_ (tr & e & Hr & He)]].
  - destruct Hno. split; [done|]. intros q Hq.
    by apply (proj1 (Forall_forall _ _) Hall).
  - by exists tr, e.
Qed.

Lemma copy2_blocked (t : Z) (a b : path) (s : store) (f : file) (e : exn) :
  s !! a = Some f →
  a ≠ (if is_dir s b then b ++ [basename a] else b) →
  open_error s (if is_dir s b then b ++ [basename a] else b) = Some e →
  shutil_copy2 t a b s = ([], Raise e).
Proof.
  intros Ha Hne Hopen. unfold shutil_copy2, mbind, M_bind.
  rewrite bind_get. cbv zeta.
  destruct (is_dir s b); rewrite Ha, decide_False by done; by rewrite Hopen.
Qed.

(** One turn of the loop returns, or raises at line 125 or at line 138. *)
Lemma process_file_outcome (rel : path) (st : store) (f : file) :
  rel ≠ [] → st !! (SOURCE_DIR ++ rel) = Some f →
  outcome_of (process_file cfg (SOURCE_DIR ++ rel)) st = Ok tt
  ∨ ∃ e, outcome_of (process_file cfg (SOURCE_DIR ++ rel)) st = Raise e
         ∧ (e = FileExistsError ∨ e = NotADirectoryError
            ∨ e = IsADirectoryError).
Proof.
  intros Hrel Hf. unfold outcome_of. rewrite process_file_run.
  set (src := SOURCE_DIR ++ rel). set (dest := dest_path cfg src).
  set (dot := bool_decide _).
  destruct (dir_makeable_or_not st (dirname dest)) as [Hmake|Hno].
  2:{ right.
      destruct (makedirs_raises st (dirname dest) dot) as (tr & e & Hr & He);
        [apply dest_dir_nonempty|done|].
      exists e. erewrite bind_raise by exact Hr. split; [done|tauto]. }
  pose proof (makedirs_run st (dirname dest) dot Hmake) as Hrun0.
  pose proof (makedirs_dirs st (dirname dest) dot Hmake) as Hdirs0.
  pose proof (makedirs_files st (dirname dest) dot) as Hfiles0.
  unfold exec in Hdirs0, Hfiles0.
  erewrite bind_run by exact Hrun0. cbn [snd].
  set (st0 := final st (os_makedirs (dirname dest) dot st).1) in *.
  destruct (is_image src).
  { left. destruct (compress_returns cfg src dest st0) as [o Ho].
    unfold outcome_of in Ho. unfold bind.
    destruct (compress_image_file cfg src dest st0) as [tr r].
    cbn [snd] in Ho. by subst r. }
  fold src in Hf.
  assert (st0 !! src = Some f) as Hsrc0 by (by rewrite Hfiles0).
  destruct (dest_path_under_output cfg rel Hrel) as (q & Hq & Hdest).
  fold src dest in Hdest.
  assert (is_dir st0 (dirname dest) = true) as Hparent.
  { apply is_dir_true. right. apply Hdirs0. right.
    apply ancestors_self, dest_dir_nonempty. }
  destruct (is_dir st0 dest) eqn:Hd.
  - assert (src ≠ dest ++ [basename src]) as Hne
      by (rewrite Hdest; discriminate).
    destruct (open_error st0 (dest ++ [basename src])) as [e|] eqn:Hopen.
    + right. exists e. split.
      { erewrite copy2_blocked; [done|exact Hsrc0|by rewrite Hd|by rewrite Hd]. }
      unfold open_error in Hopen.
      destruct (is_dir st0 (dest ++ [basename src]));
        [injection Hopen as <-; auto|].
      rewrite dirname_snoc in Hopen.
      destruct (bool_decide (is_Some (st0 !! dest)));
        [injection Hopen as <-; auto|].
      by rewrite Hd in Hopen.
    + left. by erewrite copy2_into.
  - left. erewrite copy2_run; [done|exact Hsrc0|done| |].
    + rewrite Hdest. discriminate.
    + unfold open_error. rewrite Hd. destruct Hmake as [Hne Hfree].
      rewrite bool_decide_eq_false_2.
      2:{ rewrite Hfiles0, (Hfree (dirname dest)) by (by apply ancestors_self).
          by intros []. }
      by rewrite Hparent.
Qed.

(** The loop over files of the source tree. *)
Lemma loop_outcome (s : store) (l : list path) :
  (∀ src, src ∈ l → under SOURCE_DIR src ∧ is_Some (s !! src)) →
  ∀ st : store,
    (∀ p, ¬ under OUTPUT_DIR p → st !! p = s !! p) →
    outcome_of (for_each l (process_file cfg)) st = Ok tt
    ∨ ∃ e, outcome_of (for_each l (process_file cfg)) st = Raise e
           ∧ (e = FileExistsError ∨ e = NotADirectoryError
              ∨ e = IsADirectoryError).
Proof.
  intros Hl. induction l as [|src l IH]; intros st Hst; [by left|].
  cbn [for_each]. rewrite outcome_bind.
  destruct (Hl src) as [Hu [f Hf]]; [left|].
  destruct (under_inv _ _ Hu) as (rel & Hrel & ->).
  destruct (process_file_outcome rel st f Hrel) as [->|(e & -> & He)].
  - rewrite Hst; [done|]. apply source_not_under_output.
  - apply IH; [intros y Hy; apply Hl; by right|].
    intros p Hp. rewrite <- Hst by done.
    by apply (touches_exec_lookup _ _ _ _ _ (process_file_within rel Hrel)).
  - right. by exists e.
Qed.

(** X2. Whatever the store and the codec, [main] either runs to its end or
    stops with the exception of line 125 or line 138: a file where a
    directory is needed, or a directory where [shutil.copy2] is to write. In
    every store it passes through all files that are not below the output
    root are as before the run, no directory has gone, and the new
    directories are the output root and directories below it: the source tree
    is never modified, and nothing is written outside the output root. *)
Theorem main_stays_within_output (s : store) :
  (outcome_of (main cfg) s = Ok tt
   ∨ ∃ e, outcome_of (main cfg) s = Raise e
          ∧ (e = FileExistsError ∨ e = NotADirectoryError
             ∨ e = IsADirectoryError))
  ∧ ∀ st, st ∈ (main cfg s).1 →
      (∀ p, ¬ under OUTPUT_DIR p → st !! p = s !! p)
      ∧ dirs s ⊆ dirs st
      ∧ ∀ d, d ∈ dirs st → d ∈ dirs s ∨ OUTPUT_DIR `prefix_of` d.
Proof.
  split.
  - unfold outcome_of. rewrite main_run. case_bool_decide as Hnil; [by left|].
    apply (loop_outcome s); [|done].
    by intros src Hsrc%walk_files_under.
  - intros st Hst.
    apply (main_touches_steps cfg (under OUTPUT_DIR)
             (λ d, OUTPUT_DIR `prefix_of` d) s); [|done].
    intros src [Hu _]%walk_files_under.
    destruct (under_inv _ _ Hu) as (rel & Hrel & ->).
    by apply process_file_within.
Qed.

End WholeRuns.

(** A file stands where the directory of [x.png/y.txt] is needed. *)
Example main_blocked_tree :
  outcome_of (WithSource.main (H := Samples.halving_codec)
                WithSource.source_config) Samples.blocked_tree
  = Raise FileExistsError.
Proof. vm_compute. reflexivity. Qed.

(** ** Failures before anything is written *)
Section EarlyFailures.
Import WithSource.
Context `{Codec} (cfg : Config).


Lemma ext_to_format_keys (ext fmt : string) :
  EXT_TO_FORMAT !! ext = Some fmt → ext ∈ IMAGE_EXTENSIONS.
Proof.
  unfold EXT_TO_FORMAT. intros Hl%elem_of_list_to_map_2.
  apply elem_of_list_to_set.
  repeat (apply elem_of_cons in Hl as [[= -> _] | Hl];
          [repeat first [by left | right]|]).
  by apply elem_of_nil in Hl.
Qed.

(** X4. The save format is missing exactly when no target format is
    configured and the lower-cased extension of the input is not one of
    [IMAGE_EXTENSIONS]; the error is then the [ValueError] of line 59. With a
    target format the format is its upper-case form and the extension a dot
    and its lower-case form, whatever the input. *)
Theorem resolve_format_cases (input : path) :
  ((∃ e, resolve_format cfg input = Raise e)
   ↔ target cfg = None
     ∧ PyStr.lower (splitext (basename input)).2 ∉ IMAGE_EXTENSIONS)
  ∧ (∀ e, resolve_format cfg input = Raise e →
          e = ValueError "Unsupported output format")
  ∧ (∀ t, target cfg = Some t →
          resolve_format cfg input
          = Ok (PyStr.upper t, "." +:+ PyStr.lower t)).
Proof.
  split; [|split].
  - unfold resolve_format. destruct (target cfg) as [t|] eqn:Ht.
    { split; [by intros [e ?]|by intros [? _]]. }
    destruct (EXT_TO_FORMAT !! _) as [fmt|] eqn:Hfmt.
    + split; [by intros [e ?]|]. intros [_ Hno]. destruct Hno.
      by eapply ext_to_format_keys.
    + split; [|by eexists]. intros _. split; [done|]. intros Hin.
      assert (is_image input = true) as Himg by (by apply bool_decide_eq_true_2).
      destruct (resolve_format_image cfg input Himg) as [fe Hfe].
      unfold resolve_format in Hfe. by rewrite Ht, Hfmt in Hfe.
  - intros e. unfold resolve_format. destruct (target cfg); [done|].
    destruct (EXT_TO_FORMAT !! _); [done|]. by intros [= <-].
  - intros t Ht. unfold resolve_format. by rewrite Ht.
Qed.

End EarlyFailures.

(** ** The range of the quality *)
Section QualityRange.
Import WithSource.

Lemma save_params_lossy (cfg : Config) (fmt : string) (n : Z) :
  fmt = "WEBP" ∨ fmt = "JPEG" →
  save_params cfg fmt n
  = SaveKwargs
      (Some (if negb (Qle_bool (inject_Z n) (THRESHOLD cfg))
             then Z.max 1 (QUALITY cfg - AGGRESSIVE_DROP cfg)
             else QUALITY cfg)) None.
Proof.
  intros Hfmt. unfold save_params.
  by rewrite bool_decide_eq_true_2 by (destruct Hfmt as [-> | ->]; set_solver).
Qed.

(** X5. For WEBP and JPEG, when [QUALITY] is at least 1 and
    [AGGRESSIVE_DROP] is not negative, the quality passed to [img.save] lies
    between 1 and [QUALITY], and a larger original never gets a higher
    quality than a smaller one. *)
Theorem quality_in_range (cfg : Config) (fmt : string) (n m : Z) :
  fmt = "WEBP" ∨ fmt = "JPEG" →
  (1 ≤ QUALITY cfg)%Z → (0 ≤ AGGRESSIVE_DROP cfg)%Z →
  ∃ qn qm,
    save_params cfg fmt n = SaveKwargs (Some qn) None
    ∧ save_params cfg fmt m = SaveKwargs (Some qm) None
    ∧ (1 ≤ qn ≤ QUALITY cfg)%Z
    ∧ ((n ≤ m)%Z → (qm ≤ qn)%Z).
Proof.
  intros Hfmt Hq Hd. rewrite !save_params_lossy by done.
  eexists _, _. split; [done|]. split; [done|]. split.
  - destruct (Qle_bool (inject_Z n) (THRESHOLD cfg)); cbn [negb]; lia.
  - intros Hnm.
    destruct (Qle_bool (inject_Z n) (THRESHOLD cfg)) eqn:Hn,
             (Qle_bool (inject_Z m) (THRESHOLD cfg)) eqn:Hm;
      cbn [negb]; try lia.
    apply Qle_bool_iff in Hm. apply Qle_bool_false in Hn.
    exfalso. apply (Qlt_not_le _ _ Hn).
    eapply Qle_trans; [|exact Hm]. rewrite <- Zle_Qle. done.
Qed.

(** X6. With the settings of the script, a JPEG or WEBP original of
    1258292 bytes or more is saved at quality 65, and a smaller one at
    quality 85: the float [1.2 * 1024 * 1024] lies strictly between 1258291
    and 1258292. *)
Theorem source_quality_cutoff (fmt : string) (n : Z) :
  fmt = "WEBP" ∨ fmt = "JPEG" →
  save_params source_config fmt n
  = SaveKwargs (Some (if (1258292 <=? n)%Z then 65 else 85)%Z) None.
Proof.
  intros Hfmt. rewrite save_params_lossy by done. do 2 f_equal.
  destruct (Qle_bool (inject_Z n) (THRESHOLD source_config)) eqn:Hn; cbn [negb].
  - apply Qle_bool_iff in Hn. rewrite (proj2 (Z.leb_gt _ _)); [done|].
    unfold Qle in Hn. simpl in Hn. lia.
  - apply Qle_bool_false, source_threshold in Hn.
    rewrite (proj2 (Z.leb_le _ _)); [done|lia].
Qed.

End QualityRange.

Lemma quality_in_range_witness :
  ∃ qn qm,
    WithSource.save_params WithSource.source_config "JPEG" 500
    = SaveKwargs (Some qn) None
    ∧ WithSource.save_params WithSource.source_config "JPEG" 5000000
      = SaveKwargs (Some qm) None
    ∧ (1 ≤ qn ≤ 85)%Z
    ∧ ((500 ≤ 5000000)%Z → (qm ≤ qn)%Z).
Proof.
  apply (quality_in_range WithSource.source_config "JPEG" 500 5000000).
  - by right.
  - vm_compute. discriminate.
  - vm_compute. discriminate.
Defined.

Lemma source_quality_cutoff_witness :
  WithSource.save_params WithSource.source_config "WEBP" 1258292
  = SaveKwargs (Some (if (1258292 <=? 1258292)%Z then 65 else 85)%Z) None.
Proof. apply (source_quality_cutoff "WEBP" 1258292). by left. Defined.


Lemma resolve_format_cases_witness :
  WithSource.resolve_format WithSource.source_config ["sourceImages"; "readme.txt"]
  = Raise (ValueError "Unsupported output format").
Proof.
  destruct (proj2 (proj1 (resolve_format_cases WithSource.source_config
                     ["sourceImages"; "readme.txt"]))) as [e He].
  - split; [reflexivity|]. intros Hin.
    apply (bool_decide_eq_true_2 _) in Hin. vm_compute in Hin. discriminate.
  - rewrite He. f_equal.
    exact (proj1 (proj2 (resolve_format_cases WithSource.source_config
                           ["sourceImages"; "readme.txt"])) e He).
Defined.

(** ** A call in place *)
Section InPlace.
Import WithSource.
Context `{Codec} (cfg : Config).


End InPlace.


(** ** The download pipeline *)
Section Download.
Import WithLinks.
Context `{Codec}.
Variable http_get : string → option (list (list byte)).
Variable TARGET_FORMAT : string.

Lemma foldl_chunks (chunks : list (list byte)) (buffer : list byte) :
  foldl (λ buffer chunk,
           match chunk with [] => buffer | _ => buffer ++ chunk end)
        buffer chunks
  = buffer ++ concat chunks.
Proof.
  revert buffer. induction chunks as [|c chunks IH]; intros buffer.
  - by rewrite app_nil_r.
  - cbn [foldl concat]. rewrite IH. destruct c; [done|].
    by rewrite <- app_assoc.
Qed.

Lemma gather_chunks_eq (chunks : list (list byte)) :
  gather_chunks chunks = concat chunks.
Proof. unfold gather_chunks. by rewrite foldl_chunks. Qed.

(** X8. The buffer that [download_and_compress_image] hands to
    [Image.open] is the body of the response: the chunks in order, the test
    that skips an empty chunk drops no byte. *)
Theorem gather_chunks_concat (chunks : list (list byte)) :
  gather_chunks chunks = concat chunks.
Proof. apply gather_chunks_eq. Qed.


Lemma download_touches (url : string) (save_path : path) :
  touches (λ p, p = save_path) (λ _, False)
    (download_and_compress_image http_get TARGET_FORMAT url save_path).
Proof.
  unfold download_and_compress_image, mbind, M_bind.
  apply touches_try; [|intros e; apply touches_ret].
  apply touches_bind.
  { unfold fetch. destruct (http_get url); [apply touches_ret|apply touches_raise]. }
  intros buffer. apply touches_bind.
  { unfold Image_open_bytes.
    destruct (decode buffer); [apply touches_ret|apply touches_raise]. }
  intros img. apply touches_bind; [|intros _; apply touches_ret].
  repeat case_bool_decide;
    [by apply touches_Image_save..|apply touches_raise].
Qed.

Lemma download_writes (url : string) (save_path : path) (s st : store)
    (p : path) :
  st ∈ (download_and_compress_image http_get TARGET_FORMAT url save_path s).1 →
  p ≠ save_path → st !! p = s !! p.
Proof.
  intros Hst Hp.
  by apply (download_touches url save_path s st Hst).
Qed.

(** X9. [download_and_compress_image] never raises, and every store it
    passes through differs from the one it started in at [save_path] at
    most. *)
Theorem download_touches_save_path (url : string) (save_path : path)
    (s : store) :
  (∃ o, outcome_of
          (download_and_compress_image http_get TARGET_FORMAT url save_path) s
        = Ok o)
  ∧ ∀ st : store,
      st ∈ (download_and_compress_image http_get TARGET_FORMAT url save_path
              s).1 →
      ∀ p, p ≠ save_path → st !! p = s !! p.
Proof.
  split; [apply download_returns|].
  intros st Hst p Hp. by eapply download_writes.
Qed.



End Download.


(** ** When two files share a destination *)
Section Collisions.
Import WithSource.
Context `{Codec} (cfg : Config).

Lemma lower_ascii_dot (c : ascii) :
  PyStr.lower_ascii c = "."%char → c = "."%char.
Proof. by destruct c as [[] [] [] [] [] [] [] []]. Qed.

Lemma lower_ascii_idemp (c : ascii) :
  PyStr.lower_ascii (PyStr.lower_ascii c) = PyStr.lower_ascii c.
Proof. by destruct c as [[] [] [] [] [] [] [] []]. Qed.

Lemma lower_idemp (s : string) : PyStr.lower (PyStr.lower s) = PyStr.lower s.
Proof.
  induction s as [|c s IH]; [done|]. cbn [PyStr.lower].
  by rewrite lower_ascii_idemp, IH.
Qed.

Lemma split_last_dot_ext (s b e : string) :
  split_last_dot s = Some (b, e) →
  ∃ e0, e = String "." e0 ∧ split_last_dot e0 = None.
Proof.
  revert b e. induction s as [|c s IH]; intros b e; cbn [split_last_dot]; [done|].
  destruct (split_last_dot s) as [[b' e']|] eqn:E.
  - intros [= <- <-]. by eapply IH.
  - case_decide as Hc; [|done]. intros [= <- <-]. subst c. by exists s.
Qed.

Lemma split_last_dot_build (b e0 : string) :
  split_last_dot e0 = None →
  split_last_dot (b +:+ String "." e0) = Some (b, String "." e0).
Proof.
  intros He. induction b as [|c b IH].
  - rewrite app_empty_l. cbn [split_last_dot]. rewrite He.
    by rewrite decide_True.
  - rewrite app_cons. cbn [split_last_dot]. by rewrite IH.
Qed.

Lemma split_last_dot_lower (s : string) :
  split_last_dot s = None → split_last_dot (PyStr.lower s) = None.
Proof.
  induction s as [|c s IH]; [done|]. cbn [split_last_dot PyStr.lower].
  destruct (split_last_dot s) as [[b e]|]; [done|].
  case_decide as Hc; [done|]. intros _. rewrite IH by done.
  rewrite decide_False; [done|]. by intros ?%lower_ascii_dot.
Qed.

Lemma splitext_cases (name : string) :
  splitext name = (name, EmptyString)
  ∨ ∃ b e0, splitext name = (b, String "." e0)
            ∧ split_last_dot e0 = None ∧ all_dots b = false.
Proof.
  unfold splitext. destruct (split_last_dot name) as [[b e]|] eqn:E; [|by left].
  destruct (all_dots b) eqn:Hb; [by left|]. right.
  destruct (split_last_dot_ext _ _ _ E) as (e0 & -> & He0). by exists b, e0.
Qed.

(** A base name and an extension that [os.path.splitext] has returned, the
    extension possibly lower-cased, are again what it returns on their
    concatenation. *)
Lemma splitext_rebuild (name : string) (lower_it : bool) :
  let b := (splitext name).1 in
  let e := if lower_it then PyStr.lower (splitext name).2 else (splitext name).2 in
  splitext (b +:+ e) = (b, e).
Proof.
  intros b e. subst b e. destruct lower_it.
  2:{ rewrite splitext_app. by destruct (splitext name). }
  destruct (splitext_cases name) as [E|(b & e0 & E & He0 & Hb)].
  - rewrite E. cbn [fst snd PyStr.lower]. by rewrite app_empty_r.
  - rewrite E. cbn [fst snd PyStr.lower].
    replace (PyStr.lower_ascii ".") with "."%char by reflexivity.
    unfold splitext.
    rewrite split_last_dot_build by (by apply split_last_dot_lower).
    by rewrite Hb.
Qed.

Lemma string_app_inv_tail (a b c : string) : a +:+ c = b +:+ c → a = b.
Proof.
  revert b. induction a as [|x a IH]; intros [|y b] E.
  - done.
  - apply (f_equal String.length) in E.
    rewrite app_empty_l, app_cons in E. cbn [String.length] in E.
    rewrite string_app_length in E. lia.
  - apply (f_equal String.length) in E.
    rewrite app_empty_l, app_cons in E. cbn [String.length] in E.
    rewrite string_app_length in E. lia.
  - rewrite !app_cons in E. injection E as -> E. f_equal. by apply IH.
Qed.

Lemma dest_path_eq_name (rel1 rel2 : path) (n1 n2 : string) :
  OUTPUT_DIR ++ removelast rel1 ++ [n1] = OUTPUT_DIR ++ removelast rel2 ++ [n2]
  ↔ removelast rel1 = removelast rel2 ∧ n1 = n2.
Proof.
  split.
  - intros E%app_inv_head. by apply app_inj_tail in E.
  - by intros [-> ->].
Qed.

(** X12. With no target format, two files below the source root get the
    same destination exactly when they lie in the same directory, have the
    same base name and are both images or both not, with extensions that
    are equal for files that are not images and equal up to case for
    images. So files that are not images never share a destination, and
    neither do an image and a file that is not one. *)
Theorem dest_path_same_iff (rel1 rel2 : path) :
  rel1 ≠ [] → rel2 ≠ [] → target cfg = None →
  let src1 := SOURCE_DIR ++ rel1 in
  let src2 := SOURCE_DIR ++ rel2 in
  let ext1 := (splitext (basename src1)).2 in
  let ext2 := (splitext (basename src2)).2 in
  dest_path cfg src1 = dest_path cfg src2
  ↔ dirname src1 = dirname src2
    ∧ (splitext (basename src1)).1 = (splitext (basename src2)).1
    ∧ is_image src1 = is_image src2
    ∧ (if is_image src1 then PyStr.lower ext1 = PyStr.lower ext2
       else ext1 = ext2).
Proof.
  intros Hr1 Hr2 Ht src1 src2 ext1 ext2. subst src1 src2 ext1 ext2.
  rewrite !dest_path_source, !dirname_source, !basename_source by done.
  rewrite Ht, dest_path_eq_name.
  set (n1 := List.last rel1 EmptyString). set (n2 := List.last rel2 EmptyString).
  assert (∀ rel, rel ≠ [] →
    is_image (SOURCE_DIR ++ rel)
    = bool_decide (PyStr.lower (splitext (List.last rel EmptyString)).2
                   ∈ IMAGE_EXTENSIONS)) as Himg.
  { intros rel Hrel. unfold is_image. by rewrite basename_source. }
  rewrite !Himg by done. fold n1 n2.
  pose proof (splitext_rebuild n1) as R1. pose proof (splitext_rebuild n2) as R2.
  cbv zeta in R1, R2.
  split.
  - intros [Hd Hn]. split; [by rewrite Hd|].
    destruct (bool_decide (PyStr.lower (splitext n1).2 ∈ IMAGE_EXTENSIONS)) eqn:I1,
             (bool_decide (PyStr.lower (splitext n2).2 ∈ IMAGE_EXTENSIONS)) eqn:I2.
    + pose proof (R1 true) as E1. pose proof (R2 true) as E2.
      cbv iota in E1, E2. rewrite Hn, E2 in E1. by injection E1 as <- <-.
    + pose proof (R1 true) as E1. pose proof (R2 false) as E2.
      cbv iota in E1, E2. rewrite Hn, E2 in E1. injection E1 as Hb He.
      apply bool_decide_eq_true_1 in I1. apply bool_decide_eq_false_1 in I2.
      destruct I2. by rewrite He, lower_idemp.
    + pose proof (R1 false) as E1. pose proof (R2 true) as E2.
      cbv iota in E1, E2. rewrite Hn, E2 in E1. injection E1 as Hb He.
      apply bool_decide_eq_false_1 in I1. apply bool_decide_eq_true_1 in I2.
      destruct I1. by rewrite <- He, lower_idemp.
    + pose proof (R1 false) as E1. pose proof (R2 false) as E2.
      cbv iota in E1, E2. rewrite Hn, E2 in E1. by injection E1 as <- <-.
  - intros (Hd & Hb & Hi & He). apply app_inv_head in Hd.
    split; [done|]. rewrite <- Hi, Hb.
    destruct (bool_decide _); by rewrite He.
Qed.

(** X13. With a target format, two images below the source root get the
    same destination exactly when they lie in the same directory and have
    the same base name: the extensions play no part. *)
Theorem dest_path_target_clash (t : string) (rel1 rel2 : path) :
  rel1 ≠ [] → rel2 ≠ [] → target cfg = Some t →
  let src1 := SOURCE_DIR ++ rel1 in
  let src2 := SOURCE_DIR ++ rel2 in
  is_image src1 = true → is_image src2 = true →
  dest_path cfg src1 = dest_path cfg src2
  ↔ dirname src1 = dirname src2
    ∧ (splitext (basename src1)).1 = (splitext (basename src2)).1.
Proof.
  intros Hr1 Hr2 Ht src1 src2 I1 I2. subst src1 src2.
  rewrite !dest_path_source, !dirname_source, !basename_source by done.
  rewrite I1, I2, Ht, dest_path_eq_name. split.
  - intros [Hd Hn]. split; [by rewrite Hd|]. by eapply string_app_inv_tail.
  - intros [Hd Hb]. apply app_inv_head in Hd. by rewrite Hb.
Qed.

End Collisions.

Lemma dest_path_same_iff_witness :
  WithSource.dest_path WithSource.source_config ["sourceImages"; "a.JPG"]
  = WithSource.dest_path WithSource.source_config ["sourceImages"; "a.jpg"].
Proof.
  apply (dest_path_same_iff WithSource.source_config ["a.JPG"] ["a.jpg"]);
    [done|done|reflexivity|].
  vm_compute. repeat split.
Defined.

Lemma dest_path_target_clash_witness :
  let cfg := {| WithSource.TARGET_FORMAT := Some "webp";
                WithSource.QUALITY := 85;
                WithSource.THRESHOLD := 1258291;
                WithSource.AGGRESSIVE_DROP := 20 |} in
  WithSource.dest_path cfg ["sourceImages"; "d"; "a.png"]
  = WithSource.dest_path cfg ["sourceImages"; "d"; "a.gif"].
Proof.
  intros cfg.
  apply (dest_path_target_clash cfg "webp" ["d"; "a.png"] ["d"; "a.gif"]);
    [done|done|reflexivity|vm_compute; reflexivity..|].
  vm_compute. repeat split.
Defined.

(** ** What a match tells about the text *)
Section MatcherInversion.
Import Re.
Context {A : Type}.
Implicit Types (k : mstate → option A) (p : N → bool) (s w : text)
  (pv : option N) (gs : list text).

Lemma run_cls_inv p k (st : mstate) (a : A) :
  run (Cls p) k st = Some a →
  ∃ (c : N) s, rest st = c :: s ∧ p c = true
               ∧ k (MState (Some c) s (groups st)) = Some a.
Proof.
  cbn [run]. destruct (rest st) as [|c s]; [done|].
  destruct (p c) eqn:Hc; [|done]. intros Hk. by exists c, s.
Qed.

Lemma run_chr_inv (c : N) k (st : mstate) (a : A) :
  run (chr c) k st = Some a →
  ∃ s, rest st = c :: s ∧ k (MState (Some c) s (groups st)) = Some a.
Proof.
  intros (d & s & Hs & Hd%N.eqb_eq & Hk)%run_cls_inv. subst d. by exists s.
Qed.

Lemma run_lit_inv w (r : regex) k (st : mstate) (a : A) :
  run (lit w r) k st = Some a →
  ∃ s, rest st = w ++ s
       ∧ run r k (MState (prev_after (prev st) w) s (groups st)) = Some a.
Proof.
  revert st. induction w as [|c w IH]; intros [pv s gs].
  - intros Hr. by exists s.
  - cbn [lit]. rewrite run_cat.
    intros (s' & Hs & Hk)%run_chr_inv. cbn [rest groups prev] in *.
    apply IH in Hk as (s'' & Hs' & Hk). cbn [rest groups prev] in *.
    exists s''. split; [by rewrite Hs, Hs'|]. by rewrite prev_after_cons.
Qed.

Lemma star_greedy_inv p k pv s gs (a : A) :
  star_greedy p k pv s gs = Some a →
  ∃ (xs : text) s', s = xs ++ s' ∧ Forall (λ c, p c = true) xs
                    ∧ k (MState (prev_after pv xs) s' gs) = Some a.
Proof.
  revert pv. induction s as [|c s IH]; intros pv.
  - cbn [star_greedy]. intros Hk. by exists [], [].
  - cbn [star_greedy]. destruct (p c) eqn:Hc.
    + destruct (star_greedy p k (Some c) s gs) as [a'|] eqn:Hs.
      * intros [= ->]. apply IH in Hs as (xs & s' & -> & Hxs & Hk).
        exists (c :: xs), s'. split; [done|]. split; [by constructor|].
        by rewrite prev_after_cons.
      * intros Hk. by exists [], (c :: s).
    + intros Hk. by exists [], (c :: s).
Qed.

(** A lazy repetition has stopped at the first position from which what
    follows could be matched. *)
Lemma star_lazy_inv p k pv s gs (a : A) :
  star_lazy p k pv s gs = Some a →
  ∃ (xs : text) s',
    s = xs ++ s' ∧ Forall (λ c, p c = true) xs
    ∧ k (MState (prev_after pv xs) s' gs) = Some a
    ∧ ∀ (ys zs : text), xs = ys ++ zs → zs ≠ [] →
        k (MState (prev_after pv ys) (zs ++ s') gs) = None.
Proof.
  revert pv. induction s as [|c s IH]; intros pv.
  - cbn [star_lazy]. destruct (k (MState pv [] gs)) as [a'|] eqn:Hk; [|done].
    intros [= ->]. exists [], []. repeat split; [done|done|].
    intros ys zs E. symmetry in E. apply app_eq_nil in E as [_ ->]. done.
  - cbn [star_lazy]. destruct (k (MState pv (c :: s) gs)) as [a'|] eqn:Hk.
    + intros [= ->]. exists [], (c :: s). repeat split; [done|done|].
      intros ys zs E. symmetry in E. apply app_eq_nil in E as [_ ->]. done.
    + destruct (p c) eqn:Hc; [|done].
      intros (xs & s' & -> & Hxs & Ha & Hfirst)%IH.
      exists (c :: xs), s'. split; [done|]. split; [by constructor|].
      split; [by rewrite prev_after_cons|].
      intros [|y ys] zs E Hz.
      * cbn [app] in E. subst zs. exact Hk.
      * cbn [app] in E. injection E as <- ->.
        rewrite prev_after_cons. by apply Hfirst.
Qed.

End MatcherInversion.

Section ScanInversion.
Import Re.
Implicit Types (r : regex) (s w : text) (pv : option N).

(** Every element of a scan is the group list of a match at some position
    of the text. *)
Lemma scan_sound r s :
  ∀ pv (skip : nat) (gs : list text),
    gs ∈ scan r pv s skip →
    ∃ (pre post : text) (st : mstate),
      s = pre ++ post
      ∧ match_at r (prev_after pv pre) post = Some st
      ∧ groups st = gs.
Proof.
  induction s as [|c s IH]; intros pv skip gs.
  - destruct skip as [|n]; cbn [scan]; [|by intros ?%elem_of_nil].
    destruct (match_at r pv []) as [st|] eqn:Hm; [|by intros ?%elem_of_nil].
    intros ->%list_elem_of_singleton. by exists [], [], st.
  - assert (∀ n, gs ∈ scan r (Some c) s n →
              ∃ (pre post : text) (st : mstate),
                c :: s = pre ++ post
                ∧ match_at r (prev_after pv pre) post = Some st
                ∧ groups st = gs) as Hrec.
    { intros n (pre & post & st & -> & Hm & Hg)%IH.
      exists (c :: pre), post, st. split; [done|].
      by rewrite prev_after_cons. }
    destruct skip as [|n]; cbn [scan]; [|by apply Hrec].
    destruct (match_at r pv (c :: s)) as [st|] eqn:Hm; [|by apply Hrec].
    intros [->|Hin]%elem_of_cons; [|by eapply Hrec].
    by exists [], (c :: s), st.
Qed.

End ScanInversion.

(** ** The two patterns, read backwards *)
Section PatternInversion.
Import Re WithLinks.

(** A match of the URL pattern is a quote, a scheme, at least one character
    that is no closing quote, and a quote; the group is what stands between
    the quotes. *)
Lemma url_match_inv (pv : option N) (s : text) (st : mstate) :
  match_at url_pattern pv s = Some st →
  ∃ (q : N) (sch w : text) (c : N),
    s = q :: (sch ++ w) ++ c :: rest st
    ∧ open_quote q = true ∧ close_quote c = true
    ∧ (sch = text_of "http://" ∨ sch = text_of "https://")
    ∧ w ≠ [] ∧ Forall (λ x, url_char x = true) w
    ∧ groups st = [sch ++ w].
Proof.
  unfold match_at, url_pattern. rewrite run_cat.
  intros (q & s1 & Hs & Hq & Hm)%run_cls_inv. cbn [rest groups] in *.
  subst s. rewrite run_cat, run_grp, run_cat, run_wordb in Hm.
  cbn [rest groups prev] in Hm.
  destruct (xorb _ _); [|done].
  apply run_lit_inv in Hm as (s2 & Hs1 & Hm). cbn [rest groups prev] in *.
  rewrite run_cat, run_opt in Hm.
  assert (∃ (o s3 : text) pv3,
            (o = [] ∨ o = [115%N]) ∧ s2 = o ++ s3
            ∧ run (lit (text_of "://") (Cat (Cls url_char) (Star true url_char)))
                (λ st', run (Cls close_quote) Some
                   (MState (prev st') (rest st')
                      (groups st'
                       ++ [take (length s1 - length (rest st')) s1])))
                (MState pv3 s3 []) = Some st) as (o & s3 & pv3 & Ho & Hs2 & Hm').
  { match type of Hm with
    | match ?x with _ => _ end = _ => destruct x as [st'|] eqn:Hopt
    end.
    - injection Hm as ->.
      apply run_chr_inv in Hopt as (s3 & Hs2 & Hk). cbn [rest groups] in *.
      exists [115%N], s3, (Some 115%N). auto.
    - eexists [], s2, _. split; [by left|]. split; [done|]. exact Hm. }
  clear Hm.
  apply run_lit_inv in Hm' as (s4 & Hs3 & Hm). cbn [rest groups prev] in *.
  rewrite run_cat in Hm.
  apply run_cls_inv in Hm as (u0 & s5 & Hs4 & Hu0 & Hm).
  cbn [rest groups prev] in *. rewrite run_star_greedy in Hm.
  cbn [rest groups prev] in *.
  apply star_greedy_inv in Hm as (us & s6 & Hs5 & Hus & Hm).
  cbn [rest groups prev] in *.
  apply run_cls_inv in Hm as (c & s7 & Hs6 & Hc & Hm).
  cbn [rest groups prev] in *. injection Hm as <-. cbn [rest groups].
  subst s6 s5 s4 s3 s2.
  exists q, (text_of "http" ++ o ++ text_of "://"), (u0 :: us), c.
  assert (s1 = ((text_of "http" ++ o ++ text_of "://") ++ u0 :: us) ++ c :: s7)
    as Hs1' by (rewrite Hs1, <- !app_assoc; done).
  split; [by rewrite Hs1'|]. split; [done|]. split; [done|].
  split; [destruct Ho as [-> | ->]; auto|]. split; [done|].
  split; [by constructor|].
  rewrite Hs1'. by rewrite take_app_minus.
Qed.

(** A match of the block pattern starts at the beginning of a line and is a
    category without newline, blanks with a newline among them, and an array
    that ends at its first closing bracket. *)
Lemma pattern_match_inv (pv : option N) (s : text) (st : mstate) :
  match_at pattern pv s = Some st →
  ∃ (cat sp1 sp2 body : text),
    s = cat ++ sp1 ++ NL :: sp2 ++ LBRACKET :: body ++ RBRACKET :: rest st
    ∧ (pv = None ∨ pv = Some NL)
    ∧ cat ≠ [] ∧ Forall (λ x, x ≠ NL) cat
    ∧ Forall (λ x, is_space x = true) sp1
    ∧ Forall (λ x, is_space x = true) sp2
    ∧ (RBRACKET ∉ body)
    ∧ groups st = [cat; LBRACKET :: body ++ [RBRACKET]].
Proof.
  unfold match_at, pattern. rewrite run_cat, run_bol.
  intros Hm.
  assert (pv = None ∨ pv = Some NL) as Hpv.
  { destruct pv as [c|]; [|by left]. destruct (c =? 10)%N eqn:E; [|done].
    apply N.eqb_eq in E. subst c. by right. }
  assert (run
    (Cat (Grp (Cat (Cls not_newline) (Star true not_newline)))
     (Cat (Star true is_space)
      (Cat (chr NL)
       (Cat (Star true is_space)
          (Grp (Cat (chr LBRACKET) (Cat (Star false any_char) (chr RBRACKET))))))))
    Some (MState pv s []) = Some st) as Hm'.
  { destruct pv as [c|]; [|done]. by destruct (c =? 10)%N. }
  clear Hm. rewrite run_cat, run_grp, run_cat in Hm'.
  apply run_cls_inv in Hm' as (c0 & s1 & Hs & Hc0 & Hm).
  cbn [rest groups prev] in *. rewrite run_star_greedy in Hm.
  cbn [rest groups prev] in *.
  apply star_greedy_inv in Hm as (cs & s2 & Hs1 & Hcs & Hm).
  cbn [rest groups prev] in *. rewrite run_cat, run_star_greedy in Hm.
  cbn [rest groups prev] in *.
  apply star_greedy_inv in Hm as (sp1 & s3 & Hs2 & Hsp1 & Hm).
  rewrite run_cat in Hm.
  apply run_chr_inv in Hm as (s4 & Hs3 & Hm). cbn [rest groups prev] in *.
  rewrite run_cat, run_star_greedy in Hm. cbn [rest groups prev] in *.
  apply star_greedy_inv in Hm as (sp2 & s5 & Hs4 & Hsp2 & Hm).
  rewrite run_grp, run_cat in Hm. cbn [rest groups prev] in *.
  apply run_chr_inv in Hm as (s6 & Hs5 & Hm). cbn [rest groups prev] in *.
  rewrite run_cat, run_star_lazy in Hm. cbn [rest groups prev] in *.
  apply star_lazy_inv in Hm as (body & s7 & Hs6 & _ & Hm & Hfirst).
  apply run_chr_inv in Hm as (s8 & Hs7 & Hm). cbn [rest groups prev] in *.
  injection Hm as <-. cbn [rest groups].
  exists (c0 :: cs), sp1, sp2, body.
  subst s7 s6 s5 s4 s3 s2 s1.
  split; [by rewrite Hs|]. split; [done|]. split; [done|].
  split.
  { constructor.
    - intros ->. done.
    - eapply Forall_impl; [exact Hcs|]. intros x Hx ->. done. }
  split; [done|]. split; [done|]. split.
  { intros (ys & zs & ->)%list_elem_of_split.
    specialize (Hfirst ys (RBRACKET :: zs) eq_refl).
    rewrite <- app_comm_cons, run_chr in Hfirst. by discriminate Hfirst. }
  f_equal.
  - rewrite Hs. change (c0 :: cs ++ ?x) with ((c0 :: cs) ++ x).
    by rewrite take_app_minus.
  - f_equal.
    change (LBRACKET :: body ++ RBRACKET :: s8)
      with ((LBRACKET :: body) ++ RBRACKET :: s8).
    rewrite (app_assoc _ [RBRACKET] s8 : (LBRACKET :: body) ++ RBRACKET :: s8
             = ((LBRACKET :: body) ++ [RBRACKET]) ++ s8).
    by rewrite take_app_minus.
Qed.

End PatternInversion.

(** ** [str.strip] *)
Section Strip.
Import Re.
Implicit Types (s t : text).

Lemma lstrip_spaces_app (a b : text) :
  Forall (λ x, is_space x = true) a → lstrip (a ++ b) = lstrip b.
Proof.
  induction 1 as [|x a Hx Ha IH]; [done|]. cbn [app lstrip]. by rewrite Hx.
Qed.

Lemma lstrip_head s (x : N) : head (lstrip s) = Some x → is_space x = false.
Proof.
  induction s as [|c s IH]; [done|]. cbn [lstrip].
  destruct (is_space c) eqn:Hc; [done|]. by intros [= <-].
Qed.

Lemma lstrip_split s :
  ∃ a : text, s = a ++ lstrip s ∧ Forall (λ x, is_space x = true) a.
Proof.
  induction s as [|c s (a & Hs & Ha)]; [by exists []|]. cbn [lstrip].
  destruct (is_space c) eqn:Hc; [|by exists []].
  exists (c :: a). split; [by rewrite Hs at 1|by constructor].
Qed.

Lemma lstrip_app s t : lstrip s ≠ [] → lstrip (s ++ t) = lstrip s ++ t.
Proof.
  induction s as [|c s IH]; [done|]. cbn [app lstrip].
  by destruct (is_space c).
Qed.

Lemma strip_app_spaces s (sp : text) :
  Forall (λ x, is_space x = true) sp → strip (s ++ sp) = strip s.
Proof.
  intros Hsp. unfold strip. destruct (lstrip s) as [|c t] eqn:E.
  - destruct (lstrip_split s) as (a & Hs & Ha). rewrite E, app_nil_r in Hs.
    subst a. rewrite <- (app_nil_r (s ++ sp)).
    rewrite lstrip_spaces_app; [done|]. by apply Forall_app.
  - rewrite lstrip_app by (by rewrite E). rewrite E, reverse_app.
    rewrite lstrip_spaces_app; [done|]. by apply Forall_reverse.
Qed.

(** What [strip] returns stands in the string between blanks, and neither
    starts nor ends with one. *)
Lemma strip_split s :
  ∃ a b : text, s = a ++ strip s ++ b
                ∧ Forall (λ x, is_space x = true) a
                ∧ Forall (λ x, is_space x = true) b.
Proof.
  destruct (lstrip_split s) as (a & Hs & Ha).
  destruct (lstrip_split (reverse (lstrip s))) as (b & Hr & Hb).
  exists a, (reverse b). split; [|split; [done|by apply Forall_reverse]].
  unfold strip. rewrite <- reverse_app, <- Hr, reverse_involutive. done.
Qed.

Lemma strip_head s (x : N) : head (strip s) = Some x → is_space x = false.
Proof.
  intros Hx. destruct (lstrip_split (reverse (lstrip s))) as (b & Hr & Hb).
  apply (lstrip_head s).
  rewrite <- (reverse_involutive (lstrip s)), Hr, reverse_app.
  fold (strip s). rewrite head_app. by rewrite Hx.
Qed.

Lemma strip_last s (x : N) : last (strip s) = Some x → is_space x = false.
Proof. unfold strip. rewrite last_reverse. apply lstrip_head. Qed.

End Strip.

(** ** Where the entries of the mapping come from *)
Section Provenance.
Import Re WithLinks.

Lemma findall_url_inv (t u : text) :
  u ∈ findall url_pattern t →
  ∃ (pre : text) (q : N) (sch w : text) (c : N) (post : text),
    t = pre ++ q :: u ++ c :: post
    ∧ u = sch ++ w
    ∧ open_quote q = true ∧ close_quote c = true
    ∧ (sch = text_of "http://" ∨ sch = text_of "https://")
    ∧ w ≠ [] ∧ Forall (λ x, url_char x = true) w.
Proof.
  unfold findall. intros (gs & -> & Hgs)%list_elem_of_fmap.
  apply scan_sound in Hgs as (pre & post & st & -> & Hm & <-).
  apply url_match_inv in Hm as (q & sch & w & c & -> & Hq & Hc & Hsch & Hw & Hall & ->).
  cbn [head default]. by exists pre, q, sch, w, c, (rest st).
Qed.

(** Every entry of the mapping comes from a block of the text: at the start
    of a line a category, blanks that reach over the end of the line, and an
    array that runs from an opening bracket to the first closing one. *)
Lemma lookup_block_shape (paragraphs : list text) (c : text) (us : list text) :
  read_docx_data paragraphs !! c = Some us →
  ∃ (pre cat sp1 sp2 body post : text),
    str_join [NL] paragraphs
    = pre ++ cat ++ sp1 ++ NL :: sp2 ++ LBRACKET :: body ++ RBRACKET :: post
    ∧ (pre = [] ∨ last pre = Some NL)
    ∧ cat ≠ [] ∧ Forall (λ x, x ≠ NL) cat
    ∧ Forall (λ x, is_space x = true) sp1
    ∧ Forall (λ x, is_space x = true) sp2
    ∧ (RBRACKET ∉ body)
    ∧ c = strip cat
    ∧ us = findall url_pattern (LBRACKET :: body ++ [RBRACKET])
    ∧ us ≠ [].
Proof.
  rewrite read_docx_data_blocks, fold_blocks_lookup, lookup_empty.
  destruct (last (filter (kept_for c) _)) as [[c' us']|] eqn:Hl; [|done].
  intros [= <-]. apply last_Some_elem_of in Hl.
  apply list_elem_of_filter in Hl as [[Hc Hus] Hin]. cbn [fst snd] in *.
  subst c'. unfold category_blocks in Hin.
  apply list_elem_of_fmap in Hin as (m & [= -> ->] & Hm).
  apply scan_sound in Hm as (pre & post & st & Hfull & Hm & <-).
  apply pattern_match_inv in Hm
    as (cat & sp1 & sp2 & body & -> & Hpv & Hcat & Hnl & Hsp1 & Hsp2 & Hbr & Hg).
  rewrite Hg in *. cbn [nth] in *.
  exists pre, cat, sp1, sp2, body, (rest st).
  split; [done|]. split; [|done].
  unfold prev_after in Hpv. destruct (last pre) as [x|] eqn:Hlast.
  - right. by destruct Hpv as [|[= ->]].
  - left. by apply last_None.
Qed.

End Provenance.

(** ** The mapping read from the document *)
Section DocxData.
Import Re WithLinks.

Local Ltac reassoc :=
  repeat (progress (rewrite <- ?app_assoc; cbn [app])).

Local Ltac find_elem :=
  repeat first [ apply list_elem_of_here
               | apply elem_of_app; right
               | apply list_elem_of_further ].

(** X14. Every entry of the mapping of [read_docx_data] comes from a block
    of the joined text: a category that starts a line and has no newline,
    blanks that reach over the end of the line, and an array from an opening
    bracket to the first closing bracket after it. The key is the stripped
    category and the value the non-empty list of all URLs that [re.findall]
    finds in the array. *)
Theorem entry_comes_from_block (paragraphs : list text) (c : text)
    (us : list text) :
  read_docx_data paragraphs !! c = Some us →
  ∃ (pre cat sp1 sp2 body post : text),
    str_join [NL] paragraphs
    = pre ++ cat ++ sp1 ++ NL :: sp2 ++ LBRACKET :: body ++ RBRACKET :: post
    ∧ (pre = [] ∨ last pre = Some NL)
    ∧ cat ≠ [] ∧ Forall (λ x, x ≠ NL) cat
    ∧ Forall (λ x, is_space x = true) sp1
    ∧ Forall (λ x, is_space x = true) sp2
    ∧ (RBRACKET ∉ body)
    ∧ c = strip cat
    ∧ us = findall url_pattern (LBRACKET :: body ++ [RBRACKET])
    ∧ us ≠ [].
Proof. apply lookup_block_shape. Qed.

(** X15. Every URL of the mapping starts with http:// or https://, has at
    least one character after that, contains no straight and no right curly
    double quote and no closing bracket, and stands in the joined text
    between an opening and a closing quote. *)
Theorem extracted_urls_wellformed (paragraphs : list text) (c : text)
    (us : list text) (u : text) :
  read_docx_data paragraphs !! c = Some us → u ∈ us →
  (∃ w : text,
     (u = text_of "http://" ++ w ∨ u = text_of "https://" ++ w)
     ∧ w ≠ []
     ∧ Forall (λ x, x ≠ DQUOTE ∧ x ≠ RDQUOTE ∧ x ≠ RBRACKET) w)
  ∧ ∃ (pre : text) (q cq : N) (post : text),
      str_join [NL] paragraphs = pre ++ q :: u ++ cq :: post
      ∧ open_quote q = true ∧ close_quote cq = true.
Proof.
  intros Hl Hu.
  destruct (lookup_block_shape _ _ _ Hl)
    as (pre & cat & sp1 & sp2 & body & post & Hfull & _ & _ & _ & _ & _
        & Hbr & _ & -> & _).
  apply findall_url_inv in Hu
    as (pre' & q & sch & w & cq & post' & Harr & -> & Hq & Hcq & Hsch & Hw & Hall).
  split.
  - exists w. split; [destruct Hsch as [-> | ->]; auto|]. split; [done|].
    apply Forall_forall. intros x Hx.
    pose proof (proj1 (Forall_forall _ _) Hall x Hx) as Hux.
    unfold url_char in Hux. apply negb_true_iff, orb_false_iff in Hux as [H1 H2].
    apply N.eqb_neq in H1, H2. split; [done|]. split; [done|].
    intros ->. apply Hbr.
    destruct post' as [|z post' _] using rev_ind.
    + change (LBRACKET :: body ++ [RBRACKET])
        with ((LBRACKET :: body) ++ [RBRACKET]) in Harr.
      assert (pre' ++ q :: (sch ++ w) ++ [cq]
              = (pre' ++ q :: sch ++ w) ++ [cq]) as E
        by (reassoc; done).
      rewrite E in Harr. apply app_inj_tail in Harr as [_ <-]. done.
    + change (LBRACKET :: body ++ [RBRACKET])
        with ((LBRACKET :: body) ++ [RBRACKET]) in Harr.
      assert (pre' ++ q :: (sch ++ w) ++ cq :: post' ++ [z]
              = (pre' ++ q :: (sch ++ w) ++ cq :: post') ++ [z]) as E
        by (reassoc; done).
      rewrite E in Harr. apply app_inj_tail in Harr as [Hb _].
      assert (RBRACKET ∈ LBRACKET :: body) as Hin.
      { rewrite Hb. apply elem_of_app. right. apply list_elem_of_further.
        apply elem_of_app. left. apply elem_of_app. by right. }
      by apply elem_of_cons in Hin as [?|?].
  - exists (pre ++ cat ++ sp1 ++ NL :: sp2 ++ pre'), q, cq, (post' ++ post).
    split; [|done]. rewrite Hfull.
    assert (LBRACKET :: body ++ RBRACKET :: post
            = (LBRACKET :: body ++ [RBRACKET]) ++ post) as ->
      by (reassoc; done).
    rewrite Harr. reassoc. done.
Qed.

(** X16. Every key of the mapping is a whole line of the joined text,
    stripped: the line starts the text or follows a newline, and a newline
    follows it. So a key contains no newline and neither starts nor ends
    with a blank. *)
Theorem category_key_is_stripped_line (paragraphs : list text) (c : text) :
  is_Some (read_docx_data paragraphs !! c) →
  (∃ (pre line post : text),
     str_join [NL] paragraphs = pre ++ line ++ NL :: post
     ∧ (pre = [] ∨ last pre = Some NL)
     ∧ (NL ∉ line)
     ∧ c = strip line)
  ∧ (NL ∉ c)
  ∧ (∀ x, head c = Some x → is_space x = false)
  ∧ (∀ x, last c = Some x → is_space x = false).
Proof.
  intros [us Hl].
  destruct (lookup_block_shape _ _ _ Hl)
    as (pre & cat & sp1 & sp2 & body & post & Hfull & Hpre & _ & Hcat & Hsp1
        & _ & _ & -> & _).
  split; [|split; [|split; [apply strip_head|apply strip_last]]].
  - assert (NL ∈ sp1 ++ [NL]) as Hin by (apply elem_of_app; right; left).
    apply list_elem_of_split_l in Hin as (a & b & Hab & Ha).
    assert (Forall (λ x, is_space x = true) a) as Hsa.
    { assert (Forall (λ x, is_space x = true) (sp1 ++ [NL])) as Hall
        by (apply Forall_app; split; [done|by constructor]).
      rewrite Hab in Hall. by apply Forall_app in Hall as [? _]. }
    exists pre, (cat ++ a), (b ++ sp2 ++ LBRACKET :: body ++ RBRACKET :: post).
    split; [|split; [done|split]].
    + rewrite Hfull. f_equal. rewrite <- app_assoc. f_equal.
      change (sp1 ++ NL :: ?x) with (sp1 ++ [NL] ++ x).
      rewrite (app_assoc sp1 [NL]), Hab. by rewrite <- app_assoc.
    + intros [Hin|Hin]%elem_of_app; [|done].
      by apply (proj1 (Forall_forall _ _) Hcat) in Hin.
    + by rewrite strip_app_spaces.
  - destruct (strip_split cat) as (a & b & Hs & _ & _).
    intros Hin. apply (proj1 (Forall_forall _ _) Hcat NL); [|done].
    rewrite Hs. apply elem_of_app. right. apply elem_of_app. by left.
Qed.

(** X17. A document whose joined text lacks a newline, an opening bracket
    or a closing bracket yields the empty mapping: a category and its array
    on one line are not found. *)
Theorem no_block_no_data (paragraphs : list text) :
  NL ∉ str_join [NL] paragraphs
  ∨ LBRACKET ∉ str_join [NL] paragraphs
  ∨ RBRACKET ∉ str_join [NL] paragraphs →
  read_docx_data paragraphs = ∅.
Proof.
  intros Hno. apply map_empty. intros c.
  destruct (read_docx_data paragraphs !! c) as [us|] eqn:Hl; [|done].
  exfalso.
  destruct (lookup_block_shape _ _ _ Hl)
    as (pre & cat & sp1 & sp2 & body & post & Hfull & _).
  rewrite Hfull in Hno.
  destruct Hno as [Hno|[Hno|Hno]]; apply Hno; find_elem.
Qed.

End DocxData.

Lemma entry_comes_from_block_witness :
  ∃ (cat body : Re.text),
    Re.text_of "Cats" = Re.strip cat ∧ (WithLinks.RBRACKET ∉ body)
    ∧ [Re.text_of "https://a/1.jpg"; Re.text_of "https://a/2.jpg"]
      = Re.findall WithLinks.url_pattern
          (WithLinks.LBRACKET :: body ++ [WithLinks.RBRACKET]).
Proof.
  destruct (entry_comes_from_block DocShape.scenario (Re.text_of "Cats")
              [Re.text_of "https://a/1.jpg"; Re.text_of "https://a/2.jpg"])
    as (pre & cat & sp1 & sp2 & body & post & _ & _ & _ & _ & _ & _
        & Hbr & Hc & Hus & _).
  - vm_compute. reflexivity.
  - by exists cat, body.
Defined.

Lemma extracted_urls_wellformed_witness :
  ∃ w : Re.text,
    (Re.text_of "https://a/2.jpg" = Re.text_of "http://" ++ w
     ∨ Re.text_of "https://a/2.jpg" = Re.text_of "https://" ++ w)
    ∧ w ≠ [].
Proof.
  destruct (extracted_urls_wellformed DocShape.scenario (Re.text_of "Cats")
              [Re.text_of "https://a/1.jpg"; Re.text_of "https://a/2.jpg"]
              (Re.text_of "https://a/2.jpg"))
    as [(w & Hw & Hne & _) _].
  - vm_compute. reflexivity.
  - right. left.
  - by exists w.
Defined.

Lemma category_key_is_stripped_line_witness :
  WithLinks.NL ∉ Re.text_of "Cats".
Proof.
  apply (category_key_is_stripped_line DocShape.scenario (Re.text_of "Cats")).
  eexists. vm_compute. reflexivity.
Defined.

Lemma no_block_no_data_witness :
  WithLinks.read_docx_data [Re.text_of "Cats [x]"] = ∅.
Proof.
  apply (no_block_no_data [Re.text_of "Cats [x]"]). left.
  apply (bool_decide_unpack _). vm_compute. reflexivity.
Defined.

(** ** The paths of one run of the walker *)
Section Footprint.
Import WithSource.
Context `{Codec} (cfg : Config).

(** One turn of the loop writes the destination of its file, for an image
    the temporary path beside it, and, when the destination is a directory,
    the file of the source's name in it. *)
Lemma process_file_footprint (src : path) :
  touches
    (λ p, p = dest_path cfg src
          ∨ (is_image src = true ∧ p = add_suffix (dest_path cfg src) ".tmp")
          ∨ p = dest_path cfg src ++ [basename src])
    (λ d, d ∈ ancestors (dirname (dest_path cfg src)))
    (process_file cfg src).
Proof.
  intros s st. rewrite process_file_run. revert s st.
  apply touches_bind; [by apply touches_makedirs|intros _].
  destruct (is_image src).
  - apply touches_bind; [|intros _; apply touches_ret].
    eapply touches_mono; [| |apply compress_touches]; [|done].
    intros p [-> | [-> | ->]]; auto.
  - apply touches_copy2; auto.
Qed.

(** X18. In every store [main] passes through, a file is as it was before
    the run when its path is none of these, for any file found below the
    source root: the destination of the file, the temporary path of the
    file if it is an image, and the path of the file's name in its
    destination, where [shutil.copy2] writes when the destination is a
    directory. *)
Theorem main_touches_only_destinations (s : store) (st : store) (p : path) :
  st ∈ (main cfg s).1 →
  (∀ src, src ∈ walk_files SOURCE_DIR s →
     p ≠ dest_path cfg src
     ∧ (is_image src = true → p ≠ add_suffix (dest_path cfg src) ".tmp")
     ∧ p ≠ dest_path cfg src ++ [basename src]) →
  st !! p = s !! p.
Proof.
  intros Hst Hp.
  apply (main_touches_steps cfg
           (λ p, ∃ src, src ∈ walk_files SOURCE_DIR s
                        ∧ (p = dest_path cfg src
                           ∨ (is_image src = true
                              ∧ p = add_suffix (dest_path cfg src) ".tmp")
                           ∨ p = dest_path cfg src ++ [basename src]))
           (λ _, True) s); [|done|].
  - intros src Hsrc. eapply touches_mono; [| |apply process_file_footprint].
    + intros q Hq. by exists src.
    + done.
  - intros (src & Hsrc & Hq). destruct (Hp src Hsrc) as (Hd & Ht & Hi).
    destruct Hq as [-> | [[Himg ->] | ->]]; [done|by apply Ht|done].
Qed.

(** The turn of an image that [Image.open] does not decode changes no
    file. *)
Lemma process_file_undecodable (src : path) (st : store) (f : file)
    (p : path) :
  is_image src = true → st !! src = Some f → decode (data f) = None →
  exec (process_file cfg src) st !! p = st !! p.
Proof.
  intros Himg Hf Hdec. unfold exec. rewrite process_file_run, Himg.
  set (d := dirname (dest_path cfg src)). set (dot := bool_decide _).
  pose proof (makedirs_files st d dot) as Hfiles. unfold exec in Hfiles.
  destruct (os_makedirs d dot st) as [tr [[]|e]] eqn:Hmk.
  - erewrite bind_run by exact Hmk. cbn [fst snd] in *.
    erewrite bind_run.
    2:{ eapply compress_failed, try_undecodable; [|exact Hdec].
        by rewrite Hfiles. }
    cbn [fst snd app]. by rewrite !app_nil_r.
  - erewrite bind_raise by exact Hmk. apply Hfiles.
Qed.

Lemma loop_skips_undecodable (src : path) (f : file) (d : path)
    (l : list path) :
  is_image src = true → decode (data f) = None →
  under SOURCE_DIR src →
  (∀ x, x ∈ l → under SOURCE_DIR x) →
  (∀ x, x ∈ l → x ≠ src →
     d ≠ dest_path cfg x
     ∧ (is_image x = true → d ≠ add_suffix (dest_path cfg x) ".tmp")
     ∧ d ≠ dest_path cfg x ++ [basename x]) →
  ∀ st : store, st !! src = Some f →
    exec (for_each l (process_file cfg)) st !! d = st !! d.
Proof.
  intros Himg Hdec Hsrc Hl Hd. induction l as [|x l IH]; intros st Hf; [done|].
  cbn [for_each]. rewrite exec_bind.
  assert (exec (process_file cfg x) st !! d = st !! d
          ∧ exec (process_file cfg x) st !! src = Some f) as [Hxd Hxs].
  { destruct (decide (x = src)) as [->|Hne].
    - by rewrite !(process_file_undecodable src st f).
    - split.
      + apply (touches_exec_lookup _ _ _ _ _ (process_file_footprint x)).
        destruct (Hd x) as (H1 & H2 & H3); [left|done|].
        intros [-> | [[Hi ->] | ->]]; [done|by apply H2|done].
      + rewrite <- Hf.
        destruct (under_inv _ _ (Hl x ltac:(left))) as (rel & Hrel & ->).
        apply (touches_exec_lookup _ _ _ _ _ (process_file_within cfg rel Hrel)).
        destruct (under_inv _ _ Hsrc) as (rel' & Hrel' & ->).
        apply source_not_under_output. }
  destruct (outcome_of (process_file cfg x) st) as [[]|e]; [|done].
  rewrite IH; [done| | |done].
  - intros y Hy. apply Hl. by right.
  - intros y Hy. apply Hd. by right.
Qed.

(** X19. An image below the source root that [Image.open] does not decode
    gets no file of its own: when no other file found has its destination
    or its temporary path there, and none is copied there into a directory
    that stands at its own destination, the destination of the image is
    after [main] what it was before, so it is missing from an output tree
    that was empty. *)
Theorem undecodable_image_left_out (s : store) (src : path) (f : file) :
  s !! src = Some f → under SOURCE_DIR src →
  is_image src = true → decode (data f) = None →
  (∀ x, x ∈ walk_files SOURCE_DIR s → x ≠ src →
     dest_path cfg src ≠ dest_path cfg x
     ∧ (is_image x = true →
        dest_path cfg src ≠ add_suffix (dest_path cfg x) ".tmp")
     ∧ dest_path cfg src ≠ dest_path cfg x ++ [basename x]) →
  exec (main cfg) s !! dest_path cfg src = s !! dest_path cfg src.
Proof.
  intros Hf Hsrc Himg Hdec Hd. unfold exec. rewrite main_run.
  case_bool_decide as Hnil; [done|].
  apply (loop_skips_undecodable src f); try done.
  intros x Hx. by apply walk_files_under in Hx as [? _].
Qed.

End Footprint.

Lemma main_touches_only_destinations_witness :
  exec (WithSource.main (H := Samples.halving_codec) WithSource.source_config)
    Samples.one_png !! ["compressedImages"; "a"; "other.png"] = None.
Proof.
  unfold exec.
  destruct (final_elem Samples.one_png
              (WithSource.main (H := Samples.halving_codec)
                 WithSource.source_config Samples.one_png).1) as [->|Hin];
    [reflexivity|].
  etrans;
    [apply (main_touches_only_destinations (H := Samples.halving_codec)
              WithSource.source_config Samples.one_png _
              ["compressedImages"; "a"; "other.png"] Hin)
    |reflexivity].
  intros src Hsrc.
  assert (src = Samples.src_png) as ->.
  { revert Hsrc. vm_compute. by intros ->%list_elem_of_singleton. }
  vm_compute. split; [discriminate|]. split; [intros _|]; discriminate.
Defined.

Lemma undecodable_image_left_out_witness :
  exec (WithSource.main (H := Samples.halving_codec) WithSource.source_config)
    Samples.fake_png !! ["compressedImages"; "notes.png"] = None.
Proof.
  apply (undecodable_image_left_out (H := Samples.halving_codec)
           WithSource.source_config Samples.fake_png
           ["sourceImages"; "notes.png"] Samples.text1).
  - reflexivity.
  - apply (bool_decide_unpack _). vm_compute. reflexivity.
  - vm_compute. reflexivity.
  - reflexivity.
  - intros x Hx Hne. exfalso. apply Hne. revert Hx. vm_compute.
    by intros ->%list_elem_of_singleton.
Defined.

(** The last condition is needed: the destination of [a.x.jpg] is a
    directory, its copy goes into it under the name [a.x.jpg], and that is
    the destination of the text file [a.x.x.jpg/a.png], which is not
    decoded. *)
Example copy_lands_on_destination :
  let m := WithSource.main (H := Samples.padding_codec)
             Samples.dotted_config in
  walk_files WithSource.SOURCE_DIR Samples.nested_names
  = [["sourceImages"; "a.x.jpg"]; ["sourceImages"; "a.x.x.jpg"; "a.png"]]
  ∧ WithSource.dest_path Samples.dotted_config ["sourceImages"; "a.x.jpg"]
    = ["compressedImages"; "a.x.x.jpg"]
  ∧ WithSource.dest_path Samples.dotted_config
      ["sourceImages"; "a.x.x.jpg"; "a.png"]
    = ["compressedImages"; "a.x.x.jpg"; "a.x.jpg"]
  ∧ Samples.nested_names !! ["compressedImages"; "a.x.x.jpg"; "a.x.jpg"]
    = None
  ∧ exec m Samples.nested_names
      !! ["compressedImages"; "a.x.x.jpg"; "a.x.jpg"]
    = Some Samples.png4.
Proof. vm_compute. repeat split. Qed.

(** ** The loop over the URLs of a category *)
Section UrlLoop.
Import WithLinks LinksLoop.
Context `{Codec}.
Variable http_get : string → option (list (list byte)).
Variable TARGET_FORMAT : string.




Lemma download_urls_returns (folder : path) (urls : list string) :
  ∀ (start : nat) (s : store),
    outcome_of (download_urls http_get TARGET_FORMAT folder start urls) s = Ok tt.
Proof.
  induction urls as [|url urls IH]; intros start s; [done|].
  cbn [download_urls]. unfold mbind, M_bind. rewrite outcome_bind.
  destruct (download_returns http_get TARGET_FORMAT url
              (join folder [filename TARGET_FORMAT start]) s) as [o ->].
  apply IH.
Qed.

Lemma download_urls_touches (folder : path) (urls : list string) :
  ∀ start : nat,
    touches
      (λ p, ∃ i, (start ≤ i < start + length urls)%nat
                 ∧ p = join folder [filename TARGET_FORMAT i])
      (λ _, False)
      (download_urls http_get TARGET_FORMAT folder start urls).
Proof.
  induction urls as [|url urls IH]; intros start; [apply touches_ret|].
  cbn [download_urls]. unfold mbind, M_bind. apply touches_bind.
  - eapply touches_mono; [| |apply download_touches]; [|done].
    intros p ->. exists start. cbn [length]. split; [lia|done].
  - intros _. eapply touches_mono; [| |apply IH]; [|done].
    intros p (i & Hi & ->). exists i. cbn [length]. split; [lia|done].
Qed.

(** X20. The loop over the URLs of a category runs to its end whatever the
    downloads do, and every store it passes through differs from the one it
    started in at most at the paths [image_i] of the folder, for the numbers
    [i] from the first to the last URL. *)
Theorem download_urls_completes (folder : path) (start : nat)
    (urls : list string) (s : store) :
  outcome_of (download_urls http_get TARGET_FORMAT folder start urls) s = Ok tt
  ∧ ∀ st : store,
      st ∈ (download_urls http_get TARGET_FORMAT folder start urls s).1 →
      ∀ p, (∀ i, (start ≤ i < start + length urls)%nat →
                 p ≠ join folder [filename TARGET_FORMAT i]) →
           st !! p = s !! p.
Proof.
  split; [apply download_urls_returns|].
  intros st Hst p Hp.
  apply (download_urls_touches folder urls start s st Hst).
  intros (i & Hi & ->). by eapply Hp.
Qed.


End UrlLoop.


(** ** A download that fails *)
Section DownloadFailure.
Import WithLinks.
Context `{Codec}.
Variable http_get : string → option (list (list byte)).
Variable TARGET_FORMAT : string.

(** X22. When [download_and_compress_image] ends in its handler, either
    nothing has been written, or the encoder has failed after [img.save] had
    opened [save_path]. If the path existed before the call, it then holds
    what the encoder had written, and the file that was there before is
    lost: the image is saved in place, not through a temporary file. If the
    path was free, [img.save] has created the file, it has held what the
    encoder had written, and [img.save] has removed it again: the store is
    after the call what it was before. *)
Theorem download_failure_effect (url : string) (save_path : path) (s : store)
    (e : exn) :
  outcome_of
    (download_and_compress_image http_get TARGET_FORMAT url save_path) s
  = Ok (Failed e) →
  let run :=
    download_and_compress_image http_get TARGET_FORMAT url save_path s in
  run.1 = []
  ∨ (e = ImageError
     ∧ ∃ part : list byte,
         <[save_path := File part now]> s ∈ run.1
         ∧ ((exists_at s save_path = true
             ∧ final s run.1 = <[save_path := File part now]> s)
            ∨ (exists_at s save_path = false ∧ final s run.1 = s))).
Proof.
  unfold outcome_of. rewrite download_run. cbv zeta.
  destruct (http_get url) as [chunks|]; [|by left].
  destruct (decode (gather_chunks chunks)) as [img|]; [|by left].
  assert (∀ part : list byte,
            <[save_path := File part now]> s
              ∈ write_stages save_path part now s
                  ++ (if exists_at s save_path then []
                      else [delete save_path
                              (<[save_path := File part now]> s)])
            ∧ ((exists_at s save_path = true
                ∧ final s (write_stages save_path part now s
                             ++ (if exists_at s save_path then []
                                 else [delete save_path
                                         (<[save_path := File part now]> s)]))
                  = <[save_path := File part now]> s)
               ∨ (exists_at s save_path = false
                  ∧ final s (write_stages save_path part now s
                               ++ (if exists_at s save_path then []
                                   else [delete save_path
                                           (<[save_path := File part now]> s)]))
                    = s))) as Hpart.
  { intros part. split.
    { apply elem_of_app. left. apply write_stages_last. }
    destruct (exists_at s save_path) eqn:Hex.
    - left. split; [done|]. by rewrite app_nil_r, final_write_stages.
    - right. split; [done|]. rewrite final_snoc.
      apply store_delete_insert.
      apply orb_false_iff in Hex as [Hno%bool_decide_eq_false_1 _].
      destruct (s !! save_path) eqn:E; [|done]. destruct Hno. by eexists. }
  do 2 (case_bool_decide;
        [destruct (encode _ _ _) as [bs|[part|]]; cbn [fst snd];
         [done| |by left];
         intros [= <-]; right; split; [done|]; exists part; apply Hpart|]).
  by left.
Qed.

End DownloadFailure.

(** The file that was at the path is lost. *)
Lemma download_failure_effect_witness :
  let s := <[LinkSamples.save_path := Samples.png4]> LinkSamples.cats_folder in
  exec (WithLinks.download_and_compress_image (H := Samples.failing_codec)
          LinkSamples.sample_get "webp" "https://a/1.jpg"
          LinkSamples.save_path) s
    !! LinkSamples.save_path
  = Some (File [] 1000).
Proof.
  intros s.
  destruct (download_failure_effect (H := Samples.failing_codec)
              LinkSamples.sample_get "webp" "https://a/1.jpg"
              LinkSamples.save_path s ImageError)
    as [Hnil|(_ & part & Hin & [[_ Hfin]|[Hex _]])].
  - reflexivity.
  - vm_compute in Hnil. discriminate Hnil.
  - reflexivity.
  - vm_compute in Hex. discriminate Hex.
Defined.
